(** * EMO-Buddy: the audio / session orchestration core of [index.tsx]

    A shallow embedding of the browser front-end's real-time core:
    - the PCM codec ([encode], [decode], [decodeAudioData], [createBlob]);
    - the face's expression resolution ([EmoFace], [EmoEye], [EmoMouth]);
    - the [App] component's conversation state: the voice-activity gate in
      [scriptProcessor.onaudioprocess], [stopAllAudio], the [onmessage]
      handler (tool-call dispatch, chunk scheduling, interruption), the
      [onended] handler of a scheduled source, and the two effects that
      maintain [boredom];
    - the mood lab ([MoodLab]) and the queued player of the third variant
      of the component ([onaudio], [playNext]).

    Conventions of the embedding.
    - A JavaScript number that need not be an integer is an exact rational
      ([Q]); [NaN] is kept apart ([jsnum]) where the code can produce it.
      Every arithmetic step of the codec (scaling by [32768], which is a
      power of two, on 16-bit or float32 values) is exact in IEEE doubles, so
      the rational model coincides with the code on finite inputs.
    - A [Uint8Array] is a [list byte]; an [Int16Array] is a [list Z] whose
      cells are written through [ToInt16]; a [Float32Array] is a
      [list jsnum].  A JavaScript string is a [string]: the characters used
      here all have codes below 256.
    - An exception is an explicit result ([JsResult]).
    - React state is explicit.  The [status] and [boredom] cells hold the
      values of the last render; a call of [setStatus] or [setBoredom] is
      queued and applied by the next render ([render]); the effect on
      [[status]] runs some time after the render that changed [status]
      ([statusEffectRun]), and a [useRef] cell is written in place.
    - An [await] that waits for the browser ([startVision]) suspends the
      handler: the rest of it runs when the request settles, and other
      events are handled in between. *)

From Stdlib Require Import ZArith QArith Qround Qabs Qminmax Lia Lqa List String Ascii.
From Stdlib.Strings Require Import Byte.
From stdpp Require Import base list gmap strings.

Local Open Scope Z_scope.

(** ** JavaScript values and exceptions *)

Inductive JsError : Type :=
| RangeError
| NotSupportedError
| InvalidCharacterError
| TypeError.

Inductive JsResult (A : Type) : Type :=
| Ok (a : A)
| Throw (e : JsError).

Arguments Ok {A} a.
Arguments Throw {A} e.

Definition js_bind {A B : Type} (c : JsResult A) (k : A -> JsResult B) : JsResult B :=
  match c with
  | Ok a => k a
  | Throw e => Throw e
  end.

Notation "'let!' x ':=' c 'in' k" := (js_bind c (fun x => k))
  (at level 10, x name, c at level 100, k at level 200).

(** A cell of a [Float32Array], or the value of a numeric expression. *)
Inductive jsnum : Type :=
| Num (q : Q)
| NaN.

Definition js_mul (x : jsnum) (k : Q) : jsnum :=
  match x with
  | Num q => Num (q * k)
  | NaN => NaN
  end.

(** [IntegerPart]: rounding towards zero. *)
Definition truncate (q : Q) : Z := Z.quot (Qnum q) (Zpos (Qden q)).

Definition wrap_int16 (n : Z) : Z :=
  let m := n mod 65536 in
  if 32768 <=? m then m - 65536 else m.

(** The conversion applied by a store into an [Int16Array]. *)
Definition ToInt16 (x : jsnum) : Z :=
  match x with
  | Num q => wrap_int16 (truncate q)
  | NaN => 0
  end.

Definition byte_to_Z (b : byte) : Z := Z.of_N (Byte.to_N b).

Definition byte_of_Z (z : Z) : byte :=
  match Byte.of_N (Z.to_N (z mod 256)) with
  | Some b => b
  | None => x00
  end.

(** ** The PCM codec *)

Module Pcm.

(** *** [btoa] and [atob] (browser built-ins: base64 of a binary string) *)

Definition b64_alphabet : list ascii :=
  list_ascii_of_string
    "ABCDEFGHIJKLMNOPQRSTUVWXYZabcdefghijklmnopqrstuvwxyz0123456789+/".

Definition b64_char (n : Z) : ascii := nth (Z.to_nat n) b64_alphabet "="%char.

Fixpoint index_of (c : ascii) (l : list ascii) (i : Z) : option Z :=
  match l with
  | [] => None
  | d :: l' => if Ascii.eqb c d then Some i else index_of c l' (i + 1)
  end.

Definition b64_index (c : ascii) : option Z := index_of c b64_alphabet 0.

Definition char_code (c : ascii) : Z := Z.of_N (N_of_ascii c).

Definition fromCharCode (z : Z) : ascii := ascii_of_N (Z.to_N z).

(** Three bytes make four 6-bit groups; a final group of one or two bytes
    makes two or three. *)
Fixpoint sextets (codes : list Z) : list Z :=
  match codes with
  | a :: b :: c :: rest =>
      a / 4 :: (a mod 4) * 16 + b / 16 :: (b mod 16) * 4 + c / 64 :: c mod 64
        :: sextets rest
  | [a; b] => [a / 4; (a mod 4) * 16 + b / 16; (b mod 16) * 4]
  | [a] => [a / 4; (a mod 4) * 16]
  | [] => []
  end.

Definition padding (n : nat) : list ascii :=
  repeat "="%char ((3 - n mod 3) mod 3)%nat.

Definition btoa (binary : string) : string :=
  let codes := map char_code (list_ascii_of_string binary) in
  string_of_list_ascii (map b64_char (sextets codes) ++ padding (length codes)).

Definition is_ascii_whitespace (c : ascii) : bool :=
  let n := char_code c in
  (n =? 9) || (n =? 10) || (n =? 12) || (n =? 13) || (n =? 32).

(** When the length is a multiple of four, one or two trailing ["="] go. *)
Definition strip_padding (l : list ascii) : list ascii :=
  if (length l mod 4 =? 0)%nat then
    match rev l with
    | c1 :: c2 :: r =>
        if Ascii.eqb c1 "=" then if Ascii.eqb c2 "=" then rev r else rev (c2 :: r)
        else l
    | [c1] => if Ascii.eqb c1 "=" then [] else l
    | [] => l
    end
  else l.

Fixpoint indices (l : list ascii) : option (list Z) :=
  match l with
  | [] => Some []
  | c :: l' =>
      match b64_index c, indices l' with
      | Some i, Some rest => Some (i :: rest)
      | _, _ => None
      end
  end.

Fixpoint unsextets (l : list Z) : list Z :=
  match l with
  | a :: b :: c :: d :: rest =>
      a * 4 + b / 16 :: (b mod 16) * 16 + c / 4 :: (c mod 4) * 64 + d
        :: unsextets rest
  | [a; b; c] => [a * 4 + b / 16; (b mod 16) * 16 + c / 4]
  | [a; b] => [a * 4 + b / 16]
  | _ => []
  end.

(** The forgiving base64 decoder of the HTML standard. *)
Definition atob (s : string) : JsResult string :=
  let data :=
    strip_padding
      (List.filter (fun c => negb (is_ascii_whitespace c)) (list_ascii_of_string s)) in
  if (length data mod 4 =? 1)%nat then Throw InvalidCharacterError
  else
    match indices data with
    | None => Throw InvalidCharacterError
    | Some sx => Ok (string_of_list_ascii (map fromCharCode (unsextets sx)))
    end.

(** *** [encode] and [decode] *)

Definition encode (bytes : list byte) : string :=
  let binary :=
    fold_left (fun binary b => (binary ++ String (ascii_of_byte b) EmptyString)%string)
      bytes EmptyString in
  btoa binary.

Definition decode (base64 : string) : JsResult (list byte) :=
  let! binaryString := atob base64 in
  Ok (map (fun c => byte_of_Z (char_code c)) (list_ascii_of_string binaryString)).

(** *** Views of one buffer as 16-bit integers and as bytes (little-endian) *)

Definition int16_bytes (v : Z) : list byte :=
  [byte_of_Z (v mod 256); byte_of_Z ((v / 256) mod 256)].

Definition Uint8Array_of_buffer (int16 : list Z) : list byte :=
  flat_map int16_bytes int16.

Fixpoint int16_cells (data : list byte) : list Z :=
  match data with
  | lo :: hi :: rest => wrap_int16 (byte_to_Z lo + 256 * byte_to_Z hi) :: int16_cells rest
  | _ => []
  end.

(** [new Int16Array(buffer)] throws a [RangeError] when the byte length of the
    buffer is not a multiple of the element size. *)
Definition Int16Array_of_buffer (data : list byte) : JsResult (list Z) :=
  if Nat.even (length data) then Ok (int16_cells data) else Throw RangeError.

(** *** [decodeAudioData] *)

Record AudioBuffer : Type := mkAudioBuffer {
  sampleRate : Q;
  channels : list (list jsnum)
}.

Definition buffer_length (b : AudioBuffer) : nat :=
  match channels b with
  | [] => 0%nat
  | c :: _ => length c
  end.

Definition duration (b : AudioBuffer) : Q :=
  (inject_Z (Z.of_nat (buffer_length b)) / sampleRate b)%Q.

(** What the code needs of an [AudioContext]: which channel counts and sample
    rates its [createBuffer] accepts.  The Web Audio standard leaves the limits
    to the browser; it only requires that 1 to 32 channels and rates from 8000
    to 96000 are accepted. *)
Record AudioContext : Type := mkContext {
  supportsChannels : nat -> bool;
  supportsRate : Q -> bool
}.

(** [ctx.createBuffer(numberOfChannels, length, sampleRate)]: the length goes
    through the conversion to [unsigned long] (rounding towards zero), the
    buffer is zero-filled, and an argument that is zero or outside what the
    context supports is refused with [NotSupportedError]. *)
Definition createBuffer (ctx : AudioContext) (numChannels : nat) (len : Q) (rate : Q)
    : JsResult AudioBuffer :=
  let frames := Z.to_nat (truncate len) in
  if negb (supportsChannels ctx numChannels) || negb (supportsRate ctx rate)
     || (numChannels =? 0)%nat || (frames =? 0)%nat
  then Throw NotSupportedError
  else Ok (mkAudioBuffer rate (replicate numChannels (replicate frames (Num 0)))).

(** [dataInt16[k] / 32768.0]; a read past the end is [undefined], and
    [undefined / 32768.0] is [NaN]. *)
Definition read_scaled (dataInt16 : list Z) (k : nat) : jsnum :=
  match dataInt16 !! k with
  | Some v => Num (inject_Z v / 32768)
  | None => NaN
  end.

(** The inner loop, [for (let i = 0; i < frameCount; i++)]: [i] takes the
    values below the ceiling of [frameCount]; a store past the end of the
    channel is ignored. *)
Definition fill_channel (dataInt16 : list Z) (numChannels : nat) (frameCount : Q)
    (channel : nat) (channelData : list jsnum) : list jsnum :=
  foldl
    (fun cd i => <[ i := read_scaled dataInt16 (i * numChannels + channel) ]> cd)
    channelData
    (seq 0 (Z.to_nat (Qceiling frameCount))).

Definition decodeAudioData (data : list byte) (ctx : AudioContext) (rate : Q)
    (numChannels : nat) : JsResult AudioBuffer :=
  let! dataInt16 := Int16Array_of_buffer data in
  let frameCount := (inject_Z (Z.of_nat (length dataInt16)) / inject_Z (Z.of_nat numChannels))%Q in
  let! buffer := createBuffer ctx numChannels frameCount rate in
  Ok (mkAudioBuffer (sampleRate buffer)
        (imap (fill_channel dataInt16 numChannels frameCount) (channels buffer))).

(** *** [createBlob] *)

Record Blob : Type := mkBlob {
  data : string;
  mimeType : string
}.

Definition createBlob (samples : list jsnum) : Blob :=
  let int16 := map (fun x => ToInt16 (js_mul x 32768)) samples in
  mkBlob (encode (Uint8Array_of_buffer int16)) "audio/pcm;rate=16000".

End Pcm.

(** ** The face: expression resolution and the eye and mouth shapes *)

Module Face.

Inductive Status : Type := idle | listening | speaking | thinking.

Definition Status_eqb (a b : Status) : bool :=
  match a, b with
  | idle, idle | listening, listening | speaking, speaking | thinking, thinking => true
  | _, _ => false
  end.

(** The type [Expression]: the fixed base moods. *)
Definition base_moods : list string :=
  ["neutral"; "happy"; "surprised"; "angry"; "curious"; "sleepy"; "wink";
   "skeptical"; "sad"; "excited"; "thinking"; "annoyed"; "thoughtful"; "yawn";
   "distracted"]%string.

Record CustomExpression : Type := mkCustom {
  name : string;
  eyeBase : string;
  mouthBase : string
}.

(** The value of a property read: [undefined] is [None]. *)
Definition JsString : Type := option string.

(** Names every plain object inherits from [Object.prototype]; reading one of
    them from the registry object yields a function or an object (truthy, and
    without [eyeBase] or [mouthBase]) unless the registry has its own entry. *)
Definition object_prototype_keys : list string :=
  ["constructor"; "__proto__"; "hasOwnProperty"; "isPrototypeOf";
   "propertyIsEnumerable"; "toLocaleString"; "toString"; "valueOf";
   "__defineGetter__"; "__defineSetter__"; "__lookupGetter__";
   "__lookupSetter__"]%string.

Definition inherited (key : string) : bool :=
  bool_decide (key ∈ object_prototype_keys).

(** [EmoFace]: the pair [(eyeExp, mouthExp)] handed to [EmoEye] and [EmoMouth]. *)
Definition EmoFace (status : Status) (expression : string)
    (customMap : gmap string CustomExpression) (boredom : Z) : JsString * JsString :=
  let '(eyeExp, mouthExp) :=
    match customMap !! expression with
    | Some isCustom => (Some (eyeBase isCustom), Some (mouthBase isCustom))
    | None =>
        if inherited expression then (None, None)
        else (Some expression, Some expression)
    end in
  let eyeExp :=
    if String.eqb expression "neutral" && Status_eqb status idle then
      if 80 <? boredom then Some "sleepy"%string
      else if 40 <? boredom then Some "distracted"%string
      else eyeExp
    else eyeExp in
  (eyeExp, mouthExp).

Record EyeShape : Type := mkEye {
  eye_width : Z;
  eye_height : Z;
  eye_borderRadius : string;
  eye_rotate : Z;
  eye_scaleY : Q;
  eye_translateY : Z
}.

Definition is_str (e : JsString) (s : string) : bool :=
  match e with
  | Some x => String.eqb x s
  | None => false
  end.

(** The expression [EmoEye] draws. *)
Definition eye_activeExpression (state : Status) (expression : JsString) (isStartled : bool)
    : JsString :=
  let activeExpression := if isStartled then Some "surprised"%string else expression in
  let activeExpression :=
    if Status_eqb state listening && is_str activeExpression "neutral"
    then Some "curious"%string else activeExpression in
  if Status_eqb state thinking && is_str activeExpression "neutral"
  then Some "thinking"%string else activeExpression.

(** The values the eye starts from, before the [switch]. *)
Definition eye_default (blink isStartled : bool) : EyeShape :=
  mkEye 72 72 "22px" 0 (if blink && negb isStartled then 5 # 100 else 1) 0.

Definition eye_switch (activeExpression : JsString) (isLeft : bool) (d : EyeShape) : EyeShape :=
  let 'mkEye width height borderRadius rotate scaleY translateY := d in
  if is_str activeExpression "happy" then
    mkEye width height "40px 40px 18px 18px" (if isLeft then 15 else -15) scaleY (-6)
  else if is_str activeExpression "surprised" then
    mkEye 82 82 "50%" rotate scaleY translateY
  else if is_str activeExpression "angry" then
    mkEye width 40 "10px 10px 45px 45px" (if isLeft then -25 else 25) scaleY translateY
  else if is_str activeExpression "sleepy" then
    mkEye width 28 "50%" rotate (22 # 100) translateY
  else if is_str activeExpression "curious" then
    mkEye width (if isLeft then 60 else 78) borderRadius (if isLeft then -12 else 10)
      scaleY translateY
  else if is_str activeExpression "wink" then
    if negb isLeft then mkEye width height borderRadius rotate (5 # 100) translateY
    else mkEye width height "42px 42px 18px 18px" 15 scaleY translateY
  else if is_str activeExpression "skeptical" then
    mkEye width (if isLeft then 78 else 42) borderRadius (if isLeft then -18 else 0)
      scaleY (if isLeft then -14 else 0)
  else if is_str activeExpression "sad" then
    mkEye width height "18px 18px 42px 42px" (if isLeft then -22 else 22) scaleY 14
  else if is_str activeExpression "excited" then
    mkEye 88 62 "28px" rotate scaleY translateY
  else if is_str activeExpression "thinking" then
    mkEye 78 48 borderRadius (if isLeft then 12 else -12) scaleY translateY
  else if is_str activeExpression "annoyed" then
    mkEye width 38 "12px 12px 42px 42px" (if isLeft then -12 else 12) scaleY translateY
  else if is_str activeExpression "thoughtful" then
    mkEye width (if isLeft then 68 else 58) "45% 45% 22% 22%" (if isLeft then -22 else -12)
      scaleY (-10)
  else if is_str activeExpression "yawn" then
    mkEye width height borderRadius rotate (28 # 100) (-12)
  else if is_str activeExpression "distracted" then
    mkEye width height borderRadius (if isLeft then 6 else 18) scaleY 6
  else d.

(** [EmoEye], up to the geometry it hands to the style. *)
Definition EmoEye (state : Status) (expression : JsString) (isLeft isStartled blink : bool)
    : EyeShape :=
  let activeExpression := eye_activeExpression state expression isStartled in
  let s := eye_switch activeExpression isLeft (eye_default blink isStartled) in
  if Status_eqb state listening
  then mkEye (eye_width s + 10) (eye_height s + 4) (eye_borderRadius s) (eye_rotate s)
         (eye_scaleY s) (eye_translateY s)
  else s.

Record MouthShape : Type := mkMouth {
  mouth_width : Q;
  mouth_height : Q;
  mouth_borderRadius : string;
  mouth_rotate : Z
}.

Definition mouth_default : MouthShape := mkMouth 38 8 "7px" 0.

Definition mouth_switch (activeExpression : JsString) (d : MouthShape) : MouthShape :=
  if is_str activeExpression "happy" then mkMouth 52 16 "0 0 32px 32px" (mouth_rotate d)
  else if is_str activeExpression "surprised" then mkMouth 28 28 "50%" (mouth_rotate d)
  else if is_str activeExpression "angry" then mkMouth 38 6 (mouth_borderRadius d) (-6)
  else if is_str activeExpression "sad" then mkMouth 48 13 "28px 28px 0 0" (mouth_rotate d)
  else if is_str activeExpression "skeptical" then mkMouth 32 7 (mouth_borderRadius d) 18
  else if is_str activeExpression "excited" then
    mkMouth 65 22 "12px 12px 42px 42px" (mouth_rotate d)
  else if is_str activeExpression "sleepy" then mkMouth 18 18 "50%" (mouth_rotate d)
  else if is_str activeExpression "wink" then mkMouth 42 12 "0 0 22px 22px" (-6)
  else if is_str activeExpression "annoyed" then
    mkMouth 32 4 (mouth_borderRadius d) (mouth_rotate d)
  else if is_str activeExpression "thoughtful" then mkMouth 18 18 "50%" (mouth_rotate d)
  else if is_str activeExpression "yawn" then mkMouth 20 35 "50%" (mouth_rotate d)
  else d.

(** [EmoMouth], up to the geometry it hands to the style. *)
Definition EmoMouth (state : Status) (intensity : Q) (expression : JsString)
    (isStartled : bool) : MouthShape :=
  let activeExpression := if isStartled then Some "surprised"%string else expression in
  if Status_eqb state speaking then
    mkMouth (22 + intensity * 28) (8 + intensity * 48)
      (if Qle_bool intensity (3 # 10) then "15px" else "50%") 0
  else mouth_switch activeExpression mouth_default.

End Face.
(** ** The [App] component: conversation state and its handlers *)

Module App.

Export Face.

(** Arithmetic of the frame handler on [Float32Array] cells. *)
Definition js_add (x y : jsnum) : jsnum :=
  match x, y with
  | Num a, Num b => Num (a + b)
  | _, _ => NaN
  end.

Definition js_abs (x : jsnum) : jsnum :=
  match x with
  | Num a => Num (Qabs a)
  | NaN => NaN
  end.

(** [sum / inputData.length]; the sum over an empty frame is [0], and
    [0 / 0] is [NaN]. *)
Definition js_div_length (sum : jsnum) (len : nat) : jsnum :=
  match sum with
  | Num a => if (len =? 0)%nat then NaN else Num (a / inject_Z (Z.of_nat len))
  | NaN => NaN
  end.

(** [x > t]; a comparison with [NaN] is false. *)
Definition js_gt (x : jsnum) (t : Q) : bool :=
  match x with
  | Num a => negb (Qle_bool a t)
  | NaN => false
  end.

Definition js_to_string (v : JsString) : string := default "undefined"%string v.

Definition truthy (v : JsString) : bool :=
  match v with
  | Some s => negb (String.eqb s "")
  | None => false
  end.

Definition SourceId : Type := nat.

(** A function call of the model.  [args] is optional in the SDK's type:
    [None] is an absent [fc.args]. *)
Record FunctionCall : Type := mkCall {
  fc_id : string;
  fc_name : string;
  fc_args : option (gmap string string)
}.

Record FunctionResponse : Type := mkResponse {
  fr_id : string;
  fr_name : string;
  fr_result : string
}.

Record Sticker : Type := mkSticker {
  icon : JsString;
  position : string;
  sticker_id : Z
}.

Record ThoughtData : Type := mkThought {
  thought_type : JsString;
  thought_value : JsString;
  timestamp : Z
}.

Inductive Effect : Type :=
| SourceStart (src : SourceId) (when : Q)
| SourceStop (src : SourceId)
| SendRealtimeInput (media : Pcm.Blob)
| SendToolResponse (functionResponses : FunctionResponse).

(** What [new Function(code)()] does inside the [try] of [execute_javascript].
    [Threw message]: a value is thrown whose [message] prints as [message]
    (["undefined"] for a value that has none).  [ThrewNullish]: [null] or
    [undefined] is thrown (or a value whose [message] cannot be read or
    printed), so that [err.message] in the [catch] block throws in its turn. *)
Inductive JsOutcome : Type :=
| Returned (result : JsString)
| Threw (message : string)
| ThrewNullish.

(** How the media request awaited by [startVision] settles.  [Refused]: it is
    rejected and the [catch] block of [startVision] builds [errorMsg].
    [RefusedNullish]: it is rejected with [null] or [undefined], [err.message]
    throws in the [catch] block and [startVision] itself rejects. *)
Inductive MediaOutcome : Type :=
| Granted
| Refused (errorMsg : string)
| RefusedNullish.

(** What the browser answers while a handler runs. *)
Record Env : Type := mkEnv {
  outCtx : Pcm.AudioContext;            (* [audioCtxRef.current.output] *)
  currentTime : Q;                      (* [outCtx.currentTime] *)
  dateNow : Z;                          (* [Date.now()] *)
  runFunction : JsString -> JsOutcome;  (* [new Function(code)()] *)
  argsError : string
    (* the [message] of the [TypeError] raised by [fc.args.code] when
       [fc.args] is absent *)
}.

(** [toolCall.functionCalls] and [modelTurn.parts] are optional in the SDK's
    types; the handler reads both unguarded. *)
Inductive ModelTurn : Type :=
| NoTurn                    (* no [serverContent.modelTurn] *)
| NoParts                   (* a [modelTurn] without [parts] *)
| Audio (data : JsString).  (* [modelTurn.parts[0]?.inlineData?.data] *)

Record LiveServerMessage : Type := mkMessage {
  outputTranscription : JsString;
  inputTranscription : JsString;
  toolCall : option (option (list FunctionCall));
    (* [None]: no [toolCall]; [Some None]: a [toolCall] without [functionCalls] *)
  modelTurn : ModelTurn;
  interrupted : bool
}.

(** A call of [onmessage] stopped at [await startVision(type)]. *)
Record Suspended : Type := mkSuspended {
  s_call : FunctionCall;       (* the [toggle_vision] call being handled *)
  s_rest : list FunctionCall;  (* the calls of the batch that follow it *)
  s_message : LiveServerMessage
}.

(** The two calls of [setBoredom]: [setBoredom(0)] and
    [setBoredom(prev => Math.min(100, prev + 1))]. *)
Inductive BoredomUpdate : Type :=
| Reset
| Bump.
Record AppState : Type := mkApp {
  isActive : bool;
  isConnecting : bool;
  error : option string;
  status : Status;  (* the [status] cell, as of the last render *)
  queuedStatus : option Status;  (* the latest [setStatus] call the next render will apply *)
  statusRef : Status;  (* [statusRef.current] *)
  statusEffect : bool;  (* the effect on [[status]] is due *)
  expression : string;
  customExpressions : gmap string CustomExpression;  (* the custom-mood registry *)
  boredom : Z;  (* the [boredom] cell, as of the last render *)
  queuedBoredom : list BoredomUpdate;  (* pending [setBoredom] calls, oldest first *)
  micLevel : jsnum;
  stickers : list Sticker;
  thought : option ThoughtData;
  memoryBank : list ThoughtData;
  aiCustomCss : JsString;
  visionType : option string;
  noiseThreshold : Q;  (* [voiceSettingsRef.current.noiseThreshold] *)
  nextStartTime : Q;  (* [nextStartTimeRef.current] *)
  sources : list SourceId;  (* [sourcesRef.current], in insertion order *)
  vadActive : Z;  (* [vadActiveRef.current] *)
  sessionRef : bool;  (* whether [sessionRef.current] holds the session *)
  awaiting : list Suspended;  (* the [onmessage] calls stopped at [await startVision(type)] *)
  currentInputTranscription : string;
  currentOutputTranscription : string;
  nextSource : SourceId;  (* the next handle [createBufferSource] returns *)
  trace : list Effect  (* calls made on the audio graph and on the session, oldest first *)
}.

Definition set_isActive (v : bool) (st : AppState) : AppState :=
  mkApp v (isConnecting st) (error st) (status st) (queuedStatus st) (statusRef st)
    (statusEffect st) (expression st) (customExpressions st) (boredom st) (queuedBoredom st)
    (micLevel st) (stickers st) (thought st) (memoryBank st) (aiCustomCss st)
    (visionType st) (noiseThreshold st) (nextStartTime st) (sources st) (vadActive st)
    (sessionRef st) (awaiting st) (currentInputTranscription st)
    (currentOutputTranscription st) (nextSource st) (trace st).

Definition set_isConnecting (v : bool) (st : AppState) : AppState :=
  mkApp (isActive st) v (error st) (status st) (queuedStatus st) (statusRef st)
    (statusEffect st) (expression st) (customExpressions st) (boredom st) (queuedBoredom st)
    (micLevel st) (stickers st) (thought st) (memoryBank st) (aiCustomCss st)
    (visionType st) (noiseThreshold st) (nextStartTime st) (sources st) (vadActive st)
    (sessionRef st) (awaiting st) (currentInputTranscription st)
    (currentOutputTranscription st) (nextSource st) (trace st).

Definition set_error (v : option string) (st : AppState) : AppState :=
  mkApp (isActive st) (isConnecting st) v (status st) (queuedStatus st) (statusRef st)
    (statusEffect st) (expression st) (customExpressions st) (boredom st) (queuedBoredom st)
    (micLevel st) (stickers st) (thought st) (memoryBank st) (aiCustomCss st)
    (visionType st) (noiseThreshold st) (nextStartTime st) (sources st) (vadActive st)
    (sessionRef st) (awaiting st) (currentInputTranscription st)
    (currentOutputTranscription st) (nextSource st) (trace st).

Definition set_status (v : Status) (st : AppState) : AppState :=
  mkApp (isActive st) (isConnecting st) (error st) v (queuedStatus st) (statusRef st)
    (statusEffect st) (expression st) (customExpressions st) (boredom st) (queuedBoredom st)
    (micLevel st) (stickers st) (thought st) (memoryBank st) (aiCustomCss st)
    (visionType st) (noiseThreshold st) (nextStartTime st) (sources st) (vadActive st)
    (sessionRef st) (awaiting st) (currentInputTranscription st)
    (currentOutputTranscription st) (nextSource st) (trace st).

Definition set_queuedStatus (v : option Status) (st : AppState) : AppState :=
  mkApp (isActive st) (isConnecting st) (error st) (status st) v (statusRef st)
    (statusEffect st) (expression st) (customExpressions st) (boredom st) (queuedBoredom st)
    (micLevel st) (stickers st) (thought st) (memoryBank st) (aiCustomCss st)
    (visionType st) (noiseThreshold st) (nextStartTime st) (sources st) (vadActive st)
    (sessionRef st) (awaiting st) (currentInputTranscription st)
    (currentOutputTranscription st) (nextSource st) (trace st).

Definition set_statusRef (v : Status) (st : AppState) : AppState :=
  mkApp (isActive st) (isConnecting st) (error st) (status st) (queuedStatus st) v
    (statusEffect st) (expression st) (customExpressions st) (boredom st) (queuedBoredom st)
    (micLevel st) (stickers st) (thought st) (memoryBank st) (aiCustomCss st)
    (visionType st) (noiseThreshold st) (nextStartTime st) (sources st) (vadActive st)
    (sessionRef st) (awaiting st) (currentInputTranscription st)
    (currentOutputTranscription st) (nextSource st) (trace st).

Definition set_statusEffect (v : bool) (st : AppState) : AppState :=
  mkApp (isActive st) (isConnecting st) (error st) (status st) (queuedStatus st)
    (statusRef st) v (expression st) (customExpressions st) (boredom st) (queuedBoredom st)
    (micLevel st) (stickers st) (thought st) (memoryBank st) (aiCustomCss st)
    (visionType st) (noiseThreshold st) (nextStartTime st) (sources st) (vadActive st)
    (sessionRef st) (awaiting st) (currentInputTranscription st)
    (currentOutputTranscription st) (nextSource st) (trace st).

Definition set_expression (v : string) (st : AppState) : AppState :=
  mkApp (isActive st) (isConnecting st) (error st) (status st) (queuedStatus st)
    (statusRef st) (statusEffect st) v (customExpressions st) (boredom st)
    (queuedBoredom st) (micLevel st) (stickers st) (thought st) (memoryBank st)
    (aiCustomCss st) (visionType st) (noiseThreshold st) (nextStartTime st) (sources st)
    (vadActive st) (sessionRef st) (awaiting st) (currentInputTranscription st)
    (currentOutputTranscription st) (nextSource st) (trace st).

Definition set_customExpressions (v : gmap string CustomExpression) (st : AppState) : AppState :=
  mkApp (isActive st) (isConnecting st) (error st) (status st) (queuedStatus st)
    (statusRef st) (statusEffect st) (expression st) v (boredom st) (queuedBoredom st)
    (micLevel st) (stickers st) (thought st) (memoryBank st) (aiCustomCss st)
    (visionType st) (noiseThreshold st) (nextStartTime st) (sources st) (vadActive st)
    (sessionRef st) (awaiting st) (currentInputTranscription st)
    (currentOutputTranscription st) (nextSource st) (trace st).

Definition set_boredom (v : Z) (st : AppState) : AppState :=
  mkApp (isActive st) (isConnecting st) (error st) (status st) (queuedStatus st)
    (statusRef st) (statusEffect st) (expression st) (customExpressions st) v
    (queuedBoredom st) (micLevel st) (stickers st) (thought st) (memoryBank st)
    (aiCustomCss st) (visionType st) (noiseThreshold st) (nextStartTime st) (sources st)
    (vadActive st) (sessionRef st) (awaiting st) (currentInputTranscription st)
    (currentOutputTranscription st) (nextSource st) (trace st).

Definition set_queuedBoredom (v : list BoredomUpdate) (st : AppState) : AppState :=
  mkApp (isActive st) (isConnecting st) (error st) (status st) (queuedStatus st)
    (statusRef st) (statusEffect st) (expression st) (customExpressions st) (boredom st) v
    (micLevel st) (stickers st) (thought st) (memoryBank st) (aiCustomCss st)
    (visionType st) (noiseThreshold st) (nextStartTime st) (sources st) (vadActive st)
    (sessionRef st) (awaiting st) (currentInputTranscription st)
    (currentOutputTranscription st) (nextSource st) (trace st).

Definition set_micLevel (v : jsnum) (st : AppState) : AppState :=
  mkApp (isActive st) (isConnecting st) (error st) (status st) (queuedStatus st)
    (statusRef st) (statusEffect st) (expression st) (customExpressions st) (boredom st)
    (queuedBoredom st) v (stickers st) (thought st) (memoryBank st) (aiCustomCss st)
    (visionType st) (noiseThreshold st) (nextStartTime st) (sources st) (vadActive st)
    (sessionRef st) (awaiting st) (currentInputTranscription st)
    (currentOutputTranscription st) (nextSource st) (trace st).

Definition set_stickers (v : list Sticker) (st : AppState) : AppState :=
  mkApp (isActive st) (isConnecting st) (error st) (status st) (queuedStatus st)
    (statusRef st) (statusEffect st) (expression st) (customExpressions st) (boredom st)
    (queuedBoredom st) (micLevel st) v (thought st) (memoryBank st) (aiCustomCss st)
    (visionType st) (noiseThreshold st) (nextStartTime st) (sources st) (vadActive st)
    (sessionRef st) (awaiting st) (currentInputTranscription st)
    (currentOutputTranscription st) (nextSource st) (trace st).

Definition set_thought (v : option ThoughtData) (st : AppState) : AppState :=
  mkApp (isActive st) (isConnecting st) (error st) (status st) (queuedStatus st)
    (statusRef st) (statusEffect st) (expression st) (customExpressions st) (boredom st)
    (queuedBoredom st) (micLevel st) (stickers st) v (memoryBank st) (aiCustomCss st)
    (visionType st) (noiseThreshold st) (nextStartTime st) (sources st) (vadActive st)
    (sessionRef st) (awaiting st) (currentInputTranscription st)
    (currentOutputTranscription st) (nextSource st) (trace st).

Definition set_memoryBank (v : list ThoughtData) (st : AppState) : AppState :=
  mkApp (isActive st) (isConnecting st) (error st) (status st) (queuedStatus st)
    (statusRef st) (statusEffect st) (expression st) (customExpressions st) (boredom st)
    (queuedBoredom st) (micLevel st) (stickers st) (thought st) v (aiCustomCss st)
    (visionType st) (noiseThreshold st) (nextStartTime st) (sources st) (vadActive st)
    (sessionRef st) (awaiting st) (currentInputTranscription st)
    (currentOutputTranscription st) (nextSource st) (trace st).

Definition set_aiCustomCss (v : JsString) (st : AppState) : AppState :=
  mkApp (isActive st) (isConnecting st) (error st) (status st) (queuedStatus st)
    (statusRef st) (statusEffect st) (expression st) (customExpressions st) (boredom st)
    (queuedBoredom st) (micLevel st) (stickers st) (thought st) (memoryBank st) v
    (visionType st) (noiseThreshold st) (nextStartTime st) (sources st) (vadActive st)
    (sessionRef st) (awaiting st) (currentInputTranscription st)
    (currentOutputTranscription st) (nextSource st) (trace st).

Definition set_visionType (v : option string) (st : AppState) : AppState :=
  mkApp (isActive st) (isConnecting st) (error st) (status st) (queuedStatus st)
    (statusRef st) (statusEffect st) (expression st) (customExpressions st) (boredom st)
    (queuedBoredom st) (micLevel st) (stickers st) (thought st) (memoryBank st)
    (aiCustomCss st) v (noiseThreshold st) (nextStartTime st) (sources st) (vadActive st)
    (sessionRef st) (awaiting st) (currentInputTranscription st)
    (currentOutputTranscription st) (nextSource st) (trace st).

Definition set_noiseThreshold (v : Q) (st : AppState) : AppState :=
  mkApp (isActive st) (isConnecting st) (error st) (status st) (queuedStatus st)
    (statusRef st) (statusEffect st) (expression st) (customExpressions st) (boredom st)
    (queuedBoredom st) (micLevel st) (stickers st) (thought st) (memoryBank st)
    (aiCustomCss st) (visionType st) v (nextStartTime st) (sources st) (vadActive st)
    (sessionRef st) (awaiting st) (currentInputTranscription st)
    (currentOutputTranscription st) (nextSource st) (trace st).

Definition set_nextStartTime (v : Q) (st : AppState) : AppState :=
  mkApp (isActive st) (isConnecting st) (error st) (status st) (queuedStatus st)
    (statusRef st) (statusEffect st) (expression st) (customExpressions st) (boredom st)
    (queuedBoredom st) (micLevel st) (stickers st) (thought st) (memoryBank st)
    (aiCustomCss st) (visionType st) (noiseThreshold st) v (sources st) (vadActive st)
    (sessionRef st) (awaiting st) (currentInputTranscription st)
    (currentOutputTranscription st) (nextSource st) (trace st).

Definition set_sources (v : list SourceId) (st : AppState) : AppState :=
  mkApp (isActive st) (isConnecting st) (error st) (status st) (queuedStatus st)
    (statusRef st) (statusEffect st) (expression st) (customExpressions st) (boredom st)
    (queuedBoredom st) (micLevel st) (stickers st) (thought st) (memoryBank st)
    (aiCustomCss st) (visionType st) (noiseThreshold st) (nextStartTime st) v (vadActive st)
    (sessionRef st) (awaiting st) (currentInputTranscription st)
    (currentOutputTranscription st) (nextSource st) (trace st).

Definition set_vadActive (v : Z) (st : AppState) : AppState :=
  mkApp (isActive st) (isConnecting st) (error st) (status st) (queuedStatus st)
    (statusRef st) (statusEffect st) (expression st) (customExpressions st) (boredom st)
    (queuedBoredom st) (micLevel st) (stickers st) (thought st) (memoryBank st)
    (aiCustomCss st) (visionType st) (noiseThreshold st) (nextStartTime st) (sources st) v
    (sessionRef st) (awaiting st) (currentInputTranscription st)
    (currentOutputTranscription st) (nextSource st) (trace st).

Definition set_sessionRef (v : bool) (st : AppState) : AppState :=
  mkApp (isActive st) (isConnecting st) (error st) (status st) (queuedStatus st)
    (statusRef st) (statusEffect st) (expression st) (customExpressions st) (boredom st)
    (queuedBoredom st) (micLevel st) (stickers st) (thought st) (memoryBank st)
    (aiCustomCss st) (visionType st) (noiseThreshold st) (nextStartTime st) (sources st)
    (vadActive st) v (awaiting st) (currentInputTranscription st)
    (currentOutputTranscription st) (nextSource st) (trace st).

Definition set_awaiting (v : list Suspended) (st : AppState) : AppState :=
  mkApp (isActive st) (isConnecting st) (error st) (status st) (queuedStatus st)
    (statusRef st) (statusEffect st) (expression st) (customExpressions st) (boredom st)
    (queuedBoredom st) (micLevel st) (stickers st) (thought st) (memoryBank st)
    (aiCustomCss st) (visionType st) (noiseThreshold st) (nextStartTime st) (sources st)
    (vadActive st) (sessionRef st) v (currentInputTranscription st)
    (currentOutputTranscription st) (nextSource st) (trace st).

Definition set_currentInputTranscription (v : string) (st : AppState) : AppState :=
  mkApp (isActive st) (isConnecting st) (error st) (status st) (queuedStatus st)
    (statusRef st) (statusEffect st) (expression st) (customExpressions st) (boredom st)
    (queuedBoredom st) (micLevel st) (stickers st) (thought st) (memoryBank st)
    (aiCustomCss st) (visionType st) (noiseThreshold st) (nextStartTime st) (sources st)
    (vadActive st) (sessionRef st) (awaiting st) v (currentOutputTranscription st)
    (nextSource st) (trace st).

Definition set_currentOutputTranscription (v : string) (st : AppState) : AppState :=
  mkApp (isActive st) (isConnecting st) (error st) (status st) (queuedStatus st)
    (statusRef st) (statusEffect st) (expression st) (customExpressions st) (boredom st)
    (queuedBoredom st) (micLevel st) (stickers st) (thought st) (memoryBank st)
    (aiCustomCss st) (visionType st) (noiseThreshold st) (nextStartTime st) (sources st)
    (vadActive st) (sessionRef st) (awaiting st) (currentInputTranscription st) v
    (nextSource st) (trace st).

Definition set_nextSource (v : SourceId) (st : AppState) : AppState :=
  mkApp (isActive st) (isConnecting st) (error st) (status st) (queuedStatus st)
    (statusRef st) (statusEffect st) (expression st) (customExpressions st) (boredom st)
    (queuedBoredom st) (micLevel st) (stickers st) (thought st) (memoryBank st)
    (aiCustomCss st) (visionType st) (noiseThreshold st) (nextStartTime st) (sources st)
    (vadActive st) (sessionRef st) (awaiting st) (currentInputTranscription st)
    (currentOutputTranscription st) v (trace st).

Definition set_trace (v : list Effect) (st : AppState) : AppState :=
  mkApp (isActive st) (isConnecting st) (error st) (status st) (queuedStatus st)
    (statusRef st) (statusEffect st) (expression st) (customExpressions st) (boredom st)
    (queuedBoredom st) (micLevel st) (stickers st) (thought st) (memoryBank st)
    (aiCustomCss st) (visionType st) (noiseThreshold st) (nextStartTime st) (sources st)
    (vadActive st) (sessionRef st) (awaiting st) (currentInputTranscription st)
    (currentOutputTranscription st) (nextSource st) v.
(** [setStatus(s)]: queued until the next render. *)
Definition setStatus (s : Status) (st : AppState) : AppState := set_queuedStatus (Some s) st.

(** The value the [status] cell shows at the next render. *)
Definition upcomingStatus (st : AppState) : Status := default (status st) (queuedStatus st).

Definition applyBoredom (b : Z) (u : BoredomUpdate) : Z :=
  match u with
  | Reset => 0
  | Bump => Z.min 100 (b + 1)
  end.

(** The value the [boredom] cell shows at the next render. *)
Definition upcomingBoredom (st : AppState) : Z :=
  fold_left applyBoredom (queuedBoredom st) (boredom st).

Definition emit (e : Effect) (st : AppState) : AppState := set_trace (trace st ++ [e]) st.

(** [sessionRef.current?.sendRealtimeInput({ media })] *)
Definition sendRealtimeInput (media : Pcm.Blob) (st : AppState) : AppState :=
  if sessionRef st then emit (SendRealtimeInput media) st else st.

(** [sessionRef.current?.sendToolResponse({ functionResponses })] *)
Definition sendToolResponse (r : FunctionResponse) (st : AppState) : AppState :=
  if sessionRef st then emit (SendToolResponse r) st else st.

Definition stopAllAudio (st : AppState) : AppState :=
  let st := fold_left (fun st s => emit (SourceStop s) st) (sources st) st in
  let st := set_sources [] st in
  let st := set_nextStartTime 0 st in
  setStatus idle st.

Definition volume (inputData : list jsnum) : jsnum :=
  js_div_length (fold_left (fun a b => js_add a (js_abs b)) inputData (Num 0))
    (length inputData).

(** [scriptProcessor.onaudioprocess] *)
Definition onaudioprocess (inputData : list jsnum) (st : AppState) : AppState :=
  let volume := volume inputData in
  let st := set_micLevel volume st in
  if js_gt volume (noiseThreshold st) then
    let st := set_vadActive 5 st in
    let st := if Status_eqb (statusRef st) speaking then stopAllAudio st else st in
    let st := if Status_eqb (statusRef st) idle then setStatus listening st else st in
    sendRealtimeInput (Pcm.createBlob inputData) st
  else if 0 <? vadActive st then
    let st := set_vadActive (vadActive st - 1) st in
    sendRealtimeInput (Pcm.createBlob inputData) st
  else st.

Definition Set_add (src : SourceId) (l : list SourceId) : list SourceId :=
  if bool_decide (src ∈ l) then l else l ++ [src].

Definition Set_delete (src : SourceId) (l : list SourceId) : list SourceId :=
  List.filter (fun s => negb (Nat.eqb s src)) l.

(** [src.onended] *)
Definition onended (src : SourceId) (st : AppState) : AppState :=
  let st := set_sources (Set_delete src (sources st)) st in
  if (length (sources st) =? 0)%nat then setStatus idle st else st.

(** The scheduling of one decoded chunk, after [await decodeAudioData]. *)
Definition scheduleChunk (buf : Pcm.AudioBuffer) (currentTime : Q) (st : AppState) : AppState :=
  let st := setStatus speaking st in
  let st := set_nextStartTime (Qmax (nextStartTime st) currentTime) st in
  let src := nextSource st in
  let st := set_nextSource (S src) st in
  let st := emit (SourceStart src (nextStartTime st)) st in
  let st := set_nextStartTime (nextStartTime st + Pcm.duration buf) st in
  set_sources (Set_add src (sources st)) st.

Definition stopVision (st : AppState) : AppState := set_visionType None st.

(** [startVision], from the point where the awaited media request settles:
    the state, and the [message] of the object it returns ([None] when
    [startVision] itself rejects). *)
Definition startVision_settled (type : JsString) (outcome : MediaOutcome) (st : AppState)
    : AppState * option string :=
  match outcome with
  | Granted =>
      (set_visionType (Some (js_to_string type)) st,
       Some ("Vision Activated: " ++ js_to_string type)%string)
  | Refused errorMsg => (st, Some errorMsg)
  | RefusedNullish => (st, None)
  end.

Definition respond (fc : FunctionCall) (result : string) (st : AppState) : AppState :=
  sendToolResponse (mkResponse (fc_id fc) (fc_name fc) result) st.

(** How an iteration of the loop over the calls ends: it reaches the next
    iteration, an exception leaves [onmessage] (its promise is rejected and
    nothing more of it runs), or it stops at an [await] that has not settled. *)
Inductive Control : Type :=
| Continue
| Abort
| Await.

(** One iteration of [for (const fc of message.toolCall.functionCalls)], up
    to its end, the exception that leaves it, or its [await].  Reading a
    property of an absent [fc.args] raises a [TypeError]; only the body of
    [execute_javascript] is inside a [try]. *)
Definition handleFunctionCall (env : Env) (fc : FunctionCall) (st : AppState)
    : AppState * Control :=
  if String.eqb (fc_name fc) "set_expression" then
    match fc_args fc with
    | None => (st, Abort)
    | Some args =>
        let st := set_expression (js_to_string (args !! "expression"%string)) st in
        (respond fc "ok" st, Continue)
    end
  else if String.eqb (fc_name fc) "set_sticker" then
    match fc_args fc with
    | None => (st, Abort)
    | Some args =>
        let ns :=
          mkSticker (args !! "icon"%string)
            (if truthy (args !! "position"%string)
             then js_to_string (args !! "position"%string)
             else "top-right"%string)
            (dateNow env) in
        let st := set_stickers (stickers st ++ [ns]) st in
        (respond fc "ok" st, Continue)
    end
  else if String.eqb (fc_name fc) "display_thought" then
    match fc_args fc with
    | None => (st, Abort)
    | Some args =>
        let nt := mkThought (args !! "type"%string) (args !! "content"%string) (dateNow env) in
        let st := set_thought (Some nt) st in
        let st :=
          if is_str (thought_type nt) "image" || is_str (thought_type nt) "generated"
          then set_memoryBank (nt :: memoryBank st) st else st in
        (respond fc "ok" st, Continue)
    end
  else if String.eqb (fc_name fc) "execute_javascript" then
    match fc_args fc with
    | None => (respond fc ("Error: " ++ argsError env)%string st, Continue)
    | Some args =>
        match runFunction env (args !! "code"%string) with
        | Returned result =>
            (respond fc (default "Executed successfully"%string result) st, Continue)
        | Threw message => (respond fc ("Error: " ++ message)%string st, Continue)
        | ThrewNullish => (st, Abort)
        end
    end
  else if String.eqb (fc_name fc) "update_face_css" then
    match fc_args fc with
    | None => (st, Abort)
    | Some args =>
        let st := set_aiCustomCss (args !! "css"%string) st in
        (respond fc "CSS Applied" st, Continue)
    end
  else if String.eqb (fc_name fc) "toggle_vision" then
    match fc_args fc with
    | None => (st, Abort)
    | Some args =>
        if is_str (args !! "type"%string) "none" then
          let st := stopVision st in
          (respond fc "Vision Off" st, Continue)
        else
          (* [startVision(type)] calls [stopVision()] and awaits the media *)
          (stopVision st, Await)
    end
  else (respond fc "ok" st, Continue).

(** The loop over the calls, from [functionCalls] on.  At an [await] the rest
    of the call of [onmessage] is kept for later. *)
Fixpoint dispatchToolCall (env : Env) (message : LiveServerMessage)
    (functionCalls : list FunctionCall) (st : AppState) : AppState * Control :=
  match functionCalls with
  | [] => (st, Continue)
  | fc :: rest =>
      match handleFunctionCall env fc st with
      | (st, Continue) => dispatchToolCall env message rest st
      | (st, Abort) => (st, Abort)
      | (st, Await) => (set_awaiting (awaiting st ++ [mkSuspended fc rest message]) st, Await)
      end
  end.

(** [onmessage], after the loop over the calls: the chunk is decoded and
    scheduled, then the interruption is handled.  When [parts] is absent or
    decoding throws, nothing more of the handler runs. *)
Definition playAudio (env : Env) (message : LiveServerMessage) (st : AppState) : AppState :=
  let scheduled :=
    match modelTurn message with
    | NoTurn => Ok st
    | NoParts => Throw TypeError
    | Audio b64 =>
        if truthy b64 then
          let! bytes := Pcm.decode (js_to_string b64) in
          let! buf := Pcm.decodeAudioData bytes (outCtx env) 24000 1 in
          Ok (scheduleChunk buf (currentTime env) st)
        else Ok st
    end in
  match scheduled with
  | Throw _ => st
  | Ok st =>
      if interrupted message then
        let st := stopAllAudio st in
        set_expression "surprised" st
      else st
  end.

(** What follows the loop, if the loop came to its end. *)
Definition afterCalls (env : Env) (message : LiveServerMessage) (r : AppState * Control)
    : AppState :=
  match r with
  | (st, Continue) => playAudio env message st
  | (st, _) => st
  end.

(** [onmessage] *)
Definition onmessage (env : Env) (message : LiveServerMessage) (st : AppState) : AppState :=
  let st :=
    match outputTranscription message, inputTranscription message with
    | Some text, _ =>
        set_currentOutputTranscription (currentOutputTranscription st ++ text)%string st
    | None, Some text =>
        set_currentInputTranscription (currentInputTranscription st ++ text)%string st
    | None, None => st
    end in
  afterCalls env message
    match toolCall message with
    | Some (Some functionCalls) => dispatchToolCall env message functionCalls st
    | Some None => (st, Abort)
    | None => (st, Continue)
    end.

(** The media request awaited by the [k]-th suspended call of [onmessage]
    settles: [startVision] returns, the call is answered, and the rest of
    that call of [onmessage] runs. *)
Definition visionSettled (env : Env) (k : nat) (outcome : MediaOutcome) (st : AppState)
    : AppState :=
  match awaiting st !! k with
  | None => st
  | Some s =>
      let st := set_awaiting (delete k (awaiting st)) st in
      let type := fc_args (s_call s) ≫= (fun args => args !! "type"%string) in
      match startVision_settled type outcome st with
      | (st, Some message) =>
          let st := respond (s_call s) message st in
          afterCalls env (s_message s) (dispatchToolCall env (s_message s) (s_rest s) st)
      | (st, None) => st
      end
  end.

(** The interval callback installed by the boredom effect. *)
Definition boredomTick (st : AppState) : AppState :=
  if Status_eqb (statusRef st) idle then set_queuedBoredom (queuedBoredom st ++ [Bump]) st
  else st.

(** The effect on [[status]], run some time after a render that changed
    [status]: [statusRef.current = status; if (status !== 'idle') setBoredom(0)]. *)
Definition statusEffectRun (st : AppState) : AppState :=
  if statusEffect st then
    let st := set_statusRef (status st) st in
    let st :=
      if Status_eqb (status st) idle then st
      else set_queuedBoredom (queuedBoredom st ++ [Reset]) st in
    set_statusEffect false st
  else st.

(** A render.  React first runs the effects still due from the previous
    render, then applies the queued calls of [setStatus] and [setBoredom];
    the effect on [[status]] is due again when [status] has changed. *)
Definition render (st : AppState) : AppState :=
  let st := statusEffectRun st in
  let next := upcomingStatus st in
  let changed := negb (Status_eqb next (status st)) in
  let st := set_boredom (upcomingBoredom st) st in
  let st := set_queuedBoredom [] st in
  let st := set_status next st in
  let st := set_queuedStatus None st in
  if changed then set_statusEffect true st else st.

Definition onclose (st : AppState) : AppState :=
  let st := set_isActive false st in
  let st := set_isConnecting false st in
  let st := setStatus idle st in
  stopVision st.

Definition onerror (st : AppState) : AppState :=
  let st := set_error (Some "SIGNAL LOST."%string) st in
  let st := set_isActive false st in
  set_isConnecting false st.

(** [onopen], and the assignment of [sessionRef.current] that follows the
    connection. *)
Definition onopen (st : AppState) : AppState :=
  let st := set_isActive true st in
  let st := set_isConnecting false st in
  let st := set_expression "happy" st in
  set_sessionRef true st.

Definition saveCustomMood (mood : CustomExpression) (st : AppState) : AppState :=
  set_customExpressions (<[ name mood := mood ]> (customExpressions st)) st.

Definition setNoiseThreshold (t : Q) (st : AppState) : AppState := set_noiseThreshold t st.

(** Everything that can happen to the component. *)
Inductive Event : Type :=
| Connected                                         (* [onopen] *)
| AudioProcess (inputData : list jsnum)             (* a captured input frame *)
| ServerMessage (env : Env) (message : LiveServerMessage)
| VisionSettled (env : Env) (k : nat) (outcome : MediaOutcome)
    (* the media request of a suspended [onmessage] settles *)
| SourceEnded (src : SourceId)                      (* [ended] on a scheduled source *)
| BoredomTick                                       (* the 3500 ms interval *)
| Rendered                                          (* React renders the component *)
| EffectsRun                                        (* React runs the effects that are due *)
| SessionClosed
| SessionError
| ExpressionSet (e : string)    (* a touch or timer callback calling [setExpression] *)
| StickerExpired (id : Z)       (* the removal timer of a sticker *)
| ThoughtDismissed
| MoodSaved (mood : CustomExpression)
| ThresholdMoved (t : Q).

Definition step (st : AppState) (e : Event) : AppState :=
  match e with
  | Connected => onopen st
  | AudioProcess inputData => onaudioprocess inputData st
  | ServerMessage env message => onmessage env message st
  | VisionSettled env k outcome => visionSettled env k outcome st
  | SourceEnded src => onended src st
  | BoredomTick => boredomTick st
  | Rendered => render st
  | EffectsRun => statusEffectRun st
  | SessionClosed => onclose st
  | SessionError => onerror st
  | ExpressionSet e => set_expression e st
  | StickerExpired id =>
      set_stickers (List.filter (fun s => negb (sticker_id s =? id)) (stickers st)) st
  | ThoughtDismissed => set_thought None st
  | MoodSaved mood => saveCustomMood mood st
  | ThresholdMoved t => setNoiseThreshold t st
  end.

(** The state at mount; the registry and the threshold come from storage. *)
Definition initial (moods : gmap string CustomExpression) (threshold : Q) : AppState :=
  mkApp false false None idle None idle false "neutral" moods 0 [] (Num 0) [] None [] None
    None threshold 0 [] 0 false [] "" "" 0%nat [].

Definition run (moods : gmap string CustomExpression) (threshold : Q) (events : list Event)
    : AppState :=
  fold_left step events (initial moods threshold).

(** The blobs forwarded to the session, oldest first. *)
Definition forwarded (t : list Effect) : list Pcm.Blob :=
  flat_map (fun e => match e with SendRealtimeInput m => [m] | _ => [] end) t.

(** The tool results sent to the session, oldest first. *)
Definition toolResponses (t : list Effect) : list FunctionResponse :=
  flat_map (fun e => match e with SendToolResponse r => [r] | _ => [] end) t.

(** The start times handed to [src.start], oldest first. *)
Definition startTimes (t : list Effect) : list Q :=
  flat_map (fun e => match e with SourceStart _ w => [w] | _ => [] end) t.

End App.
(** ** Vocabulary of the statements *)

Import App.

(** Ranges of the codec's integers. *)
Definition is_sextet (n : Z) : Prop := 0 <= n < 64.

Definition is_octet (n : Z) : Prop := 0 <= n < 256.

(** The checks made on each of the 64 characters of the alphabet. *)
Definition b64_char_ok (n : Z) : bool :=
  match Pcm.b64_index (Pcm.b64_char n) with
  | Some m => m =? n
  | None => false
  end
  && negb (Pcm.is_ascii_whitespace (Pcm.b64_char n))
  && negb (Ascii.eqb (Pcm.b64_char n) "=").

(** The number of 6-bit groups, by the length of the input modulo three. *)
Inductive shape : nat -> nat -> Prop :=
| shape0 k : shape (3 * k) (4 * k)
| shape1 k : shape (3 * k + 1) (4 * k + 2)
| shape2 k : shape (3 * k + 2) (4 * k + 3).

Definition is_int16 (v : Z) : Prop := -32768 <= v < 32768.

(** [dataInt16.length / numChannels] *)
Definition frameCount (cells channels : nat) : Q :=
  (inject_Z (Z.of_nat cells) / inject_Z (Z.of_nat channels))%Q.

(** The samples of one channel of the decoded buffer. *)
Definition channel_samples (cells : list Z) (numChannels channel frames : nat)
    : list jsnum :=
  map (fun i => Pcm.read_scaled cells (i * numChannels + channel)) (seq 0 frames).

(** Encoding with [createBlob], transport as base64, decoding with [decode]
    and [decodeAudioData] on one channel. *)
Definition wire_round_trip (ctx : Pcm.AudioContext) (samples : list jsnum) (rate : Q)
    : JsResult Pcm.AudioBuffer :=
  let! bytes := Pcm.decode (Pcm.data (Pcm.createBlob samples)) in
  Pcm.decodeAudioData bytes ctx rate 1.

(** The decoded buffer holds one channel that reproduces [samples] within
    [eps]. *)
Definition reproduces (eps : Q) (samples : list Q) (out : JsResult Pcm.AudioBuffer) : Prop :=
  exists rate recon,
    out = Ok (Pcm.mkAudioBuffer rate [map Num recon])
    /\ Forall2 (fun x r => (Qabs (r - x) <= eps)%Q) samples recon.

(** The 16-bit integer [createBlob] stores for a sample. *)
Definition quantize (x : Q) : Z := ToInt16 (js_mul (Num x) 32768).

(** The cells behind the boredom invariant. *)
Definition cells (st : AppState) :=
  (status st, statusRef st, statusEffect st, boredom st, queuedBoredom st).

(** The cells no tool call touches. *)
Definition audio_core (st : AppState) :=
  (status st, queuedStatus st, statusRef st, statusEffect st, boredom st, queuedBoredom st,
   nextStartTime st, sources st, vadActive st, sessionRef st, noiseThreshold st,
   nextSource st, customExpressions st).

(** The tools whose handler reads a property of [fc.args] outside a [try]. *)
Definition reads_args (name : string) : bool :=
  String.eqb name "set_expression" || String.eqb name "set_sticker"
  || String.eqb name "display_thought" || String.eqb name "update_face_css"
  || String.eqb name "toggle_vision".

(** How [handleFunctionCall] ends on a call, and the result text it answers
    with, if it answers. *)
Definition verdict (env : Env) (fc : FunctionCall) : Control * option string :=
  match fc_args fc with
  | None =>
      if reads_args (fc_name fc) then (Abort, None)
      else if String.eqb (fc_name fc) "execute_javascript"
           then (Continue, Some ("Error: " ++ argsError env)%string)
           else (Continue, Some "ok"%string)
  | Some args =>
      if String.eqb (fc_name fc) "execute_javascript" then
        match runFunction env (args !! "code"%string) with
        | Returned result => (Continue, Some (default "Executed successfully"%string result))
        | Threw message => (Continue, Some ("Error: " ++ message)%string)
        | ThrewNullish => (Abort, None)
        end
      else if String.eqb (fc_name fc) "update_face_css" then (Continue, Some "CSS Applied"%string)
      else if String.eqb (fc_name fc) "toggle_vision" then
        if is_str (args !! "type"%string) "none" then (Continue, Some "Vision Off"%string)
        else (Await, None)
      else (Continue, Some "ok"%string)
  end.

(** The answer to a call, as the session receives it. *)
Definition reply (env : Env) (fc : FunctionCall) : list FunctionResponse :=
  match snd (verdict env fc) with
  | Some text => [mkResponse (fc_id fc) (fc_name fc) text]
  | None => []
  end.

(** The answers to a batch: the loop stops at the first call that does not
    reach the next iteration. *)
Fixpoint replies (env : Env) (calls : list FunctionCall) : list FunctionResponse :=
  match calls with
  | [] => []
  | fc :: rest =>
      reply env fc
        ++ match fst (verdict env fc) with
           | Continue => replies env rest
           | _ => []
           end
  end.

(** Whether every call of a batch reaches the next iteration. *)
Definition completes (env : Env) (calls : list FunctionCall) : bool :=
  forallb (fun fc => match fst (verdict env fc) with Continue => true | _ => false end) calls.

(** Whether the gate takes a frame for speech. *)
Definition active (st : AppState) (inputData : list jsnum) : bool :=
  js_gt (volume inputData) (noiseThreshold st).

(** [onmessage], cut at its three stages: transcripts, tool calls, audio. *)
Definition transcribe (message : LiveServerMessage) (st : AppState) : AppState :=
  match outputTranscription message, inputTranscription message with
  | Some text, _ =>
      set_currentOutputTranscription (currentOutputTranscription st ++ text)%string st
  | None, Some text =>
      set_currentInputTranscription (currentInputTranscription st ++ text)%string st
  | None, None => st
  end.

(** [onmessage] up to the end of the loop over the calls. *)
Definition afterTools (env : Env) (message : LiveServerMessage) (st : AppState)
    : AppState * Control :=
  match toolCall message with
  | Some (Some functionCalls) =>
      dispatchToolCall env message functionCalls (transcribe message st)
  | Some None => (transcribe message st, Abort)
  | None => (transcribe message st, Continue)
  end.

(** What a call of [onmessage], or the rest of one, does to the playback:
    nothing, or a chunk is scheduled, or the audio is stopped, or both. *)
Inductive message_outcome (env : Env) (st2 : AppState) : AppState -> Prop :=
| outcome_plain : message_outcome env st2 st2
| outcome_scheduled buf :
    message_outcome env st2 (scheduleChunk buf (currentTime env) st2)
| outcome_interrupted :
    message_outcome env st2 (set_expression "surprised" (stopAllAudio st2))
| outcome_scheduled_interrupted buf :
    message_outcome env st2
      (set_expression "surprised" (stopAllAudio (scheduleChunk buf (currentTime env) st2))).

(** A call of [onmessage], or the rest of one, seen from the playback: the
    calls leave the audio alone and send answers, then comes the audio. *)
Definition handled (st st' : AppState) : Prop :=
  exists env st2 sent,
    audio_core st2 = audio_core st
    /\ trace st2 = trace st ++ map SendToolResponse sent
    /\ message_outcome env st2 st'.

(** What the status effect and the boredom interval maintain: [boredom] and
    what is queued for it stay in range; once the effect has run, [statusRef]
    is [status], and unless that is [idle] the next render shows no boredom. *)
Definition boredom_invariant (st : AppState) : Prop :=
  0 <= boredom st <= 100
  /\ 0 <= upcomingBoredom st <= 100
  /\ (statusEffect st = false -> statusRef st = status st)
  /\ (statusEffect st = false -> status st <> idle -> upcomingBoredom st = 0).

(** The number of [setBoredom(prev => Math.min(100, prev + 1))] calls queued. *)
Definition bumps (st : AppState) : nat :=
  length (List.filter (fun u => match u with Bump => true | Reset => false end)
            (queuedBoredom st)).

(** The sources the audio graph was asked to start, and to stop, oldest first. *)
Definition startedSources (t : list Effect) : list SourceId :=
  flat_map (fun e => match e with SourceStart s _ => [s] | _ => [] end) t.

Definition stoppedSources (t : list Effect) : list SourceId :=
  flat_map (fun e => match e with SourceStop s => [s] | _ => [] end) t.

(** The sources whose [ended] event has been delivered. *)
Definition endedSources (events : list Event) : list SourceId :=
  flat_map (fun e => match e with SourceEnded s => [s] | _ => [] end) events.

(** The browser delivers [ended] only for a source that has been started. *)
Fixpoint ended_after_start (st : AppState) (events : list Event) : bool :=
  match events with
  | [] => true
  | e :: rest =>
      match e with
      | SourceEnded s => bool_decide (s ∈ startedSources (trace st))
      | _ => true
      end
      && ended_after_start (step st e) rest
  end.

(** What the bookkeeping of the scheduler is about. *)
Definition playback_view (st : AppState) :=
  (sources st, nextSource st, startedSources (trace st), stoppedSources (trace st)).

(** The pending set holds the sources that were started and have neither been
    stopped nor ended; no handle is used twice. *)
Definition playback_invariant (ended : list SourceId) (st : AppState) : Prop :=
  NoDup (sources st)
  /\ NoDup (stoppedSources (trace st))
  /\ Forall (fun s => (s < nextSource st)%nat) (startedSources (trace st))
  /\ (forall s, s ∈ stoppedSources (trace st) -> s ∈ startedSources (trace st))
  /\ (forall s, s ∈ ended -> s ∈ startedSources (trace st))
  /\ (forall s, s ∈ sources st <->
         s ∈ startedSources (trace st) /\ (s ∉ stoppedSources (trace st)) /\ (s ∉ ended)).

(** How a step other than the end of a source changes the playback: not at
    all, or a chunk is scheduled, or the audio is stopped, or both. *)
Inductive view_change (st : AppState) : AppState -> Prop :=
| view_same st' : playback_view st' = playback_view st -> view_change st st'
| view_scheduled st2 buf now st' :
    playback_view st2 = playback_view st ->
    playback_view st' = playback_view (scheduleChunk buf now st2) ->
    view_change st st'
| view_stopped st2 st' :
    playback_view st2 = playback_view st ->
    playback_view st' = playback_view (stopAllAudio st2) ->
    view_change st st'
| view_scheduled_stopped st2 buf now st' :
    playback_view st2 = playback_view st ->
    playback_view st' = playback_view (stopAllAudio (scheduleChunk buf now st2)) ->
    view_change st st'.

(** A sample whose magnitude is above the threshold. *)
Definition loud (t : Q) (x : jsnum) : Prop := exists q, x = Num q /\ (t < Qabs q)%Q.



(** A run of captured frames. *)
Definition frames (l : list (list jsnum)) (st : AppState) : AppState :=
  fold_left (fun st inputData => onaudioprocess inputData st) l st.


(** How [status] leaves [idle]: a chunk is scheduled, or the gate hears the user. *)
Definition departure (st : AppState) (e : Event) : Prop :=
  (exists s,
      ((exists env message, e = ServerMessage env message)
       \/ (exists env k outcome, e = VisionSettled env k outcome))
      /\ upcomingStatus (step st e) = speaking
      /\ startTimes (trace (step st e)) = startTimes (trace st) ++ [s])
  \/ (exists inputData,
        e = AudioProcess inputData
        /\ active st inputData = true
        /\ upcomingStatus (step st e) = listening).

(** The shape [EmoEye] draws when no [case] of its [switch] applies. *)
Definition eye_unswitched (state : Status) (blink : bool) : EyeShape :=
  let d := eye_default blink false in
  if Status_eqb state listening
  then mkEye (eye_width d + 10) (eye_height d + 4) (eye_borderRadius d) (eye_rotate d)
         (eye_scaleY d) (eye_translateY d)
  else d.

(** ** Concrete inputs *)

(** A context with the limits every browser accepts. *)
Definition browser_ctx : Pcm.AudioContext :=
  Pcm.mkContext (fun c => (1 <=? c)%nat && (c <=? 32)%nat)
    (fun r => Qle_bool 8000 r && Qle_bool r 96000).

(** One sample of silence as the service sends it: two zero bytes. *)
Definition silence_b64 : string := "AAA=".

(** A browser whose clock stands at zero and where running code throws. *)
Definition quiet_env : Env :=
  mkEnv browser_ctx 0 0 (fun _ => Threw "boom") "fc.args is undefined".

(** A server message carrying one audio chunk. *)
Definition audio_message : LiveServerMessage :=
  mkMessage None None None (Audio (Some silence_b64)) false.

(** Two captured frames, one loud and one silent. *)
Definition loud_frame : list jsnum := [Num 1; Num (-1)].

Definition still_frame : list jsnum := [Num 0; Num 0].

(** The session is open and one chunk has been scheduled and rendered; the
    effect on [[status]] has not run yet. *)
Definition rendered_events : list Event :=
  [Connected; ServerMessage quiet_env audio_message; Rendered].

(** The same, once the effect has run. *)
Definition speaking_events : list Event := rendered_events ++ [EffectsRun].

(** Two chunks have been scheduled, and the first one has ended. *)
Definition two_chunks : list Event :=
  [Connected; ServerMessage quiet_env audio_message; ServerMessage quiet_env audio_message;
   Rendered; EffectsRun; SourceEnded 0%nat].

(** A buffer of one frame at 1 Hz: one second of audio. *)
Definition one_frame : Pcm.AudioBuffer := Pcm.mkAudioBuffer 1 [[Num 0]].



(** A browser where the code that is run throws [null]. *)
Definition null_env : Env :=
  mkEnv browser_ctx 0 0 (fun _ => ThrewNullish) "fc.args is undefined".

(** A batch whose second call runs code that throws [null]. *)
Definition lost_calls : list FunctionCall :=
  [mkCall "call-1" "set_expression" (Some {[ "expression"%string := "happy"%string ]});
   mkCall "call-2" "execute_javascript" (Some {[ "code"%string := "throw null"%string ]});
   mkCall "call-3" "dance" (Some ∅)].

Definition lost_message : LiveServerMessage :=
  mkMessage None None (Some (Some lost_calls)) NoTurn false.

(** A batch whose first call comes without arguments. *)
Definition bare_calls : list FunctionCall :=
  [mkCall "call-1" "set_expression" None; mkCall "call-2" "dance" (Some ∅)].

Definition bare_message : LiveServerMessage :=
  mkMessage None None (Some (Some bare_calls)) NoTurn false.

(** The interval ticks once while nothing happens, then the session opens and
    a loud frame is captured and rendered. *)
Definition bored_events : list Event :=
  [BoredomTick; Rendered; Connected; AudioProcess loud_frame; Rendered].

(** ** More of [index.tsx]: the mood lab and the queued player *)

(** The chunk a server message carries, decoded as [onmessage] decodes it:
    [Ok None] when there is none, an exception when [parts] is absent or the
    data does not decode. *)
Definition chunk (env : Env) (message : LiveServerMessage)
    : JsResult (option Pcm.AudioBuffer) :=
  match modelTurn message with
  | NoTurn => Ok None
  | NoParts => Throw TypeError
  | Audio b64 =>
      if truthy b64 then
        let! bytes := Pcm.decode (js_to_string b64) in
        let! buf := Pcm.decodeAudioData bytes (outCtx env) 24000 1 in
        Ok (Some buf)
      else Ok None
  end.

(** A thought the memory bank keeps. *)
Definition remembered (t : ThoughtData) : bool :=
  is_str (thought_type t) "image" || is_str (thought_type t) "generated".

(** [MoodLab] (index.tsx 604-645): the name field, the two selects and the
    STORE MOOD button. *)
Module Lab.

(** [String.prototype.toLowerCase] on a code unit below 256: the letters
    [A]-[Z], and the capital letters of Latin-1 (all of U+00C0-U+00DE but the
    multiplication sign). *)
Definition toLowerCase_unit (c : ascii) : ascii :=
  let n := nat_of_ascii c in
  if ((65 <=? n) && (n <=? 90) || (192 <=? n) && (n <=? 222) && negb (n =? 215))%nat
  then ascii_of_nat (n + 32) else c.

Definition toLowerCase (s : list ascii) : list ascii := map toLowerCase_unit s.

(** The class [[a-z0-9]] *)
Definition is_lower_or_digit (c : ascii) : bool :=
  let n := nat_of_ascii c in
  ((97 <=? n) && (n <=? 122) || (48 <=? n) && (n <=? 57))%nat.

(** [value.toLowerCase().replace(/[^a-z0-9]/g, '')] *)
Definition clean (value : string) : string :=
  string_of_list_ascii
    (List.filter is_lower_or_digit (toLowerCase (list_ascii_of_string value))).

Record LabState : Type := mkLab {
  lab_name : string;
  lab_eye : string;
  lab_mouth : string
}.

(** [useState('')], [useState('neutral')], [useState('neutral')] *)
Definition opened : LabState := mkLab "" "neutral" "neutral".

(** The options of both selects. *)
Definition bases : list string :=
  ["neutral"; "happy"; "surprised"; "angry"; "curious"; "sleepy"; "wink";
   "skeptical"; "sad"; "excited"; "thinking"; "annoyed"; "thoughtful"; "yawn";
   "distracted"]%string.

Inductive LabEvent : Type :=
| NameChanged (value : string)   (* [onChange] of the name field *)
| EyeChosen (option_index : nat) (* [onChange] of the first select *)
| MouthChosen (option_index : nat).

Definition lab_step (st : LabState) (e : LabEvent) : LabState :=
  match e with
  | NameChanged value => mkLab (clean value) (lab_eye st) (lab_mouth st)
  | EyeChosen k =>
      match bases !! k with
      | Some b => mkLab (lab_name st) b (lab_mouth st)
      | None => st
      end
  | MouthChosen k =>
      match bases !! k with
      | Some b => mkLab (lab_name st) (lab_eye st) b
      | None => st
      end
  end.

(** The click on STORE MOOD: the argument of [onSave], or [None] when the
    name is empty and the alert is shown instead. *)
Definition store (st : LabState) : option CustomExpression :=
  if String.eqb (lab_name st) "" then None
  else Some (mkCustom (lab_name st) (lab_eye st) (lab_mouth st)).

End Lab.

(** The player of the third variant (index.tsx 2340-2370 and 2477-2488):
    decoded chunks wait in [audioQueueRef] and are played one after the
    other, each started by the [ended] event of the one before. *)
Module Queue.

Record Player : Type := mkPlayer {
  audioQueue : list Pcm.AudioBuffer;   (* [audioQueueRef.current] *)
  isPlaying : bool;                    (* [isPlayingRef.current] *)
  asked : Status;                      (* the last argument of [setStatus] *)
  playing : list Pcm.AudioBuffer;      (* the sources started and not yet ended *)
  started : list Pcm.AudioBuffer       (* every buffer handed to [src.start], oldest first *)
}.

Definition mounted : Player := mkPlayer [] false idle [] [].

(** [playNext] *)
Definition playNext (p : Player) : Player :=
  match audioQueue p with
  | [] => mkPlayer [] false idle (playing p) (started p)
  | buf :: rest => mkPlayer rest true speaking (playing p ++ [buf]) (started p ++ [buf])
  end.

(** [onaudio], from the point where the chunk has been decoded. *)
Definition onaudio (buffer : Pcm.AudioBuffer) (p : Player) : Player :=
  let p := mkPlayer (audioQueue p ++ [buffer]) (isPlaying p) (asked p) (playing p) (started p) in
  if isPlaying p then p else playNext p.

(** [src.onended = playNext], for the [k]-th of the sources that play. *)
Definition sourceEnded (k : nat) (p : Player) : Player :=
  match playing p !! k with
  | None => p
  | Some _ =>
      playNext (mkPlayer (audioQueue p) (isPlaying p) (asked p) (delete k (playing p))
                  (started p))
  end.

(** The frame handler on a frame whose root mean square is above the
    threshold, the session being open; [rendered] is the [status] of the
    render in which the handler was created. *)
Definition onloud (rendered : Status) (p : Player) : Player :=
  mkPlayer [] false (if Status_eqb rendered listening then asked p else listening)
    (playing p) (started p).

Inductive PlayerEvent : Type :=
| Decoded (buffer : Pcm.AudioBuffer)
| Ended (k : nat)
| Loud (rendered : Status).

Definition player_step (p : Player) (e : PlayerEvent) : Player :=
  match e with
  | Decoded buffer => onaudio buffer p
  | Ended k => sourceEnded k p
  | Loud rendered => onloud rendered p
  end.

(** The buffers that arrived, oldest first. *)
Definition arrived (events : list PlayerEvent) : list Pcm.AudioBuffer :=
  flat_map (fun e => match e with Decoded b => [b] | _ => [] end) events.

(** No frame was loud. *)
Definition undisturbed (events : list PlayerEvent) : bool :=
  forallb (fun e => match e with Loud _ => false | _ => true end) events.

End Queue.

(** A batch whose second call asks for the camera. *)
Definition vision_calls : list FunctionCall :=
  [mkCall "call-1" "set_expression" (Some {[ "expression"%string := "happy"%string ]});
   mkCall "call-2" "toggle_vision" (Some {[ "type"%string := "camera"%string ]});
   mkCall "call-3" "dance" (Some ∅)].

Definition vision_message : LiveServerMessage :=
  mkMessage None None (Some (Some vision_calls)) NoTurn false.

(** A message that interrupts and whose turn has no [parts]. *)
Definition broken_message : LiveServerMessage :=
  mkMessage None None None NoParts true.

(** A message that interrupts and carries a chunk. *)
Definition interrupting_message : LiveServerMessage :=
  mkMessage None None None (Audio (Some silence_b64)) true.

(** A mood made in the lab. *)
Definition lab_events : list Lab.LabEvent :=
  [Lab.NameChanged "Grumpy Cat 2"; Lab.EyeChosen 3; Lab.MouthChosen 8].

(** A batch that puts a sticker on the face. *)
Definition sticker_call : FunctionCall :=
  mkCall "call-1" "set_sticker" (Some {[ "icon"%string := "star"%string ]}).

(** What a step may do to the memory bank: put remembered thoughts in front. *)
Definition bank_grows (st st' : AppState) : Prop :=
  exists new,
    memoryBank st' = new ++ memoryBank st
    /\ Forall (fun t => remembered t = true) new.

(** A batch that shows an image and then a text. *)
Definition thought_calls : list FunctionCall :=
  [mkCall "call-1" "display_thought"
     (Some {[ "type"%string := "image"%string; "content"%string := "cat.png"%string ]});
   mkCall "call-2" "display_thought"
     (Some {[ "type"%string := "text"%string; "content"%string := "hello"%string ]})].

Definition thought_message : LiveServerMessage :=
  mkMessage None None (Some (Some thought_calls)) NoTurn false.

(** * Proofs *)

(** ** Bytes and base64 *)

Section Bytes.

Lemma byte_to_Z_range (b : byte) : 0 <= byte_to_Z b < 256.
Proof.
  unfold byte_to_Z. pose proof (Byte.to_N_bounded b). lia.
Qed.

Lemma byte_to_Z_of_Z (z : Z) : byte_to_Z (byte_of_Z z) = z mod 256.
Proof.
  unfold byte_to_Z, byte_of_Z.
  assert (Hr : 0 <= z mod 256 < 256) by (apply Z.mod_pos_bound; lia).
  destruct (Byte.of_N (Z.to_N (z mod 256))) as [b|] eqn:E.
  - apply Byte.to_of_N in E. rewrite E. lia.
  - apply Byte.of_N_None_iff in E. lia.
Qed.

Lemma byte_of_Z_to_Z (b : byte) : byte_of_Z (byte_to_Z b) = b.
Proof.
  unfold byte_to_Z, byte_of_Z.
  pose proof (Byte.to_N_bounded b) as Hb.
  rewrite Z.mod_small by lia. rewrite N2Z.id. now rewrite Byte.of_to_N.
Qed.

Lemma char_code_range (c : ascii) : 0 <= Pcm.char_code c < 256.
Proof.
  unfold Pcm.char_code. pose proof (N_ascii_bounded c). lia.
Qed.

Lemma fromCharCode_char_code (c : ascii) : Pcm.fromCharCode (Pcm.char_code c) = c.
Proof.
  unfold Pcm.fromCharCode, Pcm.char_code. rewrite N2Z.id. apply ascii_N_embedding.
Qed.

Lemma char_code_of_byte (b : byte) : Pcm.char_code (ascii_of_byte b) = byte_to_Z b.
Proof.
  unfold Pcm.char_code, byte_to_Z. rewrite ascii_of_byte_via_N.
  rewrite N_ascii_embedding; [reflexivity|].
  pose proof (Byte.to_N_bounded b). lia.
Qed.

End Bytes.

Section Base64.

Lemma list_ind3 {A : Type} (P : list A -> Prop) :
  P [] -> (forall a, P [a]) -> (forall a b, P [a; b]) ->
  (forall a b c l, P l -> P (a :: b :: c :: l)) ->
  forall l, P l.
Proof.
  intros H0 H1 H2 H3.
  fix IH 1. intros [|a [|b [|c l]]]; [exact H0 | apply H1 | apply H2 | apply H3, IH].
Qed.

Lemma sextets_range codes :
  Forall is_octet codes -> Forall is_sextet (Pcm.sextets codes).
Proof.
  induction codes as [|a|a b|a b c l IH] using list_ind3; intros H; simpl.
  - constructor.
  - inversion_clear H as [|? ? Ha _]. unfold is_octet, is_sextet in *.
    repeat constructor; Z.div_mod_to_equations; lia.
  - inversion_clear H as [|? ? Ha H']. inversion_clear H' as [|? ? Hb _].
    unfold is_octet, is_sextet in *.
    repeat constructor; Z.div_mod_to_equations; lia.
  - inversion_clear H as [|? ? Ha H']. inversion_clear H' as [|? ? Hb H''].
    inversion_clear H'' as [|? ? Hc Hl].
    repeat (constructor; [unfold is_octet, is_sextet in *; Z.div_mod_to_equations; lia|]).
    auto.
Qed.

Lemma unsextets_sextets codes :
  Forall is_octet codes -> Pcm.unsextets (Pcm.sextets codes) = codes.
Proof.
  induction codes as [|a|a b|a b c l IH] using list_ind3; intros H.
  - reflexivity.
  - inversion_clear H as [|? ? Ha _]. unfold is_octet in *. simpl.
    f_equal. Z.div_mod_to_equations; lia.
  - inversion_clear H as [|? ? Ha H']. inversion_clear H' as [|? ? Hb _].
    unfold is_octet in *. simpl.
    f_equal; [|f_equal]; Z.div_mod_to_equations; lia.
  - inversion_clear H as [|? ? Ha H']. inversion_clear H' as [|? ? Hb H''].
    inversion_clear H'' as [|? ? Hc Hl].
    unfold is_octet in *.
    change (Pcm.sextets (a :: b :: c :: l)) with
      (a / 4 :: (a mod 4) * 16 + b / 16 :: (b mod 16) * 4 + c / 64 :: c mod 64
        :: Pcm.sextets l).
    cbn [Pcm.unsextets]. rewrite IH by assumption.
    f_equal; [|f_equal; [|f_equal]]; Z.div_mod_to_equations; lia.
Qed.

Lemma b64_char_ok_all n : is_sextet n -> b64_char_ok n = true.
Proof.
  intros [Hlo Hhi].
  assert (Hall : forallb (fun k => b64_char_ok (Z.of_nat k)) (seq 0 64) = true)
    by (vm_compute; reflexivity).
  rewrite forallb_forall in Hall.
  specialize (Hall (Z.to_nat n)).
  rewrite Z2Nat.id in Hall by lia.
  apply Hall, in_seq. lia.
Qed.

Lemma b64_index_char n : is_sextet n -> Pcm.b64_index (Pcm.b64_char n) = Some n.
Proof.
  intros H. apply b64_char_ok_all in H. unfold b64_char_ok in H.
  apply andb_prop in H as [H _]. apply andb_prop in H as [H _].
  destruct (Pcm.b64_index (Pcm.b64_char n)) as [m|]; [|discriminate].
  apply Z.eqb_eq in H. now subst.
Qed.

Lemma b64_char_not_whitespace n :
  is_sextet n -> Pcm.is_ascii_whitespace (Pcm.b64_char n) = false.
Proof.
  intros H. apply b64_char_ok_all in H. unfold b64_char_ok in H.
  apply andb_prop in H as [H _]. apply andb_prop in H as [_ H].
  now apply negb_true_iff in H.
Qed.

Lemma b64_char_not_pad n : is_sextet n -> Ascii.eqb (Pcm.b64_char n) "=" = false.
Proof.
  intros H. apply b64_char_ok_all in H. unfold b64_char_ok in H.
  apply andb_prop in H as [_ H]. now apply negb_true_iff in H.
Qed.

Lemma indices_chars sx :
  Forall is_sextet sx -> Pcm.indices (map Pcm.b64_char sx) = Some sx.
Proof.
  induction 1 as [|n sx Hn _ IH]; simpl; [reflexivity|].
  now rewrite b64_index_char, IH.
Qed.

Lemma filter_chars sx :
  Forall is_sextet sx ->
  List.filter (fun c => negb (Pcm.is_ascii_whitespace c)) (map Pcm.b64_char sx)
  = map Pcm.b64_char sx.
Proof.
  induction 1 as [|n sx Hn _ IH]; simpl; [reflexivity|].
  now rewrite b64_char_not_whitespace, IH.
Qed.

Lemma sextets_shape (codes : list Z) : shape (length codes) (length (Pcm.sextets codes)).
Proof.
  induction codes as [|a|a b|a b c l IH] using list_ind3.
  - apply (shape0 0).
  - apply (shape1 0).
  - apply (shape2 0).
  - change (length (a :: b :: c :: l)) with (S (S (S (length l)))).
    change (length (Pcm.sextets (a :: b :: c :: l)))
      with (S (S (S (S (length (Pcm.sextets l)))))).
    destruct IH as [k|k|k].
    + replace (S (S (S (3 * k))))%nat with (3 * S k)%nat by lia.
      replace (S (S (S (S (4 * k)))))%nat with (4 * S k)%nat by lia. constructor.
    + replace (S (S (S (3 * k + 1))))%nat with (3 * S k + 1)%nat by lia.
      replace (S (S (S (S (4 * k + 2)))))%nat with (4 * S k + 2)%nat by lia. constructor.
    + replace (S (S (S (3 * k + 2))))%nat with (3 * S k + 2)%nat by lia.
      replace (S (S (S (S (4 * k + 3)))))%nat with (4 * S k + 3)%nat by lia. constructor.
Qed.

Lemma shape_mod n m :
  shape n m ->
  (n mod 3 = 0 /\ m mod 4 = 0 \/ n mod 3 = 1 /\ m mod 4 = 2 \/ n mod 3 = 2 /\ m mod 4 = 3)%nat.
Proof.
  intros [k|k|k].
  - left. split; rewrite Nat.mul_comm; apply Nat.Div0.mod_mul.
  - right; left.
    split; rewrite Nat.add_comm, Nat.mul_comm, Nat.Div0.mod_add; reflexivity.
  - right; right.
    split; rewrite Nat.add_comm, Nat.mul_comm, Nat.Div0.mod_add; reflexivity.
Qed.

Lemma strip_padding_none (body : list ascii) :
  (length body mod 4 <> 0)%nat -> Pcm.strip_padding body = body.
Proof.
  intros H. unfold Pcm.strip_padding.
  destruct (Nat.eqb_spec (length body mod 4) 0); [contradiction|reflexivity].
Qed.

Lemma strip_padding_chars (sx : list Z) (pad : list ascii) :
  Forall is_sextet sx ->
  pad = [] \/ (sx <> [] /\ (pad = ["="%char] \/ pad = ["="%char; "="%char])) ->
  (length (map Pcm.b64_char sx ++ pad) mod 4 = 0)%nat ->
  Pcm.strip_padding (map Pcm.b64_char sx ++ pad) = map Pcm.b64_char sx.
Proof.
  intros Hsx Hpad Hlen. unfold Pcm.strip_padding. rewrite Hlen. simpl.
  rewrite rev_app_distr.
  destruct (rev sx) as [|z zs] eqn:Hrev.
  - assert (sx = []) as -> by (rewrite <- (rev_involutive sx), Hrev; reflexivity).
    destruct Hpad as [->|[Hne _]]; [reflexivity|contradiction].
  - assert (Hz : is_sextet z).
    { rewrite List.Forall_forall in Hsx. apply Hsx, in_rev. rewrite Hrev. now left. }
    assert (Hbody : map Pcm.b64_char sx = rev (Pcm.b64_char z :: map Pcm.b64_char zs)).
    { rewrite <- (rev_involutive sx), Hrev. rewrite map_rev. reflexivity. }
    rewrite <- map_rev, Hrev. cbn [map].
    cbn [rev] in Hbody.
    destruct Hpad as [->|[_ [->| ->]]]; cbn [rev app].
    + rewrite app_nil_r.
      destruct (map Pcm.b64_char zs); rewrite (b64_char_not_pad z Hz); reflexivity.
    + rewrite Ascii.eqb_refl, (b64_char_not_pad z Hz). now rewrite Hbody.
    + rewrite !Ascii.eqb_refl. now rewrite Hbody.
Qed.

Lemma atob_btoa (s : string) : Pcm.atob (Pcm.btoa s) = Ok s.
Proof.
  unfold Pcm.atob, Pcm.btoa.
  set (codes := map Pcm.char_code (list_ascii_of_string s)).
  assert (Hoct : Forall is_octet codes).
  { apply List.Forall_forall. intros z Hz. apply List.in_map_iff in Hz as [c [<- _]].
    apply char_code_range. }
  pose proof (sextets_range codes Hoct) as Hsx.
  rewrite list_ascii_of_string_of_list_ascii.
  assert (Hfilter :
    List.filter (fun c => negb (Pcm.is_ascii_whitespace c))
      (map Pcm.b64_char (Pcm.sextets codes) ++ Pcm.padding (length codes))
    = map Pcm.b64_char (Pcm.sextets codes) ++ Pcm.padding (length codes)).
  { rewrite List.filter_app, filter_chars by assumption. f_equal.
    unfold Pcm.padding. induction ((3 - length codes mod 3) mod 3)%nat; simpl; congruence. }
  rewrite Hfilter.
  assert (Hstrip :
    Pcm.strip_padding (map Pcm.b64_char (Pcm.sextets codes) ++ Pcm.padding (length codes))
    = map Pcm.b64_char (Pcm.sextets codes)
    /\ (length (Pcm.sextets codes) mod 4 <> 1)%nat).
  { pose proof (shape_mod _ _ (sextets_shape codes)) as Hshape.
    assert (Hne : (length (Pcm.sextets codes) mod 4 <> 0)%nat -> Pcm.sextets codes <> []).
    { intros Hm E. rewrite E in Hm. now apply Hm. }
    destruct Hshape as [[E3 E4]|[[E3 E4]|[E3 E4]]].
    - assert (Pcm.padding (length codes) = []) as ->
        by (unfold Pcm.padding; rewrite E3; reflexivity).
      split; [|rewrite E4; lia].
      apply strip_padding_chars; [assumption|now left|].
      now rewrite app_nil_r, length_map.
    - assert (Pcm.padding (length codes) = ["="%char; "="%char]) as ->
        by (unfold Pcm.padding; rewrite E3; reflexivity).
      split; [|rewrite E4; lia].
      apply strip_padding_chars; [assumption| |].
      + right. split; [apply Hne; lia|now right].
      + rewrite length_app, length_map, Nat.Div0.add_mod, E4. reflexivity.
    - assert (Pcm.padding (length codes) = ["="%char]) as ->
        by (unfold Pcm.padding; rewrite E3; reflexivity).
      split; [|rewrite E4; lia].
      apply strip_padding_chars; [assumption| |].
      + right. split; [apply Hne; lia|now left].
      + rewrite length_app, length_map, Nat.Div0.add_mod, E4. reflexivity. }
  destruct Hstrip as [-> Hmod].
  rewrite length_map.
  destruct (Nat.eqb_spec (length (Pcm.sextets codes) mod 4) 1); [contradiction|].
  rewrite indices_chars by assumption.
  rewrite unsextets_sextets by assumption.
  unfold codes. rewrite map_map.
  rewrite (map_ext _ (fun c => c)) by (intros; apply fromCharCode_char_code).
  rewrite map_id. now rewrite string_of_list_ascii_of_string.
Qed.

End Base64.

(** ** [encode], [decode] and the views of a buffer *)

Section Codec.

Lemma append_empty_r (s : string) : (s ++ "")%string = s.
Proof.
  induction s as [|c s IH]; [reflexivity|].
  change (String c (s ++ "")%string = String c s). now rewrite IH.
Qed.

Lemma append_empty_l (s : string) : ("" ++ s)%string = s.
Proof. reflexivity. Qed.

Lemma append_assoc (s t u : string) : ((s ++ t) ++ u)%string = (s ++ (t ++ u))%string.
Proof.
  induction s as [|c s IH]; [reflexivity|].
  change (String c ((s ++ t) ++ u)%string = String c (s ++ (t ++ u))%string).
  now rewrite IH.
Qed.

Lemma binary_string (bytes : list byte) (acc : string) :
  fold_left (fun binary b => (binary ++ String (ascii_of_byte b) EmptyString)%string) bytes acc
  = (acc ++ string_of_list_ascii (map ascii_of_byte bytes))%string.
Proof.
  revert acc. induction bytes as [|b bytes IH]; intros acc; simpl.
  - now rewrite append_empty_r.
  - now rewrite IH, append_assoc.
Qed.

Lemma decode_encode (bytes : list byte) : Pcm.decode (Pcm.encode bytes) = Ok bytes.
Proof.
  unfold Pcm.decode, Pcm.encode. rewrite atob_btoa. cbn [js_bind].
  rewrite binary_string, append_empty_l, list_ascii_of_string_of_list_ascii.
  f_equal. rewrite map_map.
  rewrite <- (map_id bytes) at 2. apply map_ext. intros b.
  rewrite char_code_of_byte. apply byte_of_Z_to_Z.
Qed.

Lemma wrap_int16_range n : is_int16 (wrap_int16 n).
Proof.
  unfold wrap_int16, is_int16.
  pose proof (Z.mod_pos_bound n 65536 eq_refl).
  destruct (Z.leb_spec 32768 (n mod 65536)); lia.
Qed.

Lemma ToInt16_range x : is_int16 (ToInt16 x).
Proof.
  destruct x; simpl; [apply wrap_int16_range|unfold is_int16; lia].
Qed.

Lemma wrap_int16_small v : is_int16 v -> wrap_int16 v = v.
Proof.
  unfold wrap_int16, is_int16. intros H.
  destruct (Z.leb_spec 32768 (v mod 65536)); Z.div_mod_to_equations; lia.
Qed.

Lemma int16_cells_bytes (v : Z) (rest : list byte) :
  is_int16 v ->
  Pcm.int16_cells (Pcm.int16_bytes v ++ rest) = v :: Pcm.int16_cells rest.
Proof.
  intros H. unfold Pcm.int16_bytes. cbn [app Pcm.int16_cells].
  f_equal. rewrite !byte_to_Z_of_Z.
  unfold wrap_int16, is_int16 in *.
  destruct (Z.leb_spec 32768
    (((v mod 256) mod 256 + 256 * (((v / 256) mod 256) mod 256)) mod 65536));
    Z.div_mod_to_equations; lia.
Qed.

Lemma int16_cells_view (int16 : list Z) :
  Forall is_int16 int16 -> Pcm.int16_cells (Pcm.Uint8Array_of_buffer int16) = int16.
Proof.
  induction 1 as [|v vs Hv _ IH]; [reflexivity|].
  unfold Pcm.Uint8Array_of_buffer in *. cbn [flat_map].
  rewrite int16_cells_bytes by assumption. now rewrite IH.
Qed.

Lemma length_view (int16 : list Z) :
  length (Pcm.Uint8Array_of_buffer int16) = (2 * length int16)%nat.
Proof.
  induction int16 as [|v vs IH]; [reflexivity|].
  unfold Pcm.Uint8Array_of_buffer in *. cbn [flat_map].
  rewrite length_app, IH. simpl. lia.
Qed.

Lemma Int16Array_of_view (int16 : list Z) :
  Forall is_int16 int16 ->
  Pcm.Int16Array_of_buffer (Pcm.Uint8Array_of_buffer int16) = Ok int16.
Proof.
  intros H. unfold Pcm.Int16Array_of_buffer.
  rewrite length_view, Nat.even_mul. simpl. now rewrite int16_cells_view.
Qed.

Lemma list_ind2 {A : Type} (P : list A -> Prop) :
  P [] -> (forall a, P [a]) -> (forall a b l, P l -> P (a :: b :: l)) ->
  forall l, P l.
Proof.
  intros H0 H1 H2.
  fix IH 1. intros [|a [|b l]]; [exact H0 | apply H1 | apply H2, IH].
Qed.

Lemma length_int16_cells (data : list byte) :
  length (Pcm.int16_cells data) = Nat.div2 (length data).
Proof.
  induction data as [|a|a b l IH] using list_ind2; try reflexivity.
  simpl. now rewrite IH.
Qed.

Lemma int16_cells_range (data : list byte) : Forall is_int16 (Pcm.int16_cells data).
Proof.
  induction data as [|a|a b l IH] using list_ind2; try constructor; auto.
  apply wrap_int16_range.
Qed.

End Codec.

(** ** [decodeAudioData] *)

Section Decoder.

Lemma frameCount_eq (n c : nat) :
  (0 < c)%nat -> frameCount n c = Z.of_nat n # Pos.of_nat c.
Proof.
  intros Hc. unfold frameCount, Qdiv, Qinv, inject_Z. cbn [Qnum].
  destruct (Z.of_nat c) as [|p|p] eqn:E; try lia.
  unfold Qmult. cbn [Qnum Qden]. rewrite Z.mul_1_r, Pos.mul_1_l.
  f_equal. lia.
Qed.

Lemma truncate_frameCount (n c : nat) :
  (0 < c)%nat -> truncate (frameCount n c) = Z.of_nat (n / c).
Proof.
  intros Hc. rewrite frameCount_eq by assumption. unfold truncate. cbn [Qnum Qden].
  rewrite Z.quot_div_nonneg by lia.
  rewrite Nat2Z.inj_div. f_equal. lia.
Qed.

Lemma ceiling_frameCount (n c : nat) :
  (0 < c)%nat -> (n / c <= Z.to_nat (Qceiling (frameCount n c)))%nat.
Proof.
  intros Hc.
  assert (H : Z.of_nat (n / c) <= Qceiling (frameCount n c)).
  { rewrite <- truncate_frameCount by assumption.
    rewrite frameCount_eq by assumption. unfold truncate. cbn [Qnum Qden].
    rewrite Z.quot_div_nonneg by lia.
    change ((Z.of_nat n) / Z.pos (Pos.of_nat c)) with (Qfloor (Z.of_nat n # Pos.of_nat c)).
    rewrite Zle_Qle. apply Qle_floor_ceiling. }
  lia.
Qed.

Lemma fill_length {A : Type} (f : nat -> A) (cd : list A) (l : list nat) :
  length (foldl (fun cd i => <[ i := f i ]> cd) cd l) = length cd.
Proof.
  revert cd. induction l as [|i l IH]; intros cd; [reflexivity|].
  cbn [foldl]. now rewrite IH, length_insert.
Qed.

Lemma fill_lookup {A : Type} (f : nat -> A) (cd : list A) (k j : nat) :
  foldl (fun cd i => <[ i := f i ]> cd) cd (seq 0 k) !! j
  = if decide (j < k)%nat then (fun _ => f j) <$> cd !! j else cd !! j.
Proof.
  induction k as [|k IH].
  - simpl. destruct (decide (j < 0)%nat); [lia|reflexivity].
  - rewrite seq_S, foldl_app. cbn [foldl Nat.add].
    destruct (decide (j = k)) as [->|Hne].
    + destruct (decide (k < S k)%nat); [|lia].
      destruct (decide (k < length cd)%nat) as [Hlt|Hge].
      * rewrite list_lookup_insert_eq by (now rewrite fill_length).
        destruct (lookup_lt_is_Some_2 cd k Hlt) as [x ->]. reflexivity.
      * rewrite list_insert_ge by (rewrite fill_length; lia).
        rewrite IH. destruct (decide (k < k)%nat); [lia|].
        rewrite (lookup_ge_None_2 cd k) by lia. reflexivity.
    + rewrite list_lookup_insert_ne by congruence. rewrite IH.
      destruct (decide (j < k)%nat), (decide (j < S k)%nat); try lia; reflexivity.
Qed.

Lemma fill_all {A : Type} (f : nat -> A) (cd : list A) (k : nat) :
  (length cd <= k)%nat ->
  foldl (fun cd i => <[ i := f i ]> cd) cd (seq 0 k) = map f (seq 0 (length cd)).
Proof.
  intros Hk. apply list_eq. intros j. rewrite fill_lookup.
  destruct (decide (j < length cd)%nat) as [Hlt|Hge].
  - destruct (decide (j < k)%nat); [|lia].
    destruct (lookup_lt_is_Some_2 cd j Hlt) as [x ->]. cbn [fmap option_fmap option_map].
    change (map f (seq 0 (length cd))) with (f <$> seq 0 (length cd)).
    rewrite list_lookup_fmap, lookup_seq_lt by assumption. reflexivity.
  - rewrite (lookup_ge_None_2 cd j) by lia.
    rewrite (lookup_ge_None_2 (map f _) j) by (rewrite length_map, length_seq; lia).
    destruct (decide (j < k)%nat); reflexivity.
Qed.

Lemma fill_channel_spec (cells : list Z) (c ch frames : nat) :
  (0 < c)%nat -> frames = (length cells / c)%nat ->
  Pcm.fill_channel cells c (frameCount (length cells) c) ch (replicate frames (Num 0))
  = channel_samples cells c ch frames.
Proof.
  intros Hc ->. unfold Pcm.fill_channel, channel_samples.
  rewrite (fill_all (fun i => Pcm.read_scaled cells (i * c + ch))).
  - now rewrite length_replicate.
  - rewrite length_replicate. now apply ceiling_frameCount.
Qed.

Lemma decodeAudioData_even (data : list byte) (ctx : Pcm.AudioContext) (rate : Q)
    (c : nat) :
  Pcm.supportsChannels ctx c = true ->
  Pcm.supportsRate ctx rate = true ->
  Nat.even (length data) = true ->
  (1 <= c <= Nat.div2 (length data))%nat ->
  Pcm.decodeAudioData data ctx rate c
  = Ok (Pcm.mkAudioBuffer rate
          (map (fun ch =>
                  channel_samples (Pcm.int16_cells data) c ch (Nat.div2 (length data) / c))
             (seq 0 c))).
Proof.
  intros Hchannels Hrate Heven [Hc Hlen].
  unfold Pcm.decodeAudioData, Pcm.Int16Array_of_buffer. rewrite Heven. cbn [js_bind].
  rewrite length_int16_cells.
  fold (frameCount (Nat.div2 (length data)) c).
  unfold Pcm.createBuffer. rewrite Hchannels, Hrate, truncate_frameCount, Nat2Z.id by lia.
  assert (Hframes : (1 <= Nat.div2 (length data) / c)%nat).
  { apply Nat.div_le_lower_bound; lia. }
  destruct (Nat.eqb_spec c 0); [lia|].
  destruct (Nat.eqb_spec (Nat.div2 (length data) / c) 0); [lia|].
  cbn [negb orb js_bind Pcm.sampleRate Pcm.channels]. do 2 f_equal.
  apply list_eq. intros ch.
  rewrite list_lookup_imap.
  change (map ?f (seq 0 c)) with (f <$> seq 0 c). rewrite list_lookup_fmap.
  destruct (decide (ch < c)%nat) as [Hlt|Hge].
  - rewrite lookup_replicate_2, lookup_seq_lt by assumption. cbn.
    f_equal. rewrite <- (length_int16_cells data).
    apply fill_channel_spec; [lia|]. now rewrite length_int16_cells.
  - rewrite (lookup_ge_None_2 (replicate c _) ch) by (rewrite length_replicate; lia).
    rewrite lookup_seq_ge by lia. reflexivity.
Qed.

Lemma decodeAudioData_odd (data : list byte) (ctx : Pcm.AudioContext) (rate : Q)
    (c : nat) :
  Nat.even (length data) = false ->
  Pcm.decodeAudioData data ctx rate c = Throw RangeError.
Proof.
  intros Hodd. unfold Pcm.decodeAudioData, Pcm.Int16Array_of_buffer.
  now rewrite Hodd.
Qed.

Lemma read_scaled_in_range (cells : list Z) (c ch i : nat) :
  (ch < c)%nat -> (i < length cells / c)%nat ->
  exists v, cells !! (i * c + ch)%nat = Some v
            /\ Pcm.read_scaled cells (i * c + ch) = Num (inject_Z v / 32768).
Proof.
  intros Hch Hi.
  assert (Hlt : (i * c + ch < length cells)%nat).
  { pose proof (Nat.Div0.mul_div_le (length cells) c). nia. }
  destruct (lookup_lt_is_Some_2 cells _ Hlt) as [v Hv].
  exists v. split; [assumption|]. unfold Pcm.read_scaled. now rewrite Hv.
Qed.

End Decoder.

(** ** Quantization *)

Section RoundTrip.

Lemma truncate_near (q : Q) :
  (q - 1 < inject_Z (truncate q) < q + 1)%Q.
Proof.
  destruct q as [a b]. unfold truncate, Qlt, Qminus, inject_Z.
  unfold Qplus, Qopp. cbn [Qnum Qden]. rewrite ?Pos.mul_1_r, ?Z.mul_1_r.
  Z.quot_rem_to_equations. nia.
Qed.

Lemma truncate_sign (q : Q) :
  ((0 <= q -> 0 <= inject_Z (truncate q) <= q)
   /\ (q <= 0 -> q <= inject_Z (truncate q) <= 0))%Q.
Proof.
  destruct q as [a b]. unfold truncate, Qle, inject_Z. cbn [Qnum Qden].
  rewrite !Z.mul_1_r. split; intros H; Z.quot_rem_to_equations; nia.
Qed.

Lemma quantize_in_range (x : Q) :
  (-1 <= x < 1)%Q -> quantize x = truncate (x * 32768).
Proof.
  intros Hx. unfold quantize. cbn [js_mul ToInt16]. apply wrap_int16_small.
  assert (Hq : (-32768 <= x * 32768 < 32768)%Q) by lra.
  destruct (truncate_sign (x * 32768)) as [Hpos Hneg].
  pose proof (truncate_near (x * 32768)) as Hnear.
  unfold is_int16. set (t := truncate (x * 32768)) in *.
  destruct (Qlt_le_dec (x * 32768) 0) as [Hlt|Hge].
  - assert (H1 : (inject_Z (-32768) <= inject_Z t /\ inject_Z t <= inject_Z 0)%Q)
      by (change (inject_Z (-32768)) with (-32768)%Q; change (inject_Z 0) with 0%Q; lra).
    rewrite <- !Zle_Qle in H1. lia.
  - assert (H1 : (inject_Z 0 <= inject_Z t /\ inject_Z t < inject_Z 32768)%Q)
      by (change (inject_Z 32768) with 32768%Q; change (inject_Z 0) with 0%Q; lra).
    rewrite <- Zle_Qle, <- Zlt_Qlt in H1. lia.
Qed.

Lemma quantize_error (x : Q) :
  (-1 <= x < 1)%Q -> (Qabs (inject_Z (quantize x) / 32768 - x) < 1 # 32768)%Q.
Proof.
  intros Hx. rewrite quantize_in_range by assumption.
  pose proof (truncate_near (x * 32768)) as Hnear.
  apply Qabs_Qlt_condition. unfold Qdiv. change (/ 32768)%Q with (1 # 32768)%Q.
  split; lra.
Qed.

Lemma channel_samples_mono (cells : list Z) :
  channel_samples cells 1 0 (length cells)
  = map (fun v => Num (inject_Z v / 32768)) cells.
Proof.
  unfold channel_samples. apply list_eq. intros i.
  change (map ?f ?l) with (f <$> l). rewrite !list_lookup_fmap.
  destruct (decide (i < length cells)%nat) as [Hlt|Hge].
  - rewrite lookup_seq_lt by assumption. cbn [fmap option_fmap option_map].
    unfold Pcm.read_scaled. replace ((0 + i) * 1 + 0)%nat with i by lia.
    destruct (lookup_lt_is_Some_2 cells i Hlt) as [v ->]. reflexivity.
  - rewrite lookup_seq_ge by lia. rewrite (lookup_ge_None_2 cells i) by lia. reflexivity.
Qed.

Lemma wire_round_trip_eq (ctx : Pcm.AudioContext) (samples : list Q) (rate : Q) :
  Pcm.supportsChannels ctx 1 = true ->
  Pcm.supportsRate ctx rate = true ->
  samples <> [] ->
  wire_round_trip ctx (map Num samples) rate
  = Ok (Pcm.mkAudioBuffer rate
          [map (fun x => Num (inject_Z (quantize x) / 32768)) samples]).
Proof.
  intros Hchannels Hrate Hne. unfold wire_round_trip, Pcm.createBlob. cbn [Pcm.data].
  rewrite decode_encode. cbn [js_bind]. rewrite map_map.
  fold quantize. change (fun x => ToInt16 (js_mul (Num x) 32768)) with quantize.
  set (int16 := map quantize samples).
  assert (Hrange : Forall is_int16 int16).
  { apply List.Forall_forall. intros v Hv. apply List.in_map_iff in Hv as [x [<- _]].
    apply ToInt16_range. }
  assert (Hlen : length int16 = length samples) by apply length_map.
  rewrite decodeAudioData_even; try assumption.
  - rewrite int16_cells_view by assumption.
    rewrite length_view, Nat.div2_double, Nat.div_1_r.
    cbn [seq map]. rewrite channel_samples_mono. unfold int16. now rewrite map_map.
  - rewrite length_view, Nat.even_mul. reflexivity.
  - rewrite length_view, Nat.div2_double.
    destruct samples; [contradiction|]. simpl in *. lia.
Qed.

End RoundTrip.
(** ** The handlers *)

Section Handlers.

Lemma stop_sources (l : list SourceId) (st : AppState) :
  fold_left (fun st s => emit (SourceStop s) st) l st
  = set_trace (trace st ++ map SourceStop l) st.
Proof.
  revert st. induction l as [|s l IH]; intros st.
  - destruct st. cbn. now rewrite app_nil_r.
  - cbn [fold_left map]. rewrite IH. unfold emit, set_trace. cbn.
    now rewrite <- app_assoc.
Qed.

Lemma stopAllAudio_eq (st : AppState) :
  stopAllAudio st
  = setStatus idle
      (set_nextStartTime 0
         (set_sources [] (set_trace (trace st ++ map SourceStop (sources st)) st))).
Proof. unfold stopAllAudio. now rewrite stop_sources. Qed.

Lemma respond_core fc result st : audio_core (respond fc result st) = audio_core st.
Proof.
  unfold respond, sendToolResponse. destruct (sessionRef st); reflexivity.
Qed.

Lemma respond_awaiting fc result st : awaiting (respond fc result st) = awaiting st.
Proof.
  unfold respond, sendToolResponse. destruct (sessionRef st); reflexivity.
Qed.

Lemma respond_trace fc result st :
  trace (respond fc result st)
  = trace st ++ (if sessionRef st
                 then map SendToolResponse [mkResponse (fc_id fc) (fc_name fc) result]
                 else []).
Proof.
  unfold respond, sendToolResponse. destruct (sessionRef st); cbn; [reflexivity|].
  now rewrite app_nil_r.
Qed.

Lemma silent_trace (st : AppState) :
  trace st = trace st ++ (if sessionRef st then map SendToolResponse [] else []).
Proof. destruct (sessionRef st); now rewrite app_nil_r. Qed.

(** What one iteration of the loop does: it ends as [verdict] says, leaves
    the playback alone, and sends the answer of [reply], if any. *)
Lemma handleFunctionCall_spec env fc st :
  snd (handleFunctionCall env fc st) = fst (verdict env fc)
  /\ audio_core (fst (handleFunctionCall env fc st)) = audio_core st
  /\ awaiting (fst (handleFunctionCall env fc st)) = awaiting st
  /\ trace (fst (handleFunctionCall env fc st))
     = trace st ++ (if sessionRef st then map SendToolResponse (reply env fc) else []).
Proof.
  unfold handleFunctionCall, reply, verdict, reads_args.
  destruct (String.eqb_spec (fc_name fc) "set_expression") as [E|_].
  { rewrite E. destruct (fc_args fc) as [args|]; cbn;
      rewrite ?respond_core, ?respond_awaiting, ?respond_trace, ?E;
      auto using silent_trace. }
  destruct (String.eqb_spec (fc_name fc) "set_sticker") as [E|_].
  { rewrite E. destruct (fc_args fc) as [args|]; cbn;
      rewrite ?respond_core, ?respond_awaiting, ?respond_trace, ?E;
      auto using silent_trace. }
  destruct (String.eqb_spec (fc_name fc) "display_thought") as [E|_].
  { rewrite E. destruct (fc_args fc) as [args|]; cbn;
      rewrite ?respond_core, ?respond_awaiting, ?respond_trace, ?E;
      auto using silent_trace.
    destruct (is_str (args !! "type"%string) "image"
              || is_str (args !! "type"%string) "generated"); auto. }
  destruct (String.eqb_spec (fc_name fc) "execute_javascript") as [E|_].
  { rewrite E. destruct (fc_args fc) as [args|]; cbn.
    - destruct (runFunction env (args !! "code"%string)); cbn;
        rewrite ?respond_core, ?respond_awaiting, ?respond_trace, ?E;
        auto using silent_trace.
    - rewrite ?respond_core, ?respond_awaiting, ?respond_trace, ?E. auto. }
  destruct (String.eqb_spec (fc_name fc) "update_face_css") as [E|_].
  { rewrite E. destruct (fc_args fc) as [args|]; cbn;
      rewrite ?respond_core, ?respond_awaiting, ?respond_trace, ?E;
      auto using silent_trace. }
  destruct (String.eqb_spec (fc_name fc) "toggle_vision") as [E|_].
  { rewrite E. destruct (fc_args fc) as [args|]; cbn; [|auto using silent_trace].
    destruct (is_str (args !! "type"%string) "none"); cbn;
      rewrite ?respond_core, ?respond_awaiting, ?respond_trace, ?E;
      auto using silent_trace. }
  destruct (fc_args fc) as [args|]; cbn [orb fst snd];
    rewrite ?respond_core, ?respond_awaiting, ?respond_trace; auto.
Qed.

(** The loop over a batch: the playback is left alone and the answers of
    [replies] are sent; the loop comes to its end if every call does. *)
Lemma dispatchToolCall_spec env message calls st :
  audio_core (fst (dispatchToolCall env message calls st)) = audio_core st
  /\ trace (fst (dispatchToolCall env message calls st))
     = trace st ++ (if sessionRef st then map SendToolResponse (replies env calls) else [])
  /\ (snd (dispatchToolCall env message calls st) = Continue
      <-> completes env calls = true).
Proof.
  revert st. induction calls as [|fc calls IH]; intros st; cbn [dispatchToolCall replies completes forallb].
  - split; [reflexivity|]. split; [apply silent_trace|]. now split.
  - destruct (handleFunctionCall_spec env fc st) as (Hc & Hcore & Hwait & Htrace).
    destruct (handleFunctionCall env fc st) as [st1 c]. cbn [fst snd] in *.
    rewrite <- Hc.
    assert (Hs : sessionRef st1 = sessionRef st).
    { unfold audio_core in Hcore. congruence. }
    destruct c; cbn [fst snd andb].
    + destruct (IH st1) as (Hcore' & Htrace' & Hdone).
      split; [congruence|]. split; [|exact Hdone].
      rewrite Htrace', Htrace, Hs.
      destruct (sessionRef st); rewrite <- app_assoc; [|reflexivity].
      now rewrite map_app.
    + split; [assumption|]. split; [now rewrite Htrace, app_nil_r|].
      split; discriminate.
    + split; [assumption|]. split; [cbn; now rewrite Htrace, app_nil_r|].
      split; discriminate.
Qed.

Lemma transcribe_spec message st :
  audio_core (transcribe message st) = audio_core st
  /\ awaiting (transcribe message st) = awaiting st
  /\ trace (transcribe message st) = trace st.
Proof.
  unfold transcribe.
  destruct (outputTranscription message), (inputTranscription message); now repeat split.
Qed.

Lemma playAudio_outcome env message st :
  message_outcome env st (playAudio env message st).
Proof.
  unfold playAudio. destruct (modelTurn message) as [| |b64]; cbn [js_bind].
  - destruct (interrupted message); constructor.
  - constructor.
  - destruct (truthy b64).
    + destruct (Pcm.decode (js_to_string b64)) as [bytes|e]; cbn [js_bind]; [|constructor].
      destruct (Pcm.decodeAudioData bytes (outCtx env) 24000 1) as [buf|e];
        cbn [js_bind]; [|constructor].
      destruct (interrupted message); constructor.
    + destruct (interrupted message); constructor.
Qed.

Lemma afterCalls_outcome env message (r : AppState * Control) :
  message_outcome env (fst r) (afterCalls env message r).
Proof.
  destruct r as [st []]; cbn [afterCalls fst]; [apply playAudio_outcome|constructor..].
Qed.

Lemma onmessage_eq env message st :
  onmessage env message st = afterCalls env message (afterTools env message st).
Proof. reflexivity. Qed.

Lemma afterTools_spec env message st :
  audio_core (fst (afterTools env message st)) = audio_core st
  /\ exists sent,
       trace (fst (afterTools env message st)) = trace st ++ map SendToolResponse sent
       /\ (sessionRef st = true -> forall calls, toolCall message = Some (Some calls) ->
             sent = replies env calls).
Proof.
  unfold afterTools.
  destruct (transcribe_spec message st) as (Hcore & _ & Htrace).
  assert (Hs : sessionRef (transcribe message st) = sessionRef st).
  { unfold audio_core in Hcore. congruence. }
  destruct (toolCall message) as [[calls|]|]; cbn [fst].
  - destruct (dispatchToolCall_spec env message calls (transcribe message st))
      as (Hc & Ht & _).
    split; [congruence|]. rewrite Ht, Htrace, Hs.
    destruct (sessionRef st).
    + exists (replies env calls). split; [reflexivity|]. intros _ calls' E. congruence.
    + exists []. split; [reflexivity|]. discriminate.
  - split; [assumption|]. exists []. split; [now rewrite Htrace, app_nil_r|]. discriminate.
  - split; [assumption|]. exists []. split; [now rewrite Htrace, app_nil_r|]. discriminate.
Qed.

(** A call of [onmessage], seen from the playback. *)
Lemma onmessage_handled env message st : handled st (onmessage env message st).
Proof.
  destruct (afterTools_spec env message st) as (Hcore & sent & Htrace & _).
  exists env, (fst (afterTools env message st)), sent.
  split; [assumption|]. split; [assumption|].
  rewrite onmessage_eq. apply afterCalls_outcome.
Qed.

(** The rest of a suspended call of [onmessage], seen from the playback. *)
Lemma visionSettled_handled env k outcome st : handled st (visionSettled env k outcome st).
Proof.
  unfold visionSettled. destruct (awaiting st !! k) as [s|].
  2:{ exists env, st, []. split; [reflexivity|]. split; [now rewrite app_nil_r|constructor]. }
  set (st0 := set_awaiting (delete k (awaiting st)) st).
  set (type := fc_args (s_call s) ≫= _).
  assert (H0 : audio_core st0 = audio_core st /\ trace st0 = trace st) by now split.
  destruct H0 as [Hcore0 Htrace0].
  assert (H1 : exists st1 text,
            (startVision_settled type outcome st0 = (st1, Some text)
             \/ (startVision_settled type outcome st0 = (st1, None) /\ st1 = st0))
            /\ audio_core st1 = audio_core st /\ trace st1 = trace st).
  { destruct outcome as [|errorMsg|]; cbn [startVision_settled].
    - eexists _, _. split; [left; reflexivity|]. now split.
    - eexists _, _. split; [left; reflexivity|]. now split.
    - exists st0, ""%string. split; [right; now split|]. now split. }
  destruct H1 as (st1 & text & [Hsettled|[Hsettled ->]] & Hcore1 & Htrace1); rewrite Hsettled.
  2:{ exists env, st0, []. split; [assumption|].
      split; [now rewrite Htrace0, app_nil_r|constructor]. }
  set (st2 := respond (s_call s) text st1).
  destruct (dispatchToolCall_spec env (s_message s) (s_rest s) st2) as (Hcore3 & Htrace3 & _).
  assert (Hs : sessionRef st2 = sessionRef st).
  { pose proof (respond_core (s_call s) text st1) as H. fold st2 in H.
    unfold audio_core in H, Hcore1. congruence. }
  exists env, (fst (dispatchToolCall env (s_message s) (s_rest s) st2)),
    (if sessionRef st
     then mkResponse (fc_id (s_call s)) (fc_name (s_call s)) text :: replies env (s_rest s)
     else []).
  split; [|split; [|apply afterCalls_outcome]].
  - rewrite Hcore3. unfold st2. rewrite respond_core. assumption.
  - rewrite Htrace3, Hs. unfold st2. rewrite respond_trace, Htrace1.
    assert (Hs1 : sessionRef st1 = sessionRef st).
    { unfold audio_core in Hcore1. congruence. }
    rewrite Hs1. destruct (sessionRef st); rewrite <- app_assoc; reflexivity.
Qed.

Lemma step_handled (st : AppState) (e : Event) :
  (exists env message, e = ServerMessage env message)
  \/ (exists env k outcome, e = VisionSettled env k outcome) ->
  handled st (step st e).
Proof.
  intros [(env & message & ->)|(env & k & outcome & ->)]; cbn [step].
  - apply onmessage_handled.
  - apply visionSettled_handled.
Qed.

Lemma forwarded_app (t u : list Effect) : forwarded (t ++ u) = forwarded t ++ forwarded u.
Proof. unfold forwarded. apply flat_map_app. Qed.

Lemma startTimes_app (t u : list Effect) : startTimes (t ++ u) = startTimes t ++ startTimes u.
Proof. unfold startTimes. apply flat_map_app. Qed.

Lemma toolResponses_app (t u : list Effect) :
  toolResponses (t ++ u) = toolResponses t ++ toolResponses u.
Proof. unfold toolResponses. apply flat_map_app. Qed.

Lemma forwarded_stops (l : list SourceId) : forwarded (map SourceStop l) = [].
Proof. induction l; [reflexivity|assumption]. Qed.

Lemma startTimes_stops (l : list SourceId) : startTimes (map SourceStop l) = [].
Proof. induction l; [reflexivity|assumption]. Qed.

Lemma toolResponses_stops (l : list SourceId) : toolResponses (map SourceStop l) = [].
Proof. induction l; [reflexivity|assumption]. Qed.

Lemma startTimes_responses (l : list FunctionResponse) :
  startTimes (map SendToolResponse l) = [].
Proof. induction l; [reflexivity|assumption]. Qed.


Lemma toolResponses_responses (l : list FunctionResponse) :
  toolResponses (map SendToolResponse l) = l.
Proof. induction l as [|r l IH]; [reflexivity|]. cbn. now f_equal. Qed.

Lemma onaudioprocess_active (inputData : list jsnum) (st : AppState) :
  active st inputData = true ->
  onaudioprocess inputData st
  = sendRealtimeInput (Pcm.createBlob inputData)
      (let st := set_vadActive 5 (set_micLevel (volume inputData) st) in
       let st := if Status_eqb (statusRef st) speaking then stopAllAudio st else st in
       if Status_eqb (statusRef st) idle then setStatus listening st else st).
Proof.
  unfold active, onaudioprocess. cbn [noiseThreshold set_micLevel]. now intros ->.
Qed.

Lemma onaudioprocess_silent (inputData : list jsnum) (st : AppState) :
  active st inputData = false ->
  onaudioprocess inputData st
  = if 0 <? vadActive st
    then sendRealtimeInput (Pcm.createBlob inputData)
           (set_vadActive (vadActive st - 1) (set_micLevel (volume inputData) st))
    else set_micLevel (volume inputData) st.
Proof.
  unfold active, onaudioprocess. cbn [noiseThreshold set_micLevel vadActive]. now intros ->.
Qed.

Lemma cells_of_core st st' : audio_core st' = audio_core st -> cells st' = cells st.
Proof. unfold audio_core, cells. congruence. Qed.

Lemma outcome_cells env st2 st' : message_outcome env st2 st' -> cells st' = cells st2.
Proof. intros []; rewrite ?stopAllAudio_eq; reflexivity. Qed.

Lemma handled_cells st st' : handled st st' -> cells st' = cells st.
Proof.
  intros (env & st2 & sent & Hcore & _ & Hout).
  rewrite (outcome_cells _ _ _ Hout). now apply cells_of_core.
Qed.

Lemma onaudioprocess_cells inputData st : cells (onaudioprocess inputData st) = cells st.
Proof.
  unfold onaudioprocess, sendRealtimeInput.
  repeat match goal with
         | |- context [if ?b then _ else _] => destruct b
         end;
    rewrite ?stopAllAudio_eq; reflexivity.
Qed.

Lemma onended_cells src st : cells (onended src st) = cells st.
Proof.
  unfold onended. cbn [sources set_sources].
  destruct (length (Set_delete src (sources st)) =? 0)%nat; reflexivity.
Qed.

Lemma step_cells (st : AppState) (e : Event) :
  e <> BoredomTick -> e <> Rendered -> e <> EffectsRun -> cells (step st e) = cells st.
Proof.
  intros Ht Hr He. destruct e; try contradiction; cbn [step];
    auto using onaudioprocess_cells, onended_cells.
  - apply handled_cells, onmessage_handled.
  - apply handled_cells, visionSettled_handled.
Qed.

Lemma Status_eqb_eq (a b : Status) : Status_eqb a b = true <-> a = b.
Proof. destruct a, b; cbn; split; congruence. Qed.

Lemma Status_eqb_neq (a b : Status) : Status_eqb a b = false <-> a <> b.
Proof. destruct a, b; cbn; split; congruence. Qed.

Lemma step_cases (st : AppState) (e : Event) :
  e = BoredomTick \/ e = Rendered \/ e = EffectsRun \/ cells (step st e) = cells st.
Proof.
  destruct e; auto; right; right; right; apply step_cells; discriminate.
Qed.

Lemma run_snoc moods threshold events e :
  run moods threshold (events ++ [e]) = step (run moods threshold events) e.
Proof. unfold run. now rewrite fold_left_app. Qed.

End Handlers.
(** ** The scheduler and the gate *)

Section Scheduler.






End Scheduler.

Section Gate.

Lemma frame_settings inputData st :
  noiseThreshold (onaudioprocess inputData st) = noiseThreshold st
  /\ sessionRef (onaudioprocess inputData st) = sessionRef st.
Proof.
  unfold onaudioprocess, sendRealtimeInput.
  repeat match goal with
         | |- context [if ?b then _ else _] => destruct b
         end;
    rewrite ?stopAllAudio_eq; split; reflexivity.
Qed.

Lemma active_frame inputData st :
  active st inputData = true ->
  vadActive (onaudioprocess inputData st) = 5
  /\ forwarded (trace (onaudioprocess inputData st))
     = forwarded (trace st) ++ (if sessionRef st then [Pcm.createBlob inputData] else []).
Proof.
  intros Ha. rewrite (onaudioprocess_active _ _ Ha).
  unfold sendRealtimeInput. cbn [statusRef set_vadActive set_micLevel].
  destruct (statusRef st) eqn:E; cbn [Status_eqb]; rewrite ?stopAllAudio_eq; cbn;
    rewrite ?E; cbn; destruct (sessionRef st); cbn;
    rewrite ?forwarded_app, ?forwarded_stops, ?app_nil_r; auto.
Qed.

Lemma silent_frame inputData st :
  active st inputData = false ->
  let st' := onaudioprocess inputData st in
  (0 < vadActive st ->
     vadActive st' = vadActive st - 1
     /\ forwarded (trace st')
        = forwarded (trace st) ++ (if sessionRef st then [Pcm.createBlob inputData] else []))
  /\ (vadActive st <= 0 ->
        vadActive st' = vadActive st /\ forwarded (trace st') = forwarded (trace st)).
Proof.
  intros Hs. cbn zeta. rewrite (onaudioprocess_silent _ _ Hs).
  destruct (Z.ltb_spec 0 (vadActive st)); split; intros Hv; try lia.
  - unfold sendRealtimeInput. cbn. destruct (sessionRef st); cbn.
    + now rewrite forwarded_app.
    + now rewrite app_nil_r.
  - now cbn.
Qed.

Lemma frames_settings l st :
  noiseThreshold (frames l st) = noiseThreshold st
  /\ sessionRef (frames l st) = sessionRef st.
Proof.
  unfold frames. revert st. induction l as [|f l IH]; intros st; cbn [fold_left]; [auto|].
  destruct (IH (onaudioprocess f st)) as [-> ->]. apply frame_settings.
Qed.

Lemma active_same_threshold st st' inputData :
  noiseThreshold st' = noiseThreshold st -> active st' inputData = active st inputData.
Proof. unfold active. now intros ->. Qed.

Lemma silent_run (silents : list (list jsnum)) (st : AppState) :
  sessionRef st = true ->
  Forall (fun f => active st f = false) silents ->
  Z.of_nat (length silents) <= vadActive st ->
  vadActive (frames silents st) = vadActive st - Z.of_nat (length silents)
  /\ forwarded (trace (frames silents st))
     = forwarded (trace st) ++ map Pcm.createBlob silents.
Proof.
  revert st. induction silents as [|f silents IH]; intros st Hsess Hsil Hlen.
  - cbn. split; [lia|now rewrite app_nil_r].
  - inversion_clear Hsil as [|? ? Hf Hrest]. cbn [length] in Hlen.
    destruct (silent_frame f st Hf) as [Hpos _].
    destruct Hpos as [Hv Ht]; [lia|].
    destruct (frame_settings f st) as [Hthr Hs].
    unfold frames in *. cbn [fold_left].
    destruct (IH (onaudioprocess f st)) as [Hv' Ht'].
    + congruence.
    + eapply Forall_impl; [exact Hrest|]. cbn. intros g Hg.
      now rewrite (active_same_threshold st).
    + lia.
    + rewrite Hv', Ht', Hv, Ht, Hsess. cbn [length map].
      split; [lia|now rewrite <- app_assoc].
Qed.

(** C5.  With the session open, for every run of frames made of one frame
    above [noiseThreshold], five frames not above it and one more such frame,
    the gate forwards the first frame and the five that follow, in order, and
    nothing else; the counter is 5 after the first frame, one less after each
    of the five, and the last frame finds it at 0 and is not forwarded. *)
Theorem vad_hangover (st : AppState) (activeFrame : list jsnum)
    (silents : list (list jsnum)) (last : list jsnum) :
  sessionRef st = true ->
  active st activeFrame = true ->
  length silents = 5%nat ->
  Forall (fun f => active st f = false) (silents ++ [last]) ->
  forwarded (trace (frames (activeFrame :: silents ++ [last]) st))
  = forwarded (trace st) ++ map Pcm.createBlob (activeFrame :: silents)
  /\ (forall j, (j <= 5)%nat ->
        vadActive (frames (activeFrame :: take j silents) st) = 5 - Z.of_nat j)
  /\ vadActive (frames (activeFrame :: silents ++ [last]) st) = 0.
Proof.
  intros Hsess Hact Hlen Hsil.
  apply Forall_app in Hsil as [Hsil Hlast]. inversion_clear Hlast as [|? ? Hlast' _].
  destruct (active_frame activeFrame st Hact) as [Hv Ht].
  destruct (frame_settings activeFrame st) as [Hthr Hs].
  set (st1 := onaudioprocess activeFrame st) in *.
  assert (Hsil1 : Forall (fun f => active st1 f = false) silents).
  { eapply Forall_impl; [exact Hsil|]. cbn. intros g Hg.
    now rewrite (active_same_threshold st). }
  assert (Hrun : forall l, Forall (fun f => active st1 f = false) l ->
            (length l <= 5)%nat ->
            vadActive (frames l st1) = 5 - Z.of_nat (length l)
            /\ forwarded (trace (frames l st1))
               = forwarded (trace st) ++ Pcm.createBlob activeFrame :: map Pcm.createBlob l).
  { intros l Hl Hn. destruct (silent_run l st1) as [Hv' Ht']; [congruence|assumption|lia|].
    rewrite Hv', Ht', Hv, Ht, Hsess. split; [reflexivity|now rewrite <- app_assoc]. }
  assert (Hfold : forall l, frames (activeFrame :: l) st = frames l st1) by reflexivity.
  destruct (Hrun silents Hsil1) as [Hv5 Ht5]; [lia|].
  assert (Hend : frames (silents ++ [last]) st1 = onaudioprocess last (frames silents st1)).
  { unfold frames. now rewrite fold_left_app. }
  assert (Hlast1 : active (frames silents st1) last = false).
  { rewrite (active_same_threshold st); [assumption|].
    destruct (frames_settings silents st1) as [-> _]. assumption. }
  destruct (silent_frame last (frames silents st1) Hlast1) as [_ Hzero].
  destruct Hzero as [Hvz Htz]; [rewrite Hv5, Hlen; lia|].
  rewrite !Hfold, Hend. split; [|split].
  - rewrite Htz, Ht5. reflexivity.
  - intros j Hj. rewrite Hfold.
    destruct (Hrun (take j silents)) as [Hvj _].
    + now apply Forall_take.
    + rewrite length_take. lia.
    + rewrite Hvj, length_take, Hlen. lia.
  - rewrite Hvz, Hv5, Hlen. reflexivity.
Qed.

End Gate.
(** ** The conversation state *)

Section Machine.

Lemma upcomingBoredom_snoc (u : BoredomUpdate) (st : AppState) :
  upcomingBoredom (set_queuedBoredom (queuedBoredom st ++ [u]) st)
  = applyBoredom (upcomingBoredom st) u.
Proof. unfold upcomingBoredom. cbn. now rewrite fold_left_app. Qed.

Lemma applyBoredom_range (b : Z) (u : BoredomUpdate) :
  0 <= b <= 100 -> 0 <= applyBoredom b u <= 100.
Proof. destruct u; cbn; lia. Qed.

Lemma boredom_of_cells st st' :
  cells st' = cells st ->
  boredom st' = boredom st /\ upcomingBoredom st' = upcomingBoredom st
  /\ status st' = status st /\ statusRef st' = statusRef st
  /\ statusEffect st' = statusEffect st /\ queuedBoredom st' = queuedBoredom st.
Proof.
  unfold cells, upcomingBoredom. intros H.
  assert (boredom st' = boredom st) by congruence.
  assert (queuedBoredom st' = queuedBoredom st) by congruence.
  repeat split; congruence.
Qed.

Lemma statusEffectRun_eq (st : AppState) :
  statusEffectRun st
  = if statusEffect st then
      if Status_eqb (status st) idle
      then set_statusEffect false (set_statusRef (status st) st)
      else set_statusEffect false
             (set_queuedBoredom (queuedBoredom st ++ [Reset]) (set_statusRef (status st) st))
    else st.
Proof.
  unfold statusEffectRun. destruct (statusEffect st); [|reflexivity].
  cbn [status set_statusRef]. now destruct (Status_eqb (status st) idle).
Qed.

Lemma statusEffectRun_spec (st : AppState) :
  boredom_invariant st ->
  boredom_invariant (statusEffectRun st)
  /\ statusEffect (statusEffectRun st) = false
  /\ status (statusEffectRun st) = status st
  /\ queuedStatus (statusEffectRun st) = queuedStatus st
  /\ boredom (statusEffectRun st) = boredom st
  /\ upcomingBoredom (statusEffectRun st) <= upcomingBoredom st
  /\ (statusEffect st = true -> status st <> idle -> upcomingBoredom (statusEffectRun st) = 0).
Proof.
  intros (Hb & Hu & Href & Hzero). rewrite statusEffectRun_eq. unfold boredom_invariant.
  destruct (statusEffect st) eqn:E.
  - destruct (Status_eqb (status st) idle) eqn:Ei.
    + apply Status_eqb_eq in Ei. cbn. unfold upcomingBoredom in *. cbn.
      repeat split; try lia; try congruence.
    + apply Status_eqb_neq in Ei.
      cbn [status statusRef statusEffect boredom queuedStatus set_statusEffect
           set_statusRef set_queuedBoredom].
      change (upcomingBoredom (set_statusEffect false
                (set_queuedBoredom (queuedBoredom st ++ [Reset]) (set_statusRef (status st) st))))
        with (upcomingBoredom (set_queuedBoredom (queuedBoredom st ++ [Reset]) st)).
      rewrite upcomingBoredom_snoc. cbn [applyBoredom].
      repeat split; try lia; try congruence.
  - repeat split; try lia; auto; intros; congruence.
Qed.

Lemma statusEffectRun_frame (st : AppState) :
  status (statusEffectRun st) = status st
  /\ queuedStatus (statusEffectRun st) = queuedStatus st
  /\ boredom (statusEffectRun st) = boredom st
  /\ statusEffect (statusEffectRun st) = false.
Proof.
  rewrite statusEffectRun_eq.
  destruct (statusEffect st) eqn:E; [destruct (Status_eqb (status st) idle)|];
    repeat split; assumption.
Qed.

Lemma upcoming_after_effect (st : AppState) :
  upcomingStatus (statusEffectRun st) = upcomingStatus st.
Proof.
  destruct (statusEffectRun_frame st) as (Hs & Hq & _). unfold upcomingStatus.
  now rewrite Hs, Hq.
Qed.

Lemma render_cells (st : AppState) :
  status (render st) = upcomingStatus st
  /\ queuedStatus (render st) = None
  /\ statusRef (render st) = statusRef (statusEffectRun st)
  /\ statusEffect (render st) = negb (Status_eqb (upcomingStatus st) (status st))
  /\ boredom (render st) = upcomingBoredom (statusEffectRun st)
  /\ queuedBoredom (render st) = [].
Proof.
  destruct (statusEffectRun_frame st) as (Hs & Hq & _ & He).
  unfold render. rewrite upcoming_after_effect, Hs.
  destruct (Status_eqb (upcomingStatus st) (status st)); cbn; rewrite ?He; now repeat split.
Qed.

Lemma render_status st : status (render st) = upcomingStatus st.
Proof. apply render_cells. Qed.

Lemma render_upcoming st : upcomingStatus (render st) = upcomingStatus st.
Proof.
  destruct (render_cells st) as (Hs & Hq & _). unfold upcomingStatus at 1.
  now rewrite Hq, Hs.
Qed.

Lemma render_spec (st : AppState) :
  boredom_invariant st ->
  boredom_invariant (render st)
  /\ upcomingBoredom (render st) = boredom (render st)
  /\ upcomingBoredom (render st) <= upcomingBoredom st.
Proof.
  intros Hinv.
  destruct (statusEffectRun_spec st Hinv)
    as ((Hb & Hu & Href & Hzero) & He & Hs & Hq & Hb' & Hle & _).
  destruct (render_cells st) as (Rs & Rq & Rr & Re & Rb & Rqb).
  assert (Hup : upcomingBoredom (render st) = boredom (render st)).
  { unfold upcomingBoredom. now rewrite Rqb. }
  split; [|split; [assumption|rewrite Hup, Rb; assumption]].
  unfold boredom_invariant. rewrite Hup, Rb, Rs, Rr, Re.
  split; [assumption|]. split; [assumption|].
  destruct (Status_eqb (upcomingStatus st) (status st)) eqn:E; cbn [negb];
    [|split; discriminate].
  apply Status_eqb_eq in E. rewrite E, <- Hs. split; [auto|].
  intros _. now apply Hzero.
Qed.

Lemma boredomTick_spec (st : AppState) :
  boredom_invariant st ->
  boredom_invariant (boredomTick st)
  /\ boredom (boredomTick st) = boredom st
  /\ upcomingBoredom (boredomTick st)
     = (if Status_eqb (statusRef st) idle then Z.min 100 (upcomingBoredom st + 1)
        else upcomingBoredom st).
Proof.
  intros (Hb & Hu & Href & Hzero). unfold boredomTick, boredom_invariant.
  destruct (Status_eqb (statusRef st) idle) eqn:E; [|now repeat split].
  apply Status_eqb_eq in E. rewrite upcomingBoredom_snoc. cbn [applyBoredom].
  cbn [boredom statusEffect statusRef status set_queuedBoredom].
  repeat split; try lia; try assumption.
  intros He Hne. rewrite (Href He) in E. contradiction.
Qed.

Lemma step_invariant (st : AppState) (e : Event) :
  boredom_invariant st -> boredom_invariant (step st e).
Proof.
  intros Hinv. destruct (step_cases st e) as [-> | [-> | [-> | Hsame]]]; cbn [step].
  - now apply boredomTick_spec.
  - now apply render_spec.
  - now apply statusEffectRun_spec.
  - destruct (boredom_of_cells _ _ Hsame) as (Hb & Hu & Hs & Hr & He & _).
    unfold boredom_invariant. rewrite Hb, Hu, Hs, Hr, He. exact Hinv.
Qed.

Lemma run_invariant moods threshold events :
  boredom_invariant (run moods threshold events).
Proof.
  induction events as [|e events IH] using rev_ind.
  - unfold run, boredom_invariant, upcomingBoredom. cbn.
    repeat split; try lia; congruence.
  - rewrite run_snoc. now apply step_invariant.
Qed.

(** *** The bookkeeping of the scheduler *)

Lemma startedSources_app (t u : list Effect) :
  startedSources (t ++ u) = startedSources t ++ startedSources u.
Proof. apply flat_map_app. Qed.

Lemma stoppedSources_app (t u : list Effect) :
  stoppedSources (t ++ u) = stoppedSources t ++ stoppedSources u.
Proof. apply flat_map_app. Qed.

Lemma endedSources_app (t u : list Event) :
  endedSources (t ++ u) = endedSources t ++ endedSources u.
Proof. apply flat_map_app. Qed.

Lemma startedSources_stops (l : list SourceId) : startedSources (map SourceStop l) = [].
Proof. induction l; [reflexivity|assumption]. Qed.

Lemma stoppedSources_stops (l : list SourceId) : stoppedSources (map SourceStop l) = l.
Proof. induction l as [|s l IH]; [reflexivity|]. cbn. now f_equal. Qed.

Lemma startedSources_responses (l : list FunctionResponse) :
  startedSources (map SendToolResponse l) = [].
Proof. induction l; [reflexivity|assumption]. Qed.

Lemma stoppedSources_responses (l : list FunctionResponse) :
  stoppedSources (map SendToolResponse l) = [].
Proof. induction l; [reflexivity|assumption]. Qed.

Lemma stopAllAudio_view (st : AppState) :
  playback_view (stopAllAudio st)
  = ([], nextSource st, startedSources (trace st),
     stoppedSources (trace st) ++ sources st).
Proof.
  rewrite stopAllAudio_eq. unfold playback_view. cbn.
  now rewrite startedSources_app, stoppedSources_app, startedSources_stops,
    stoppedSources_stops, app_nil_r.
Qed.

Lemma scheduleChunk_view (buf : Pcm.AudioBuffer) (now : Q) (st : AppState) :
  playback_view (scheduleChunk buf now st)
  = (Set_add (nextSource st) (sources st), S (nextSource st),
     startedSources (trace st) ++ [nextSource st], stoppedSources (trace st)).
Proof.
  unfold playback_view, scheduleChunk. cbn.
  now rewrite startedSources_app, stoppedSources_app, app_nil_r.
Qed.

Lemma onaudioprocess_view (inputData : list jsnum) (st : AppState) :
  playback_view (onaudioprocess inputData st) = playback_view st
  \/ playback_view (onaudioprocess inputData st) = playback_view (stopAllAudio st).
Proof.
  rewrite stopAllAudio_view.
  unfold onaudioprocess, sendRealtimeInput.
  repeat match goal with
         | |- context [if ?b then _ else _] => destruct b
         end;
    rewrite ?stopAllAudio_eq; unfold playback_view; cbn;
    rewrite ?startedSources_app, ?stoppedSources_app, ?startedSources_stops,
      ?stoppedSources_stops, ?app_nil_r; auto.
Qed.

Lemma view_of_core (st st2 : AppState) (sent : list FunctionResponse) :
  audio_core st2 = audio_core st ->
  trace st2 = trace st ++ map SendToolResponse sent ->
  playback_view st2 = playback_view st.
Proof.
  intros Hcore Htrace. unfold playback_view. rewrite Htrace.
  rewrite startedSources_app, stoppedSources_app, startedSources_responses,
    stoppedSources_responses, !app_nil_r.
  unfold audio_core in Hcore. congruence.
Qed.

Lemma statusEffectRun_view (st : AppState) :
  playback_view (statusEffectRun st) = playback_view st.
Proof.
  rewrite statusEffectRun_eq.
  destruct (statusEffect st); [destruct (Status_eqb (status st) idle)|];
    destruct st; reflexivity.
Qed.

Lemma render_view (st : AppState) : playback_view (render st) = playback_view st.
Proof.
  rewrite <- (statusEffectRun_view st). unfold render.
  destruct (statusEffectRun st). destruct (negb _); reflexivity.
Qed.

Lemma onended_view (src : SourceId) (st : AppState) :
  playback_view (onended src st)
  = (Set_delete src (sources st), nextSource st, startedSources (trace st),
     stoppedSources (trace st)).
Proof.
  unfold onended. cbn [sources set_sources].
  now destruct (length (Set_delete src (sources st)) =? 0)%nat.
Qed.

Lemma set_expression_view (e : string) (st : AppState) :
  playback_view (set_expression e st) = playback_view st.
Proof. destruct st. reflexivity. Qed.

Lemma handled_view (st st' : AppState) : handled st st' -> view_change st st'.
Proof.
  intros (env & st2 & sent & Hcore & Htrace & Hout).
  pose proof (view_of_core _ _ _ Hcore Htrace) as Hv.
  destruct Hout as [|buf| |buf].
  - apply view_same. exact Hv.
  - apply (view_scheduled st st2 buf (currentTime env)); [exact Hv|reflexivity].
  - apply (view_stopped st st2); [exact Hv|apply set_expression_view].
  - apply (view_scheduled_stopped st st2 buf (currentTime env));
      [exact Hv|apply set_expression_view].
Qed.

Lemma step_view (st : AppState) (e : Event) :
  (forall src, e <> SourceEnded src) -> view_change st (step st e).
Proof.
  intros He. destruct e; cbn [step].
  - apply view_same. destruct st. reflexivity.
  - destruct (onaudioprocess_view inputData st) as [H|H].
    + apply view_same. exact H.
    + apply (view_stopped st st); [reflexivity|exact H].
  - apply handled_view, onmessage_handled.
  - apply handled_view, visionSettled_handled.
  - now contradiction (He src).
  - apply view_same. unfold boredomTick.
    destruct (Status_eqb (statusRef st) idle); [destruct st|]; reflexivity.
  - apply view_same, render_view.
  - apply view_same, statusEffectRun_view.
  - apply view_same. destruct st. reflexivity.
  - apply view_same. destruct st. reflexivity.
  - apply view_same. destruct st. reflexivity.
  - apply view_same. destruct st. reflexivity.
  - apply view_same. destruct st. reflexivity.
  - apply view_same. destruct st. reflexivity.
  - apply view_same. destruct st. reflexivity.
Qed.

Lemma elem_of_Set_add (s src : SourceId) (l : list SourceId) :
  s ∈ Set_add src l <-> s ∈ l \/ s = src.
Proof.
  unfold Set_add. destruct (bool_decide_reflect (src ∈ l)) as [Hin|Hout].
  - split; [auto|]. intros [H| ->]; assumption.
  - rewrite elem_of_app, list_elem_of_singleton. reflexivity.
Qed.

Lemma NoDup_Set_add (src : SourceId) (l : list SourceId) :
  NoDup l -> NoDup (Set_add src l).
Proof.
  intros Hnd. unfold Set_add. destruct (bool_decide_reflect (src ∈ l)) as [Hin|Hout].
  - assumption.
  - apply NoDup_app. split; [assumption|]. split; [|apply NoDup_singleton].
    intros s Hs Hs'. apply list_elem_of_singleton in Hs'. now subst.
Qed.

Lemma elem_of_Set_delete (s src : SourceId) (l : list SourceId) :
  s ∈ Set_delete src l <-> s ∈ l /\ s <> src.
Proof.
  unfold Set_delete. rewrite !list_elem_of_In, List.filter_In, negb_true_iff, Nat.eqb_neq.
  reflexivity.
Qed.

Lemma NoDup_Set_delete (src : SourceId) (l : list SourceId) :
  NoDup l -> NoDup (Set_delete src l).
Proof.
  intros Hnd. unfold Set_delete. now apply NoDup_ListNoDup, List.NoDup_filter, NoDup_ListNoDup.
Qed.

Lemma invariant_of_view ended st st' :
  playback_view st' = playback_view st ->
  playback_invariant ended st -> playback_invariant ended st'.
Proof.
  unfold playback_view, playback_invariant. intros H.
  assert (E1 : sources st' = sources st) by congruence.
  assert (E2 : nextSource st' = nextSource st) by congruence.
  assert (E3 : startedSources (trace st') = startedSources (trace st)) by congruence.
  assert (E4 : stoppedSources (trace st') = stoppedSources (trace st)) by congruence.
  rewrite E1, E2, E3, E4. auto.
Qed.

Lemma invariant_stop ended st :
  playback_invariant ended st -> playback_invariant ended (stopAllAudio st).
Proof.
  pose proof (stopAllAudio_view st) as H. unfold playback_view in H.
  assert (E1 : sources (stopAllAudio st) = []) by congruence.
  assert (E2 : nextSource (stopAllAudio st) = nextSource st) by congruence.
  assert (E3 : startedSources (trace (stopAllAudio st)) = startedSources (trace st))
    by congruence.
  assert (E4 : stoppedSources (trace (stopAllAudio st))
               = stoppedSources (trace st) ++ sources st) by congruence.
  clear H. unfold playback_invariant. rewrite E1, E2, E3, E4.
  intros (Hnd & Hnds & Hlt & Hstop & Hend & Hiff).
  split; [constructor|]. split; [|split; [assumption|split; [|split; [assumption|]]]].
  - apply NoDup_app. split; [assumption|]. split; [|assumption].
    intros s Hs Hin. apply Hiff in Hin. now destruct Hin as (_ & Hin & _).
  - intros s Hs. apply elem_of_app in Hs as [Hs|Hs]; [auto|]. now apply Hiff in Hs.
  - intros s. split; [intros Hs; now apply elem_of_nil in Hs|].
    intros (Hs & Hns & Hne). exfalso. apply Hns, elem_of_app. right.
    apply Hiff. split; [assumption|]. split; [|assumption].
    intros Hin. apply Hns, elem_of_app. now left.
Qed.

Lemma invariant_schedule ended buf now st :
  playback_invariant ended st -> playback_invariant ended (scheduleChunk buf now st).
Proof.
  pose proof (scheduleChunk_view buf now st) as H. unfold playback_view in H.
  set (st' := scheduleChunk buf now st) in *.
  assert (E1 : sources st' = Set_add (nextSource st) (sources st)) by congruence.
  assert (E2 : nextSource st' = S (nextSource st)) by congruence.
  assert (E3 : startedSources (trace st') = startedSources (trace st) ++ [nextSource st])
    by congruence.
  assert (E4 : stoppedSources (trace st') = stoppedSources (trace st)) by congruence.
  clear H. clearbody st'. unfold playback_invariant. rewrite E1, E2, E3, E4.
  intros (Hnd & Hnds & Hlt & Hstop & Hend & Hiff).
  assert (Hfresh : nextSource st ∉ startedSources (trace st)).
  { intros Hin. rewrite List.Forall_forall in Hlt.
    apply list_elem_of_In in Hin. specialize (Hlt _ Hin). lia. }
  split; [now apply NoDup_Set_add|]. split; [assumption|]. split; [|split; [|split]].
  - apply Forall_app. split.
    + eapply Forall_impl; [exact Hlt|]. cbn. lia.
    + constructor; [lia|constructor].
  - intros s Hs. apply elem_of_app. left. now apply Hstop.
  - intros s Hs. apply elem_of_app. left. now apply Hend.
  - intros s. rewrite elem_of_Set_add, elem_of_app, list_elem_of_singleton, Hiff. split.
    + intros [(Hs & Hns & Hne)| ->]; [auto|].
      split; [now right|]. split; intros Hin; apply Hfresh; auto.
    + intros ([Hs| ->] & Hns & Hne); auto.
Qed.

Lemma invariant_change ended st st' :
  view_change st st' -> playback_invariant ended st -> playback_invariant ended st'.
Proof.
  intros [st1 Hv|st2 buf now st1 Hv2 Hv|st2 st1 Hv2 Hv|st2 buf now st1 Hv2 Hv] Hinv;
    apply (invariant_of_view _ _ _ Hv2) in Hinv || idtac.
  - now apply (invariant_of_view _ st).
  - apply (invariant_of_view _ _ _ Hv). now apply invariant_schedule.
  - apply (invariant_of_view _ _ _ Hv). now apply invariant_stop.
  - apply (invariant_of_view _ _ _ Hv). now apply invariant_stop, invariant_schedule.
Qed.

Lemma invariant_ended ended src st :
  src ∈ startedSources (trace st) ->
  playback_invariant ended st -> playback_invariant (ended ++ [src]) (onended src st).
Proof.
  intros Hsrc. pose proof (onended_view src st) as H. unfold playback_view in H.
  set (st' := onended src st) in *.
  assert (E1 : sources st' = Set_delete src (sources st)) by congruence.
  assert (E2 : nextSource st' = nextSource st) by congruence.
  assert (E3 : startedSources (trace st') = startedSources (trace st)) by congruence.
  assert (E4 : stoppedSources (trace st') = stoppedSources (trace st)) by congruence.
  clear H. clearbody st'. unfold playback_invariant. rewrite E1, E2, E3, E4.
  intros (Hnd & Hnds & Hlt & Hstop & Hend & Hiff).
  split; [now apply NoDup_Set_delete|]. split; [assumption|]. split; [assumption|].
  split; [assumption|]. split.
  - intros s Hs. apply elem_of_app in Hs as [Hs|Hs]; [auto|].
    apply list_elem_of_singleton in Hs. now subst.
  - intros s. rewrite elem_of_Set_delete, Hiff, elem_of_app, list_elem_of_singleton.
    tauto.
Qed.

Lemma ended_after_start_snoc (st : AppState) (events : list Event) (e : Event) :
  ended_after_start st (events ++ [e])
  = ended_after_start st events
    && match e with
       | SourceEnded s => bool_decide (s ∈ startedSources (trace (fold_left step events st)))
       | _ => true
       end.
Proof.
  revert st. induction events as [|e' events IH]; intros st; cbn [app ended_after_start fold_left].
  - now rewrite andb_true_r.
  - now rewrite IH, andb_assoc.
Qed.

(** Over every run in which [ended] is delivered for started sources only,
    the pending set holds the sources started and neither stopped nor ended. *)
Lemma run_playback moods threshold events :
  ended_after_start (initial moods threshold) events = true ->
  playback_invariant (endedSources events) (run moods threshold events).
Proof.
  induction events as [|e events IH] using rev_ind; intros Hok.
  - unfold run, playback_invariant. cbn.
    split; [constructor|]. split; [constructor|]. split; [constructor|].
    split; [intros s Hs; now apply elem_of_nil in Hs|].
    split; [intros s Hs; now apply elem_of_nil in Hs|].
    intros s. split; [intros Hs; now apply elem_of_nil in Hs|].
    intros (Hs & _). now apply elem_of_nil in Hs.
  - rewrite ended_after_start_snoc in Hok. apply andb_true_iff in Hok as [Hok He].
    specialize (IH Hok). rewrite run_snoc, endedSources_app.
    destruct e; cbn [endedSources flat_map app]; rewrite ?app_nil_r;
      try (apply (invariant_change _ (run moods threshold events));
           [apply step_view; discriminate|exact IH]).
    apply invariant_ended; [|exact IH].
    apply bool_decide_eq_true in He. exact He.
Qed.

(** *** Barge-in *)


(** *** Tool calls *)

Lemma toolResponses_outcome env st2 st' :
  message_outcome env st2 st' ->
  toolResponses (trace st') = toolResponses (trace st2).
Proof.
  intros []; rewrite ?stopAllAudio_eq; cbn;
    rewrite ?toolResponses_app, ?toolResponses_stops; cbn; rewrite ?app_nil_r; reflexivity.
Qed.

Lemma onmessage_responses env message calls st :
  toolCall message = Some (Some calls) ->
  sessionRef st = true ->
  toolResponses (trace (onmessage env message st))
  = toolResponses (trace st) ++ replies env calls.
Proof.
  intros Hcalls Hsess. rewrite onmessage_eq.
  rewrite (toolResponses_outcome _ _ _ (afterCalls_outcome env message _)).
  destruct (afterTools_spec env message st) as (_ & sent & Htrace & Hsent).
  rewrite Htrace, toolResponses_app, toolResponses_responses.
  now rewrite (Hsent Hsess calls Hcalls).
Qed.

Lemma replies_app env before after :
  completes env before = true ->
  replies env (before ++ after) = replies env before ++ replies env after.
Proof.
  induction before as [|fc before IH]; cbn [app replies completes forallb]; [reflexivity|].
  intros H. apply andb_true_iff in H as [Hfc Hrest].
  destruct (fst (verdict env fc)); try discriminate.
  now rewrite IH, app_assoc.
Qed.

Lemma verdict_Continue env fc :
  fst (verdict env fc) = Continue -> exists text, snd (verdict env fc) = Some text.
Proof.
  unfold verdict.
  destruct (fc_args fc) as [args|].
  - destruct (String.eqb (fc_name fc) "execute_javascript").
    { destruct (runFunction env (args !! "code"%string)); cbn; eauto. discriminate. }
    destruct (String.eqb (fc_name fc) "update_face_css"); [cbn; eauto|].
    destruct (String.eqb (fc_name fc) "toggle_vision"); [|cbn; eauto].
    destruct (is_str (args !! "type"%string) "none"); cbn; eauto. discriminate.
  - destruct (reads_args (fc_name fc)); [discriminate|].
    destruct (String.eqb (fc_name fc) "execute_javascript"); cbn; eauto.
Qed.

Lemma verdict_stopped env fc :
  fst (verdict env fc) <> Continue -> reply env fc = [].
Proof.
  unfold reply, verdict.
  destruct (fc_args fc) as [args|].
  - destruct (String.eqb (fc_name fc) "execute_javascript").
    { destruct (runFunction env (args !! "code"%string)); cbn; congruence. }
    destruct (String.eqb (fc_name fc) "update_face_css"); [cbn; congruence|].
    destruct (String.eqb (fc_name fc) "toggle_vision"); [|cbn; congruence].
    destruct (is_str (args !! "type"%string) "none"); cbn; congruence.
  - destruct (reads_args (fc_name fc)); [reflexivity|].
    destruct (String.eqb (fc_name fc) "execute_javascript"); cbn; congruence.
Qed.

Lemma replies_complete env calls :
  completes env calls = true ->
  length (replies env calls) = length calls
  /\ map fr_id (replies env calls) = map fc_id calls
  /\ map fr_name (replies env calls) = map fc_name calls.
Proof.
  induction calls as [|fc calls IH]; cbn [replies completes forallb]; [now repeat split|].
  intros H. apply andb_true_iff in H as [Hfc Hrest].
  destruct (fst (verdict env fc)) eqn:E; try discriminate.
  destruct (verdict_Continue env fc E) as [text Ht].
  destruct (IH Hrest) as (Hlen & Hids & Hnames).
  unfold reply. rewrite Ht. cbn. now rewrite Hlen, Hids, Hnames.
Qed.

(** C3: the batch is not always answered in full.  When a call of the batch
    ends in an exception outside every [try] (a tool that reads [fc.args]
    and finds none, or code that throws [null] or [undefined], whose [catch]
    block throws in its turn), the session receives the answers to the calls
    before it, and nothing for that call nor for those that follow it. *)
Theorem tool_replies_lost env (message : LiveServerMessage)
    (before after : list FunctionCall) (fc : FunctionCall) (st : AppState) :
  toolCall message = Some (Some (before ++ fc :: after)) ->
  sessionRef st = true ->
  completes env before = true ->
  fst (verdict env fc) = Abort ->
  snd (handleFunctionCall env fc st) = Abort
  /\ toolResponses (trace (onmessage env message st))
     = toolResponses (trace st) ++ replies env before
  /\ length (replies env before) = length before
  /\ map fr_id (replies env before) = map fc_id before
  /\ (length (replies env before) < length (before ++ fc :: after))%nat.
Proof.
  intros Hcalls Hsess Hbefore Hfc.
  destruct (handleFunctionCall_spec env fc st) as (Hc & _).
  destruct (replies_complete env before Hbefore) as (Hlen & Hids & _).
  split; [congruence|]. split; [|split; [assumption|split; [assumption|]]].
  - rewrite (onmessage_responses env message _ st Hcalls Hsess).
    rewrite replies_app by assumption. cbn [replies].
    rewrite verdict_stopped, Hfc by congruence. now rewrite !app_nil_r.
  - rewrite Hlen, length_app. cbn. lia.
Qed.

(** *** Idle convergence *)

Lemma upcoming_of_core st st' :
  audio_core st' = audio_core st -> upcomingStatus st' = upcomingStatus st.
Proof. unfold audio_core, upcomingStatus. congruence. Qed.

Lemma handled_upcoming st st' :
  handled st st' ->
  upcomingStatus st' = upcomingStatus st
  \/ upcomingStatus st' = idle
  \/ (upcomingStatus st' = speaking
      /\ exists s, startTimes (trace st') = startTimes (trace st) ++ [s]).
Proof.
  intros (env & st2 & sent & Hcore & Htrace & Hout).
  pose proof (upcoming_of_core _ _ Hcore) as Hup.
  destruct Hout as [|buf| |buf].
  - left. assumption.
  - right. right. split; [reflexivity|].
    exists (Qmax (nextStartTime st2) (currentTime env)).
    cbn. rewrite startTimes_app, Htrace, startTimes_app, startTimes_responses.
    now rewrite app_nil_r.
  - right. left. rewrite stopAllAudio_eq. reflexivity.
  - right. left. rewrite stopAllAudio_eq. reflexivity.
Qed.

Lemma onaudioprocess_upcoming st inputData :
  upcomingStatus (onaudioprocess inputData st) = upcomingStatus st
  \/ upcomingStatus (onaudioprocess inputData st) = idle
  \/ (active st inputData = true
      /\ upcomingStatus (onaudioprocess inputData st) = listening).
Proof.
  destruct (active st inputData) eqn:Ha.
  - rewrite (onaudioprocess_active _ _ Ha). clear Ha.
    destruct (statusRef st) eqn:Href.
    3: { right. left. cbn [statusRef set_vadActive set_micLevel]. rewrite Href.
         cbn [Status_eqb]. rewrite stopAllAudio_eq.
         cbn [statusRef setStatus set_queuedStatus set_nextStartTime set_sources set_trace
              set_vadActive set_micLevel].
         rewrite Href. cbn [Status_eqb]. unfold sendRealtimeInput, upcomingStatus.
         destruct st; cbn. destruct sessionRef0; reflexivity. }
    all: unfold sendRealtimeInput, upcomingStatus; destruct st; cbn in Href; subst; cbn.
    + right. right. split; [reflexivity|]. destruct sessionRef0; reflexivity.
    + left. destruct sessionRef0; reflexivity.
    + left. destruct sessionRef0; reflexivity.
  - left. rewrite (onaudioprocess_silent _ _ Ha). clear Ha.
    unfold sendRealtimeInput, upcomingStatus. destruct st; cbn.
    destruct (0 <? vadActive0); [destruct sessionRef0|]; reflexivity.
Qed.

Lemma idle_step (st : AppState) (e : Event) :
  upcomingStatus st = idle ->
  upcomingStatus (step st e) = idle \/ departure st e.
Proof.
  intros Hidle.
  destruct e as [|inputData|env message|env k outcome|src| | | | | | | | | |].
  - left. rewrite <- Hidle. destruct st; reflexivity.
  - destruct (onaudioprocess_upcoming st inputData) as [H|[H|[Ha H]]].
    + left. cbn [step]. congruence.
    + left. assumption.
    + right. right. exists inputData. auto.
  - destruct (handled_upcoming st (step st (ServerMessage env message))) as [H|[H|[H [s Hs]]]].
    + apply step_handled. left. eauto.
    + left. congruence.
    + left. assumption.
    + right. left. exists s. split; [left; eauto|]. auto.
  - destruct (handled_upcoming st (step st (VisionSettled env k outcome)))
      as [H|[H|[H [s Hs]]]].
    + apply step_handled. right. eauto.
    + left. congruence.
    + left. assumption.
    + right. left. exists s. split; [right; eauto|]. auto.
  - left. cbn [step]. unfold onended. cbn [sources set_sources].
    destruct (length (Set_delete src (sources st)) =? 0)%nat; [reflexivity|].
    rewrite <- Hidle. destruct st; reflexivity.
  - left. cbn [step]. unfold boredomTick.
    destruct (Status_eqb (statusRef st) idle); [|assumption].
    rewrite <- Hidle. destruct st; reflexivity.
  - left. cbn [step]. now rewrite render_upcoming.
  - left. cbn [step]. now rewrite upcoming_after_effect.
  - left. reflexivity.
  - left. rewrite <- Hidle. destruct st; reflexivity.
  - left. rewrite <- Hidle. destruct st; reflexivity.
  - left. rewrite <- Hidle. destruct st; reflexivity.
  - left. rewrite <- Hidle. destruct st; reflexivity.
  - left. rewrite <- Hidle. destruct st; reflexivity.
  - left. rewrite <- Hidle. destruct st; reflexivity.
Qed.

Lemma idle_until_departure (st1 : AppState) (later : list Event) :
  upcomingStatus st1 = idle ->
  upcomingStatus (fold_left step later st1) = idle
  \/ exists before e after,
       later = before ++ e :: after
       /\ upcomingStatus (fold_left step before st1) = idle
       /\ departure (fold_left step before st1) e.
Proof.
  intros Hup. induction later as [|e later IH] using rev_ind.
  - now left.
  - rewrite fold_left_app. cbn [fold_left].
    destruct IH as [Hidle|(before & e' & after & -> & Hb & Hd)].
    + destruct (idle_step _ e Hidle) as [Hstay|Hleave]; [now left|].
      right. exists later, e, []. auto.
    + right. exists before, e', (after ++ [e]). rewrite <- app_assoc. auto.
Qed.

Lemma onended_sources src st s :
  s ∈ sources (onended src st) <-> s ∈ sources st /\ s <> src.
Proof.
  unfold onended. cbn [sources set_sources].
  destruct (length (Set_delete src (sources st)) =? 0)%nat;
    unfold setStatus; rewrite <- (elem_of_Set_delete s src (sources st));
    destruct st; reflexivity.
Qed.

Lemma onended_keeps_status src st :
  (exists s, s ∈ sources st /\ s <> src) ->
  upcomingStatus (onended src st) = upcomingStatus st.
Proof.
  intros (s & Hs & Hne). unfold onended. cbn [sources set_sources].
  assert (Hin : s ∈ Set_delete src (sources st)) by (apply elem_of_Set_delete; auto).
  destruct (Set_delete src (sources st)) as [|x l] eqn:E.
  - inversion Hin.
  - cbn [length Nat.eqb]. destruct st; reflexivity.
Qed.

Lemma onended_last src st :
  (forall s, s ∈ sources st -> s = src) ->
  onended src st = setStatus idle (set_sources [] st).
Proof.
  intros Hlast. unfold onended. cbn [sources set_sources].
  assert (E : Set_delete src (sources st) = []).
  { destruct (Set_delete src (sources st)) as [|x l] eqn:E; [reflexivity|].
    assert (Hx : x ∈ Set_delete src (sources st)) by (rewrite E; left).
    apply elem_of_Set_delete in Hx as [Hx Hne]. now apply Hlast in Hx. }
  now rewrite E.
Qed.

(** C9.  Over every run of the component in which the browser delivers
    [ended] only for sources it was asked to start: the pending set holds
    exactly the sources that were started and have neither been stopped nor
    ended; [onended] removes its source from the set and nothing else; when
    another source is still pending it leaves the status alone; and when the
    source was the last one, the set is empty, [setStatus('idle')] has been
    called, the next render shows [idle], and from then on the status to be
    rendered stays [idle] until a chunk is scheduled ([speaking]) or the gate
    takes a frame for speech ([listening]). *)
Theorem idle_convergence moods threshold (events : list Event) (src : SourceId) :
  let st := run moods threshold events in
  let st1 := onended src st in
  ended_after_start (initial moods threshold) (events ++ [SourceEnded src]) = true ->
  (forall s, s ∈ sources st <->
             s ∈ startedSources (trace st)
             /\ (s ∉ stoppedSources (trace st)) /\ (s ∉ endedSources events))
  /\ (forall s, s ∈ sources st1 <-> s ∈ sources st /\ s <> src)
  /\ ((exists s, s ∈ sources st /\ s <> src) ->
        upcomingStatus st1 = upcomingStatus st)
  /\ ((forall s, s ∈ sources st -> s = src) ->
        sources st1 = []
        /\ upcomingStatus st1 = idle
        /\ status (render st1) = idle
        /\ forall later,
             upcomingStatus (fold_left step later st1) = idle
             \/ exists before e after,
                  later = before ++ e :: after
                  /\ upcomingStatus (fold_left step before st1) = idle
                  /\ departure (fold_left step before st1) e).
Proof.
  intros st st1 Hended.
  rewrite ended_after_start_snoc in Hended. apply andb_true_iff in Hended as [Hevents Hsrc].
  destruct (run_playback moods threshold events Hevents)
    as (Hnd & _ & _ & _ & _ & Hpending).
  fold st in Hnd, Hpending.
  split; [assumption|]. split; [intros s; apply onended_sources|].
  split; [apply onended_keeps_status|].
  intros Hlast. subst st1. rewrite (onended_last _ _ Hlast), render_status.
  assert (Hup : upcomingStatus (setStatus idle (set_sources [] st)) = idle) by reflexivity.
  split; [reflexivity|]. split; [assumption|]. split; [assumption|].
  intros later. now apply idle_until_departure.
Qed.

(** *** Boredom *)

Lemma upcomingBoredom_of_cells st st' :
  cells st' = cells st -> upcomingBoredom st' = upcomingBoredom st.
Proof. unfold cells, upcomingBoredom. intros H. congruence. Qed.

Lemma statusEffectRun_idle st :
  statusEffect st = false -> statusEffectRun st = st.
Proof. unfold statusEffectRun. now intros ->. Qed.

(** C10, as amended.  In every state the component can reach, [boredom] and
    the value the next render will show lie in [0, 100]; once the effect on
    [[status]] has run, a [status] other than [idle] means that the next
    render shows no boredom.  The interval tick adds 1, capped at 100, when
    [statusRef.current] is [idle]; no other step raises the value to be
    rendered; the rendered value changes at renders only; and after a render
    that changes [status] to a value other than [idle] the effect is due, and
    the render that follows it shows 0. *)
Theorem boredom_invariants moods threshold events :
  let st := run moods threshold events in
  0 <= boredom st <= 100
  /\ 0 <= upcomingBoredom st <= 100
  /\ (statusEffect st = false -> status st <> idle ->
        upcomingBoredom st = 0 /\ boredom (render st) = 0)
  /\ (statusRef st = idle ->
        upcomingBoredom (step st BoredomTick) = Z.min 100 (upcomingBoredom st + 1))
  /\ forall e,
       let st' := step st e in
       (upcomingBoredom st < upcomingBoredom st' ->
          e = BoredomTick /\ statusRef st = idle
          /\ upcomingBoredom st' = upcomingBoredom st + 1)
       /\ (boredom st' <> boredom st -> e = Rendered)
       /\ (status st' <> status st -> status st' <> idle ->
             e = Rendered /\ statusEffect st' = true
             /\ upcomingBoredom (step st' EffectsRun) = 0
             /\ boredom (render st') = 0).
Proof.
  intros st.
  pose proof (run_invariant moods threshold events) as Hinv. fold st in Hinv.
  destruct Hinv as (Hrange & Hup & Href & Hzero).
  assert (Hinv : boredom_invariant st) by (repeat split; auto; lia).
  split; [assumption|]. split; [assumption|]. split; [|split].
  - intros He Hs. split; [auto|].
    destruct (render_cells st) as (_ & _ & _ & _ & -> & _).
    rewrite statusEffectRun_idle by assumption. auto.
  - intros Hidle. cbn [step]. destruct (boredomTick_spec st Hinv) as (_ & _ & ->).
    now rewrite Hidle.
  - intros e st'. subst st'. clearbody st.
    destruct (step_cases st e) as [-> | [-> | [-> | Hsame]]].
    + cbn [step]. destruct (boredomTick_spec st Hinv) as (_ & Hb & Hu).
      assert (Hst : status (boredomTick st) = status st).
      { unfold boredomTick. destruct (Status_eqb (statusRef st) idle); destruct st; reflexivity. }
      split; [|split; [congruence|congruence]].
      rewrite Hu. destruct (Status_eqb (statusRef st) idle) eqn:E; [|lia].
      apply Status_eqb_eq in E. intros Hlt. split; [reflexivity|]. split; [assumption|lia].
    + cbn [step]. destruct (render_spec st Hinv) as (Hinv' & Heq & Hle).
      destruct (render_cells st) as (Hs & _ & _ & He & _).
      split; [lia|]. split; [reflexivity|]. intros Hchg Hnon.
      split; [reflexivity|].
      assert (Hdue : statusEffect (render st) = true).
      { rewrite He. destruct (Status_eqb (upcomingStatus st) (status st)) eqn:E; [|reflexivity].
        apply Status_eqb_eq in E. congruence. }
      split; [assumption|].
      destruct (statusEffectRun_spec (render st) Hinv') as (_ & _ & _ & _ & _ & _ & Hreset).
      split; [now apply Hreset|].
      destruct (render_cells (render st)) as (_ & _ & _ & _ & -> & _). now apply Hreset.
    + cbn [step]. destruct (statusEffectRun_spec st Hinv) as (_ & _ & Hs & _ & Hb & Hle & _).
      split; [lia|]. split; congruence.
    + pose proof (upcomingBoredom_of_cells _ _ Hsame) as Hu.
      assert (Hs : status (step st e) = status st) by (unfold cells in Hsame; congruence).
      assert (Hb : boredom (step st e) = boredom st) by (unfold cells in Hsame; congruence).
      split; [lia|]. split; congruence.
Qed.

End Machine.
(** ** The codec on small inputs *)

Example btoa_Man : Pcm.btoa "Man" = "TWFu"%string.
Proof. reflexivity. Qed.

Example btoa_Ma : Pcm.btoa "Ma" = "TWE="%string.
Proof. reflexivity. Qed.

Example atob_padded : Pcm.atob "TWE=" = Ok "Ma"%string.
Proof. reflexivity. Qed.

Example atob_unpadded : Pcm.atob "TWE" = Ok "Ma"%string.
Proof. reflexivity. Qed.

Example atob_refused : Pcm.atob "T" = Throw InvalidCharacterError.
Proof. reflexivity. Qed.

Example createBlob_samples :
  Pcm.data (Pcm.createBlob [Num (1 # 2); Num (-1 # 2); Num 1; Num (-1)])
  = "AEAAwACAAIA="%string.
Proof. vm_compute. reflexivity. Qed.

Example decode_truncates :
  Pcm.decodeAudioData [x00; x40; x00; xc0; x00; x20] browser_ctx 24000 2
  = Ok (Pcm.mkAudioBuffer 24000 [[Num (16384 / 32768)]; [Num (-16384 / 32768)]]).
Proof. vm_compute. reflexivity. Qed.

(** ** The codec claims *)

Section CodecClaims.

(** C4, as amended.  For every non-empty array of samples in [-1, 1), and a
    context that supports one channel at the rate used, encoding with
    [createBlob], carrying the bytes as base64 and decoding them with [decode]
    and [decodeAudioData] on one channel succeeds and yields one channel that
    reproduces every sample within 1/32768; the error is in fact strictly
    smaller, the sample being truncated towards zero. *)
Theorem pcm_round_trip (ctx : Pcm.AudioContext) (samples : list Q) (rate : Q) :
  Pcm.supportsChannels ctx 1 = true ->
  Pcm.supportsRate ctx rate = true ->
  samples <> [] ->
  Forall (fun x => (-1 <= x < 1)%Q) samples ->
  reproduces (1 # 32768) samples (wire_round_trip ctx (map Num samples) rate)
  /\ wire_round_trip ctx (map Num samples) rate
     = Ok (Pcm.mkAudioBuffer rate
             [map (fun x => Num (inject_Z (quantize x) / 32768)) samples])
  /\ Forall (fun x => (Qabs (inject_Z (quantize x) / 32768 - x) < 1 # 32768)%Q) samples.
Proof.
  intros Hchannels Hrate Hne Hrange.
  assert (Herr : Forall (fun x => (Qabs (inject_Z (quantize x) / 32768 - x) < 1 # 32768)%Q)
                   samples).
  { eapply Forall_impl; [exact Hrange|]. intros x Hx. now apply quantize_error. }
  split; [|split; [now apply wire_round_trip_eq|exact Herr]].
  exists rate, (map (fun x => (inject_Z (quantize x) / 32768)%Q) samples).
  split.
  - rewrite wire_round_trip_eq by assumption. now rewrite map_map.
  - clear Hne Hrange. induction Herr as [|x samples Hx _ IH]; cbn [map]; constructor.
    + now apply Qlt_le_weak.
    + exact IH.
Qed.

Lemma pcm_round_trip_witness :
  Pcm.supportsChannels browser_ctx 1 = true
  /\ Pcm.supportsRate browser_ctx 24000 = true
  /\ ([1 # 2; -1; 0]%Q <> [])
  /\ Forall (fun x => (-1 <= x < 1)%Q) [1 # 2; -1; 0]%Q
  /\ reproduces (1 # 32768) [1 # 2; -1; 0]%Q
       (wire_round_trip browser_ctx (map Num [1 # 2; -1; 0]%Q) 24000).
Proof.
  assert (Hchannels : Pcm.supportsChannels browser_ctx 1 = true) by reflexivity.
  assert (Hrate : Pcm.supportsRate browser_ctx 24000 = true) by reflexivity.
  assert (Hne : [1 # 2; -1; 0]%Q <> []) by discriminate.
  assert (Hrange : Forall (fun x => (-1 <= x < 1)%Q) [1 # 2; -1; 0]%Q).
  { repeat constructor; vm_compute; discriminate. }
  split; [exact Hchannels|]. split; [exact Hrate|].
  split; [exact Hne|]. split; [exact Hrange|].
  exact (proj1 (pcm_round_trip browser_ctx [1 # 2; -1; 0]%Q 24000 Hchannels Hrate Hne Hrange)).
Defined.

(** C4 fails as stated: the sample 1 lies in [-1, 1], is scaled to 32768,
    wraps to -32768 in the [Int16Array] and comes back as -1. *)
Lemma pcm_round_trip_counterexample :
  Forall (fun x => (-1 <= x <= 1)%Q) [1%Q]
  /\ wire_round_trip browser_ctx [Num 1] 24000
     = Ok (Pcm.mkAudioBuffer 24000 [[Num (inject_Z (-32768) / 32768)]])
  /\ ~ reproduces (1 # 32768) [1%Q] (wire_round_trip browser_ctx [Num 1] 24000).
Proof.
  assert (Heq : wire_round_trip browser_ctx [Num 1] 24000
                = Ok (Pcm.mkAudioBuffer 24000 [[Num (inject_Z (-32768) / 32768)]])).
  { change [Num 1] with (map Num [1%Q]).
    rewrite wire_round_trip_eq by (reflexivity || discriminate). reflexivity. }
  split; [repeat constructor; vm_compute; discriminate|]. split; [exact Heq|].
  rewrite Heq. intros (rate & recon & Hout & Hclose).
  injection Hout as _ Hrecon.
  inversion Hclose as [|x r xs rs Hr Hrest]; subst.
  inversion Hrest; subst. cbn in Hrecon. injection Hrecon as <-.
  vm_compute in Hr. now apply Hr.
Qed.

(** C8, as amended.  [decodeAudioData] throws a [RangeError] on every byte
    array of odd length (the [Int16Array] view cannot be built), and a
    [NotSupportedError] when the array holds no complete frame or the context
    does not support the channel count or the rate.  On an array of even
    length with at least one frame, for a supported channel count and rate, it
    does not throw, whether or not the length is a multiple of
    2 x numChannels: every channel gets the whole frames, the 16-bit cells of
    a trailing partial frame are dropped. *)
Theorem decodeAudioData_lengths (data : list byte) (ctx : Pcm.AudioContext) (rate : Q)
    (numChannels : nat) :
  (Nat.even (length data) = false ->
     Pcm.decodeAudioData data ctx rate numChannels = Throw RangeError)
  /\ (Nat.even (length data) = true ->
      (Pcm.supportsChannels ctx numChannels = false \/ Pcm.supportsRate ctx rate = false
       \/ numChannels = 0 \/ Nat.div2 (length data) < numChannels)%nat ->
      Pcm.decodeAudioData data ctx rate numChannels = Throw NotSupportedError)
  /\ (Nat.even (length data) = true ->
      Pcm.supportsChannels ctx numChannels = true ->
      Pcm.supportsRate ctx rate = true ->
      (1 <= numChannels <= Nat.div2 (length data))%nat ->
      exists buf,
        Pcm.decodeAudioData data ctx rate numChannels = Ok buf
        /\ length (Pcm.channels buf) = numChannels
        /\ forall channel, (channel < numChannels)%nat ->
             exists channelData,
               Pcm.channels buf !! channel = Some channelData
               /\ length channelData = (Nat.div2 (length data) / numChannels)%nat
               /\ forall i, (i < length channelData)%nat ->
                    exists v,
                      Pcm.int16_cells data !! (i * numChannels + channel)%nat = Some v
                      /\ channelData !! i = Some (Num (inject_Z v / 32768))).
Proof.
  split; [apply decodeAudioData_odd|]. split.
  - intros Heven Hbad. unfold Pcm.decodeAudioData, Pcm.Int16Array_of_buffer.
    rewrite Heven. cbn [js_bind]. rewrite length_int16_cells.
    unfold Pcm.createBuffer.
    destruct (Pcm.supportsChannels ctx numChannels); [|reflexivity].
    destruct (Pcm.supportsRate ctx rate); [|reflexivity]. cbn [negb orb].
    destruct (Nat.eqb_spec numChannels 0) as [->|Hc]; [reflexivity|]. cbn [orb].
    destruct Hbad as [Hbad|[Hbad|[Hbad|Hfew]]]; try discriminate; [contradiction|].
    fold (frameCount (Nat.div2 (length data)) numChannels).
    rewrite truncate_frameCount, Nat2Z.id by lia.
    rewrite Nat.div_small by assumption. reflexivity.
  - intros Heven Hchannels Hrate Hc. rewrite decodeAudioData_even by assumption.
    eexists. split; [reflexivity|]. cbn [Pcm.channels].
    split; [now rewrite length_map, length_seq|].
    intros channel Hch.
    exists (channel_samples (Pcm.int16_cells data) numChannels channel
              (Nat.div2 (length data) / numChannels)).
    split.
    { change (map ?f ?l) with (f <$> l). rewrite list_lookup_fmap.
      now rewrite lookup_seq_lt. }
    unfold channel_samples at 1 2. rewrite length_map, length_seq.
    split; [reflexivity|]. intros i Hi.
    destruct (read_scaled_in_range (Pcm.int16_cells data) numChannels channel i Hch)
      as (v & Hv & Hread).
    { now rewrite length_int16_cells. }
    exists v. split; [exact Hv|]. unfold channel_samples.
    change (map ?f ?l) with (f <$> l). rewrite list_lookup_fmap.
    rewrite lookup_seq_lt by assumption. cbn. now rewrite Hread.
Qed.

Lemma decodeAudioData_lengths_witness :
  Nat.even (length [x01; x00; x02; x00; x03; x00]) = true
  /\ Pcm.supportsChannels browser_ctx 2 = true
  /\ Pcm.supportsRate browser_ctx 24000 = true
  /\ (1 <= 2 <= Nat.div2 (length [x01; x00; x02; x00; x03; x00]))%nat
  /\ exists buf,
       Pcm.decodeAudioData [x01; x00; x02; x00; x03; x00] browser_ctx 24000 2 = Ok buf
       /\ length (Pcm.channels buf) = 2%nat.
Proof.
  assert (Heven : Nat.even (length [x01; x00; x02; x00; x03; x00]) = true) by reflexivity.
  assert (Hchannels : Pcm.supportsChannels browser_ctx 2 = true) by reflexivity.
  assert (Hrate : Pcm.supportsRate browser_ctx 24000 = true) by reflexivity.
  assert (Hc : (1 <= 2 <= Nat.div2 (length [x01; x00; x02; x00; x03; x00]))%nat)
    by (vm_compute; lia).
  split; [exact Heven|]. split; [exact Hchannels|]. split; [exact Hrate|].
  split; [exact Hc|].
  destruct (proj2 (proj2 (decodeAudioData_lengths [x01; x00; x02; x00; x03; x00]
                            browser_ctx 24000 2))
              Heven Hchannels Hrate Hc) as (buf & Hbuf & Hlen & _).
  exists buf. split; [exact Hbuf|exact Hlen].
Defined.

(** C8 fails as stated: three bytes are not a multiple of 2 x 1, and the
    decoder throws. *)
Lemma decodeAudioData_counterexample :
  (length [x00; x00; x00] mod (2 * 1) <> 0)%nat
  /\ Pcm.decodeAudioData [x00; x00; x00] browser_ctx 24000 1 = Throw RangeError.
Proof. split; [vm_compute; discriminate|reflexivity]. Qed.

End CodecClaims.

(** ** The face *)

Section FaceClaims.

Ltac in_list :=
  repeat first [apply list_elem_of_here | apply list_elem_of_further].

Lemma not_base_mood (name mood : string) :
  name ∉ base_moods -> mood ∈ base_moods -> String.eqb name mood = false.
Proof.
  intros Hname Hmood. destruct (String.eqb_spec name mood) as [->|]; [contradiction|reflexivity].
Qed.

Lemma base_mood_not_inherited (name : string) : name ∈ base_moods -> inherited name = false.
Proof.
  intros H. unfold base_moods in H. unfold inherited.
  repeat (apply elem_of_cons in H as [->|H]; [reflexivity|]).
  now apply elem_of_nil in H.
Qed.

Lemma eye_switch_default (name : JsString) (isLeft : bool) (d : EyeShape) :
  (forall mood, mood ∈ base_moods -> is_str name mood = false) ->
  eye_switch name isLeft d = d.
Proof.
  intros H. unfold eye_switch. destruct d.
  rewrite !H by (unfold base_moods; in_list). reflexivity.
Qed.

Lemma mouth_switch_default (name : JsString) (d : MouthShape) :
  (forall mood, mood ∈ base_moods -> is_str name mood = false) ->
  mouth_switch name d = d.
Proof.
  intros H. unfold mouth_switch.
  rewrite !H by (unfold base_moods; in_list). reflexivity.
Qed.

Lemma unresolved_is_no_mood (status : Status) (name : string)
    (customMap : gmap string CustomExpression) (boredom : Z) :
  name ∉ base_moods -> customMap !! name = None ->
  EmoFace status name customMap boredom
  = (if inherited name then (None, None) else (Some name, Some name))
  /\ forall mood, mood ∈ base_moods ->
       is_str (fst (EmoFace status name customMap boredom)) mood = false
       /\ is_str (snd (EmoFace status name customMap boredom)) mood = false.
Proof.
  intros Hname Hnone.
  assert (Hneutral : String.eqb name "neutral" = false).
  { apply not_base_mood; [assumption|]. unfold base_moods. in_list. }
  assert (Heq : EmoFace status name customMap boredom
                = (if inherited name then (None, None) else (Some name, Some name))).
  { unfold EmoFace. rewrite Hnone, Hneutral. now destruct (inherited name). }
  split; [exact Heq|]. intros mood Hmood. rewrite Heq.
  destruct (inherited name); cbn; [now split|].
  now rewrite not_base_mood.
Qed.

(** C6, as amended.  A base mood that the registry does not redefine resolves
    to (name, name), and a registered name to its (eyeBase, mouthBase) pair,
    except that while [status] is idle and [boredom] exceeds 40 the eye of
    [neutral] is [distracted], or [sleepy] above 80.  An unregistered name
    that is no base mood is not replaced by [neutral]: it is passed on
    unchanged ([undefined] for a name inherited from [Object.prototype]), and
    [EmoEye] and [EmoMouth], finding no [case] for it, draw their default
    shape, which is what they draw for [neutral] unless [status] is
    [listening] or [thinking].  So every expression reaches a defined shape. *)
Theorem expression_resolution (status : Status) (name : string)
    (customMap : gmap string CustomExpression) (boredom : Z) :
  let bored := name = "neutral"%string /\ status = idle /\ 40 < boredom in
  let face := EmoFace status name customMap boredom in
  (name ∈ base_moods -> customMap !! name = None ->
     snd face = Some name /\ (~ bored -> fst face = Some name))
  /\ (forall custom, customMap !! name = Some custom ->
        snd face = Some (mouthBase custom) /\ (~ bored -> fst face = Some (eyeBase custom)))
  /\ (bored ->
        fst face = Some (if 80 <? boredom then "sleepy"%string else "distracted"%string))
  /\ (name ∉ base_moods -> customMap !! name = None ->
        face = (if inherited name then (None, None) else (Some name, Some name))
        /\ (forall state isLeft blink,
              EmoEye state (fst face) isLeft false blink = eye_unswitched state blink)
        /\ (forall state isLeft blink,
              state <> listening -> state <> thinking ->
              EmoEye state (fst face) isLeft false blink
              = EmoEye state (Some "neutral"%string) isLeft false blink)
        /\ (forall state intensity,
              EmoMouth state intensity (snd face) false
              = EmoMouth state intensity (Some "neutral"%string) false)).
Proof.
  intros bored face. subst bored face.
  assert (Hover : forall eye : JsString,
    (if String.eqb name "neutral" && Status_eqb status idle
     then if 80 <? boredom then Some "sleepy"%string
          else if 40 <? boredom then Some "distracted"%string else eye
     else eye)
    = (if String.eqb name "neutral" && Status_eqb status idle && (40 <? boredom)
       then Some (if 80 <? boredom then "sleepy"%string else "distracted"%string)
       else eye)).
  { intros eye. destruct (String.eqb name "neutral" && Status_eqb status idle); [|reflexivity].
    cbn [andb]. destruct (Z.ltb_spec 80 boredom), (Z.ltb_spec 40 boredom); try reflexivity; lia. }
  assert (Hbored : String.eqb name "neutral" && Status_eqb status idle && (40 <? boredom) = true
                   <-> name = "neutral"%string /\ status = idle /\ 40 < boredom).
  { rewrite !andb_true_iff, String.eqb_eq, Status_eqb_eq, Z.ltb_lt. tauto. }
  split; [|split; [|split]].
  - intros Hbase Hnone. unfold EmoFace. rewrite Hnone, base_mood_not_inherited by assumption.
    rewrite Hover. cbn [fst snd]. split; [reflexivity|]. intros Hnot.
    destruct (String.eqb name "neutral" && Status_eqb status idle && (40 <? boredom)) eqn:E;
      [|reflexivity].
    exfalso. now apply Hnot, Hbored.
  - intros custom Hsome. unfold EmoFace. rewrite Hsome, Hover. cbn [fst snd].
    split; [reflexivity|]. intros Hnot.
    destruct (String.eqb name "neutral" && Status_eqb status idle && (40 <? boredom)) eqn:E;
      [|reflexivity].
    exfalso. now apply Hnot, Hbored.
  - intros Hb. apply Hbored in Hb. unfold EmoFace.
    destruct (customMap !! name) as [custom|]; [|destruct (inherited name)];
      rewrite Hover, Hb; reflexivity.
  - intros Hname Hnone.
    destruct (unresolved_is_no_mood status name customMap boredom Hname Hnone) as [Heq Hno].
    split; [exact Heq|].
    assert (Heye : forall mood, mood ∈ base_moods ->
              is_str (fst (EmoFace status name customMap boredom)) mood = false)
      by (intros mood Hm; exact (proj1 (Hno mood Hm))).
    assert (Hmouth : forall mood, mood ∈ base_moods ->
              is_str (snd (EmoFace status name customMap boredom)) mood = false)
      by (intros mood Hm; exact (proj2 (Hno mood Hm))).
    assert (Hn : is_str (fst (EmoFace status name customMap boredom)) "neutral" = false)
      by (apply Heye; unfold base_moods; in_list).
    assert (Hshape : forall state isLeft blink,
              EmoEye state (fst (EmoFace status name customMap boredom)) isLeft false blink
              = eye_unswitched state blink).
    { intros state isLeft blink. unfold EmoEye, eye_unswitched, eye_activeExpression.
      rewrite Hn, andb_false_r. cbv iota. rewrite Hn, andb_false_r. cbv iota.
      rewrite eye_switch_default by exact Heye. reflexivity. }
    split; [exact Hshape|]. split.
    + intros state isLeft blink Hl Ht. rewrite Hshape.
      destruct state; try contradiction; reflexivity.
    + intros state intensity. unfold EmoMouth.
      destruct (Status_eqb state speaking); [reflexivity|].
      rewrite mouth_switch_default by exact Hmouth. reflexivity.
Qed.

Lemma expression_resolution_witness :
  ("banana"%string ∉ base_moods)
  /\ (∅ : gmap string CustomExpression) !! "banana"%string = None
  /\ EmoFace idle "banana" ∅ 90 = (Some "banana"%string, Some "banana"%string)
  /\ EmoEye idle (fst (EmoFace idle "banana" ∅ 90)) true false false
     = EmoEye idle (Some "neutral"%string) true false false.
Proof.
  assert (Hname : "banana"%string ∉ base_moods).
  { unfold base_moods. intros H.
    repeat (apply elem_of_cons in H as [H|H]; [discriminate H|]).
    now apply elem_of_nil in H. }
  assert (Hnone : (∅ : gmap string CustomExpression) !! "banana"%string = None)
    by apply lookup_empty.
  split; [exact Hname|]. split; [exact Hnone|].
  destruct (proj2 (proj2 (proj2 (expression_resolution idle "banana" ∅ 90))) Hname Hnone)
    as (Hface & _ & Hsame & _).
  split; [exact Hface|]. apply Hsame; discriminate.
Defined.

(** C6 fails as stated: [neutral] is a base mood, yet while the face is idle
    and bored its eye resolves to [sleepy]; and an unregistered name resolves
    to itself, not to [neutral]. *)
Lemma expression_resolution_counterexample :
  ("neutral"%string ∈ base_moods)
  /\ EmoFace idle "neutral" ∅ 81 = (Some "sleepy"%string, Some "neutral"%string)
  /\ EmoFace idle "neutral" ∅ 81 <> (Some "neutral"%string, Some "neutral"%string)
  /\ EmoFace idle "banana" ∅ 0 <> (Some "neutral"%string, Some "neutral"%string)
  /\ EmoEye listening (fst (EmoFace listening "banana" ∅ 0)) true false false
     <> EmoEye listening (Some "neutral"%string) true false false.
Proof.
  split; [unfold base_moods; in_list|].
  assert (H1 : EmoFace idle "neutral" ∅ 81 = (Some "sleepy"%string, Some "neutral"%string)).
  { unfold EmoFace. rewrite lookup_empty. reflexivity. }
  assert (H2 : EmoFace idle "banana" ∅ 0 = (Some "banana"%string, Some "banana"%string)).
  { unfold EmoFace. rewrite lookup_empty. reflexivity. }
  assert (H3 : EmoFace listening "banana" ∅ 0 = (Some "banana"%string, Some "banana"%string)).
  { unfold EmoFace. rewrite lookup_empty. reflexivity. }
  split; [exact H1|]. rewrite H1, H2, H3.
  split; [discriminate|]. split; [discriminate|]. cbn. discriminate.
Qed.

End FaceClaims.
(** ** Witnesses and counterexamples for the conversation state *)

Section Instances.





(** C3: of the three calls of [lost_calls] only the first is answered when
    the code of the second throws [null]. *)
Lemma tool_replies_lost_witness :
  let st := onopen (initial ∅ (15 # 1000)) in
  toolCall lost_message = Some (Some lost_calls)
  /\ length lost_calls = 3%nat
  /\ toolResponses (trace (onmessage null_env lost_message st))
     = [mkResponse "call-1" "set_expression" "ok"].
Proof.
  cbn zeta.
  assert (Hcalls : toolCall lost_message
                   = Some (Some ([mkCall "call-1" "set_expression"
                                    (Some {[ "expression"%string := "happy"%string ]})]
                                 ++ mkCall "call-2" "execute_javascript"
                                      (Some {[ "code"%string := "throw null"%string ]})
                                 :: [mkCall "call-3" "dance" (Some ∅)])))
    by reflexivity.
  assert (Hsess : sessionRef (onopen (initial ∅ (15 # 1000))) = true) by reflexivity.
  split; [reflexivity|]. split; [reflexivity|].
  destruct (tool_replies_lost null_env lost_message _ _ _ _ Hcalls Hsess
              ltac:(reflexivity) ltac:(reflexivity))
    as (_ & Hsent & _).
  exact Hsent.
Defined.

(** The same happens when a call comes without arguments: nothing is
    answered, not even the call that follows it. *)
Example bare_arguments_unanswered :
  toolResponses (trace (onmessage quiet_env bare_message (onopen (initial ∅ (15 # 1000)))))
  = [].
Proof. vm_compute. reflexivity. Qed.

Lemma vad_hangover_witness :
  let st := onopen (initial ∅ (15 # 1000)) in
  let silents := [still_frame; still_frame; still_frame; still_frame; still_frame] in
  sessionRef st = true
  /\ active st loud_frame = true
  /\ length silents = 5%nat
  /\ Forall (fun f => active st f = false) (silents ++ [still_frame])
  /\ forwarded (trace (frames (loud_frame :: silents ++ [still_frame]) st))
     = forwarded (trace st) ++ map Pcm.createBlob (loud_frame :: silents).
Proof.
  cbn zeta.
  assert (Hsess : sessionRef (onopen (initial ∅ (15 # 1000))) = true) by reflexivity.
  assert (Hloud : active (onopen (initial ∅ (15 # 1000))) loud_frame = true)
    by (vm_compute; reflexivity).
  assert (Hlen : length [still_frame; still_frame; still_frame; still_frame; still_frame]
                 = 5%nat) by reflexivity.
  assert (Hstill : Forall (fun f => active (onopen (initial ∅ (15 # 1000))) f = false)
                     ([still_frame; still_frame; still_frame; still_frame; still_frame]
                        ++ [still_frame])).
  { repeat constructor. }
  split; [exact Hsess|]. split; [exact Hloud|]. split; [exact Hlen|]. split; [exact Hstill|].
  exact (proj1 (vad_hangover _ loud_frame _ still_frame Hsess Hloud Hlen Hstill)).
Defined.

(** C9 on two chunks: the first has ended and the second is still pending;
    when it ends too, the set is empty and the next render shows [idle]. *)
Lemma idle_convergence_witness :
  let st := run ∅ (15 # 1000) two_chunks in
  ended_after_start (initial ∅ (15 # 1000)) (two_chunks ++ [SourceEnded 1%nat]) = true
  /\ startedSources (trace st) = [0%nat; 1%nat]
  /\ endedSources two_chunks = [0%nat]
  /\ sources st = [1%nat]
  /\ sources (onended 1%nat st) = []
  /\ status (render (onended 1%nat st)) = idle.
Proof.
  assert (Hended : ended_after_start (initial ∅ (15 # 1000))
                     (two_chunks ++ [SourceEnded 1%nat]) = true)
    by (vm_compute; reflexivity).
  assert (Hsources : sources (run ∅ (15 # 1000) two_chunks) = [1%nat])
    by (vm_compute; reflexivity).
  assert (Hlast : forall s, s ∈ sources (run ∅ (15 # 1000) two_chunks) -> s = 1%nat).
  { intros s. rewrite Hsources. apply list_elem_of_singleton. }
  cbn zeta. split; [exact Hended|]. split; [vm_compute; reflexivity|].
  split; [reflexivity|]. split; [exact Hsources|].
  destruct (idle_convergence ∅ (15 # 1000) two_chunks 1%nat Hended) as (_ & _ & _ & Hidle).
  destruct (Hidle Hlast) as (Hempty & _ & Hstatus & _).
  split; [exact Hempty|exact Hstatus].
Defined.

(** C10 fails as stated: the interval has ticked once, then a loud frame asks
    for [listening]; the render that shows [listening] still shows the
    boredom of before, and only the render after the effect shows 0. *)
Lemma boredom_counterexample :
  let st := run ∅ (15 # 1000) bored_events in
  status st = listening
  /\ boredom st = 1
  /\ boredom (run ∅ (15 # 1000) (bored_events ++ [EffectsRun; Rendered])) = 0.
Proof. cbn zeta. repeat split; vm_compute; reflexivity. Qed.

Lemma boredom_invariants_witness :
  let st := run ∅ (15 # 1000) [BoredomTick; Rendered] in
  statusRef st = idle
  /\ boredom st = 1
  /\ upcomingBoredom (step st BoredomTick) = 2.
Proof.
  assert (Href : statusRef (run ∅ (15 # 1000) [BoredomTick; Rendered]) = idle)
    by reflexivity.
  cbn zeta. split; [exact Href|]. split; [reflexivity|].
  destruct (boredom_invariants ∅ (15 # 1000) [BoredomTick; Rendered])
    as (_ & _ & _ & Htick & _).
  rewrite (Htick Href). reflexivity.
Defined.

(** C7: the argument of [set_expression] is stored without any check.  Here
    it is neither a base mood nor a key of the (empty) registry, and it
    becomes the current expression all the same. *)
Lemma set_expression_unchecked :
  let st := onopen (initial ∅ (15 # 1000)) in
  let fc := mkCall "call-1" "set_expression"
              (Some {[ "expression"%string := "banana"%string ]}) in
  ("banana"%string ∉ base_moods)
  /\ customExpressions st !! "banana"%string = None
  /\ expression st = "happy"%string
  /\ expression (fst (handleFunctionCall quiet_env fc st)) = "banana"%string.
Proof.
  cbn zeta. split.
  { unfold base_moods. intros H.
    repeat (apply elem_of_cons in H as [H|H]; [discriminate H|]).
    now apply elem_of_nil in H. }
  split; [apply lookup_empty|]. split; [reflexivity|].
  vm_compute. reflexivity.
Qed.

End Instances.

(** ** More on the codec *)

Section CodecMore.

Lemma length_string_of_list_ascii (l : list ascii) :
  String.length (string_of_list_ascii l) = length l.
Proof. induction l as [|c l IH]; [reflexivity|]. cbn. now rewrite IH. Qed.

Lemma length_padding (n : nat) : length (Pcm.padding n) = ((3 - n mod 3) mod 3)%nat.
Proof. unfold Pcm.padding. apply repeat_length. Qed.

Lemma length_btoa (s : string) :
  String.length (Pcm.btoa s) = (4 * ((String.length s + 2) / 3))%nat.
Proof.
  unfold Pcm.btoa.
  set (codes := map Pcm.char_code (list_ascii_of_string s)).
  assert (Hlen : length codes = String.length s).
  { unfold codes. rewrite length_map. clear codes.
    induction s as [|c s IH]; [reflexivity|]. cbn. now rewrite IH. }
  rewrite length_string_of_list_ascii, length_app, length_map, length_padding, <- Hlen.
  destruct (sextets_shape codes) as [k|k|k].
  - rewrite <- (Nat.mod_unique (3 * k) 3 k 0), <- (Nat.div_unique (3 * k + 2) 3 k 2) by lia.
    change ((3 - 0) mod 3)%nat with 0%nat. lia.
  - rewrite <- (Nat.mod_unique (3 * k + 1) 3 k 1),
      <- (Nat.div_unique (3 * k + 1 + 2) 3 (k + 1) 0) by lia.
    change ((3 - 1) mod 3)%nat with 2%nat. lia.
  - rewrite <- (Nat.mod_unique (3 * k + 2) 3 k 2),
      <- (Nat.div_unique (3 * k + 2 + 2) 3 (k + 1) 1) by lia.
    change ((3 - 2) mod 3)%nat with 1%nat. lia.
Qed.

Lemma length_binary (bytes : list byte) :
  String.length (string_of_list_ascii (map ascii_of_byte bytes)) = length bytes.
Proof. now rewrite length_string_of_list_ascii, length_map. Qed.

Lemma b64_char_in (n : Z) : In (Pcm.b64_char n) Pcm.b64_alphabet \/ Pcm.b64_char n = "="%char.
Proof.
  unfold Pcm.b64_char.
  destruct (nth_in_or_default (Z.to_nat n) Pcm.b64_alphabet "="%char); auto.
Qed.

(** [encode] followed by [decode] gives the bytes back, whatever they are. *)
Theorem encode_round_trip (bytes : list byte) :
  Pcm.decode (Pcm.encode bytes) = Ok bytes.
Proof. apply decode_encode. Qed.

(** [encode] yields four characters for every group of three bytes, the last
    group padded: all of them are characters of the base64 alphabet or ["="]. *)
Theorem encode_format (bytes : list byte) :
  String.length (Pcm.encode bytes) = (4 * ((length bytes + 2) / 3))%nat
  /\ Forall (fun c => In c Pcm.b64_alphabet \/ c = "="%char)
       (list_ascii_of_string (Pcm.encode bytes)).
Proof.
  unfold Pcm.encode. rewrite binary_string, append_empty_l. split.
  - now rewrite length_btoa, length_binary.
  - unfold Pcm.btoa. rewrite list_ascii_of_string_of_list_ascii.
    apply Forall_app. split.
    + apply List.Forall_forall. intros c Hc.
      apply List.in_map_iff in Hc as (n & <- & _). apply b64_char_in.
    + apply List.Forall_forall. intros c Hc. right.
      unfold Pcm.padding in Hc. now apply repeat_spec in Hc.
Qed.

Lemma index_of_Some (c : ascii) (l : list ascii) (i n : Z) :
  Pcm.index_of c l i = Some n -> In c l.
Proof.
  revert i. induction l as [|d l IH]; intros i; cbn [Pcm.index_of]; [discriminate|].
  destruct (Ascii.eqb_spec c d) as [->|Hne]; [now left|].
  intros H. right. eauto.
Qed.

Lemma alphabet_not_whitespace (c : ascii) :
  In c Pcm.b64_alphabet -> Pcm.is_ascii_whitespace c = false.
Proof.
  intros H.
  assert (Hall : forallb (fun c => negb (Pcm.is_ascii_whitespace c)) Pcm.b64_alphabet = true)
    by (vm_compute; reflexivity).
  rewrite forallb_forall in Hall. now apply negb_true_iff, Hall.
Qed.

Lemma filter_alphabet (l : list ascii) :
  Forall (fun c => In c Pcm.b64_alphabet) l ->
  List.filter (fun c => negb (Pcm.is_ascii_whitespace c)) l = l.
Proof.
  induction 1 as [|c l Hc _ IH]; [reflexivity|].
  cbn [List.filter]. rewrite (alphabet_not_whitespace c Hc). cbn [negb]. now rewrite IH.
Qed.

Lemma strip_padding_keeps (c : ascii) (l : list ascii) :
  c <> "="%char -> In c l -> In c (Pcm.strip_padding l).
Proof.
  intros Hc Hin. unfold Pcm.strip_padding.
  destruct (length l mod 4 =? 0)%nat; [|assumption].
  destruct (rev l) as [|c1 [|c2 r]] eqn:Hrev; [assumption| |].
  - destruct (Ascii.eqb_spec c1 "="); [|assumption].
    apply in_rev in Hin. rewrite Hrev in Hin. destruct Hin as [<-|[]]. contradiction.
  - apply in_rev in Hin. rewrite Hrev in Hin.
    destruct (Ascii.eqb_spec c1 "=") as [->|]; [|now apply in_rev; rewrite Hrev].
    destruct Hin as [<-|Hin]; [contradiction|].
    destruct (Ascii.eqb_spec c2 "=") as [->|].
    + destruct Hin as [<-|Hin]; [contradiction|]. now apply in_rev in Hin.
    + now apply in_rev in Hin.
Qed.

Lemma indices_None (c : ascii) (l : list ascii) :
  In c l -> Pcm.b64_index c = None -> Pcm.indices l = None.
Proof.
  intros Hin Hc. induction l as [|d l IH]; [destruct Hin|].
  cbn [Pcm.indices]. destruct Hin as [->|Hin].
  - now rewrite Hc.
  - rewrite (IH Hin). now destruct (Pcm.b64_index d).
Qed.

(** [decode] has no error handling of its own: it throws the
    [InvalidCharacterError] of [atob] on a string that holds a character outside
    the base64 alphabet (other than ASCII whitespace and ["="]), and on a
    string of alphabet characters whose length is 1 modulo 4. *)
Theorem decode_rejects (base64 : string) :
  (exists c, In c (list_ascii_of_string base64)
             /\ Pcm.b64_index c = None
             /\ Pcm.is_ascii_whitespace c = false
             /\ c <> "="%char)
  \/ (Forall (fun c => In c Pcm.b64_alphabet) (list_ascii_of_string base64)
      /\ (String.length base64 mod 4 = 1)%nat) ->
  Pcm.decode base64 = Throw InvalidCharacterError.
Proof.
  intros H. unfold Pcm.decode, Pcm.atob.
  set (data := Pcm.strip_padding _).
  assert (Hdata : (length data mod 4 = 1)%nat \/ Pcm.indices data = None).
  { destruct H as [(c & Hin & Hidx & Hws & Hpad)|[Hall Hlen]].
    - right. apply (indices_None c); [|assumption].
      apply strip_padding_keeps; [assumption|].
      apply List.filter_In. split; [assumption|]. now rewrite Hws.
    - left. unfold data. rewrite filter_alphabet by assumption.
      assert (Hl : length (list_ascii_of_string base64) = String.length base64).
      { clear. induction base64 as [|c s IH]; [reflexivity|]. cbn. now rewrite IH. }
      unfold Pcm.strip_padding. rewrite Hl, Hlen. cbn [Nat.eqb]. now rewrite Hl. }
  destruct (Nat.eqb_spec (length data mod 4) 1) as [|Hne]; [reflexivity|].
  destruct Hdata as [Hd|Hd]; [contradiction|now rewrite Hd].
Qed.

Lemma decode_rejects_witness :
  In "*"%char (list_ascii_of_string "AA*A")
  /\ Pcm.b64_index "*" = None
  /\ Pcm.decode "AA*A" = Throw InvalidCharacterError.
Proof.
  assert (Hin : In "*"%char (list_ascii_of_string "AA*A")) by (vm_compute; tauto).
  assert (Hidx : Pcm.b64_index "*" = None) by reflexivity.
  split; [exact Hin|]. split; [exact Hidx|].
  apply (decode_rejects "AA*A"). left. exists "*"%char.
  split; [exact Hin|]. split; [exact Hidx|]. split; [reflexivity|discriminate].
Defined.

(** Whatever the samples (out of range, [NaN]), the payload [createBlob]
    builds is valid base64 for two bytes per sample: the little-endian 16-bit
    integers the samples were converted to. *)
Theorem createBlob_payload (samples : list jsnum) :
  exists bytes,
    Pcm.decode (Pcm.data (Pcm.createBlob samples)) = Ok bytes
    /\ length bytes = (2 * length samples)%nat
    /\ Pcm.int16_cells bytes = map (fun x => ToInt16 (js_mul x 32768)) samples
    /\ Pcm.mimeType (Pcm.createBlob samples) = "audio/pcm;rate=16000"%string.
Proof.
  eexists. unfold Pcm.createBlob. cbn [Pcm.data Pcm.mimeType].
  split; [apply decode_encode|]. split; [|split; [|reflexivity]].
  - now rewrite length_view, length_map.
  - apply int16_cells_view. apply List.Forall_forall. intros v Hv.
    apply List.in_map_iff in Hv as (x & <- & _). apply ToInt16_range.
Qed.

Lemma decodeAudioData_Ok (data : list byte) (ctx : Pcm.AudioContext) (rate : Q) (c : nat)
    (buf : Pcm.AudioBuffer) :
  Pcm.decodeAudioData data ctx rate c = Ok buf ->
  Nat.even (length data) = true
  /\ Pcm.supportsChannels ctx c = true
  /\ Pcm.supportsRate ctx rate = true
  /\ (1 <= c <= Nat.div2 (length data))%nat.
Proof.
  unfold Pcm.decodeAudioData, Pcm.Int16Array_of_buffer.
  destruct (Nat.even (length data)); [|discriminate]. cbn [js_bind].
  rewrite length_int16_cells. fold (frameCount (Nat.div2 (length data)) c).
  unfold Pcm.createBuffer.
  destruct (Pcm.supportsChannels ctx c); [|discriminate].
  destruct (Pcm.supportsRate ctx rate); [|discriminate]. cbn [negb orb].
  destruct (Nat.eqb_spec c 0) as [|Hc]; [discriminate|]. cbn [orb].
  rewrite truncate_frameCount, Nat2Z.id by lia.
  destruct (Nat.eqb_spec (Nat.div2 (length data) / c) 0) as [|Hf]; [discriminate|].
  intros _. repeat split; try lia.
  destruct (Nat.le_gt_cases c (Nat.div2 (length data))) as [|Hlt]; [assumption|].
  rewrite Nat.div_small in Hf by assumption. contradiction.
Qed.

Lemma scaled_in_range (v : Z) : is_int16 v -> (-1 <= inject_Z v / 32768 < 1)%Q.
Proof.
  unfold is_int16. intros [Hlo Hhi].
  rewrite Zle_Qle in Hlo. rewrite Zlt_Qlt in Hhi.
  change (inject_Z (-32768)) with (-32768)%Q in Hlo.
  change (inject_Z 32768) with 32768%Q in Hhi.
  unfold Qdiv. change (/ 32768)%Q with (1 # 32768)%Q. lra.
Qed.

(** Every sample [decodeAudioData] produces is a number in [-1, 1): the
    decoder never yields [NaN] or a value out of range. *)
Theorem decoded_samples_in_range (data : list byte) (ctx : Pcm.AudioContext) (rate : Q)
    (numChannels : nat) (buf : Pcm.AudioBuffer) :
  Pcm.decodeAudioData data ctx rate numChannels = Ok buf ->
  Forall (Forall (fun x => exists q, x = Num q /\ (-1 <= q < 1)%Q)) (Pcm.channels buf).
Proof.
  intros Hbuf. destruct (decodeAudioData_Ok _ _ _ _ _ Hbuf) as (Heven & Hch & Hrate & Hc).
  rewrite decodeAudioData_even in Hbuf by assumption. injection Hbuf as <-.
  cbn [Pcm.channels]. apply List.Forall_forall. intros cd Hcd.
  apply List.in_map_iff in Hcd as (ch & <- & Hin). apply in_seq in Hin.
  apply List.Forall_forall. intros x Hx. unfold channel_samples in Hx.
  apply List.in_map_iff in Hx as (i & <- & Hi). apply in_seq in Hi.
  destruct (read_scaled_in_range (Pcm.int16_cells data) numChannels ch i) as (v & Hv & ->).
  { lia. } { rewrite length_int16_cells. lia. }
  exists (inject_Z v / 32768)%Q. split; [reflexivity|]. apply scaled_in_range.
  pose proof (int16_cells_range data) as Hall. rewrite List.Forall_forall in Hall.
  apply Hall. apply list_elem_of_In. eapply list_elem_of_lookup_2, Hv.
Qed.

Lemma decoded_samples_in_range_witness :
  Pcm.decodeAudioData [x00; x80; xff; x7f] browser_ctx 24000 1
  = Ok (Pcm.mkAudioBuffer 24000 [[Num (inject_Z (-32768) / 32768); Num (inject_Z 32767 / 32768)]])
  /\ Forall (Forall (fun x => exists q, x = Num q /\ (-1 <= q < 1)%Q))
       [[Num (inject_Z (-32768) / 32768); Num (inject_Z 32767 / 32768)]].
Proof.
  assert (H : Pcm.decodeAudioData [x00; x80; xff; x7f] browser_ctx 24000 1
              = Ok (Pcm.mkAudioBuffer 24000
                      [[Num (inject_Z (-32768) / 32768); Num (inject_Z 32767 / 32768)]]))
    by reflexivity.
  split; [exact H|].
  exact (decoded_samples_in_range _ _ _ _ _ H).
Defined.

Lemma length_channel_samples (cells : list Z) (c ch frames : nat) :
  length (channel_samples cells c ch frames) = frames.
Proof. unfold channel_samples. now rewrite length_map, length_seq. Qed.

(** The buffer [decodeAudioData] returns has the rate and the channel count it
    was asked for and one frame for every [2 * numChannels] bytes, the rest
    dropped; its duration is that number of frames over the rate. *)
Theorem decoded_duration (data : list byte) (ctx : Pcm.AudioContext) (rate : Q)
    (numChannels : nat) (buf : Pcm.AudioBuffer) :
  Pcm.decodeAudioData data ctx rate numChannels = Ok buf ->
  Pcm.sampleRate buf = rate
  /\ length (Pcm.channels buf) = numChannels
  /\ Forall (fun cd => length cd = (length data / 2 / numChannels)%nat) (Pcm.channels buf)
  /\ Pcm.duration buf
     = (inject_Z (Z.of_nat (length data / 2 / numChannels)) / rate)%Q.
Proof.
  intros Hbuf. destruct (decodeAudioData_Ok _ _ _ _ _ Hbuf) as (Heven & Hch & Hrate & Hc).
  rewrite decodeAudioData_even in Hbuf by assumption. injection Hbuf as <-.
  rewrite <- Nat.div2_div. cbn [Pcm.sampleRate Pcm.channels].
  split; [reflexivity|]. split; [now rewrite length_map, length_seq|]. split.
  - apply List.Forall_forall. intros cd Hcd.
    apply List.in_map_iff in Hcd as (ch & <- & _). apply length_channel_samples.
  - unfold Pcm.duration, Pcm.buffer_length. cbn [Pcm.sampleRate Pcm.channels].
    destruct numChannels as [|n]; [lia|]. cbn [seq map].
    now rewrite length_channel_samples.
Qed.

Lemma decoded_duration_witness :
  Pcm.decodeAudioData [x01; x00; x02; x00; x03; x00; x04; x00; x05; x00] browser_ctx 24000 2
  = Ok (Pcm.mkAudioBuffer 24000
          [[Num (inject_Z 1 / 32768); Num (inject_Z 3 / 32768)];
           [Num (inject_Z 2 / 32768); Num (inject_Z 4 / 32768)]])
  /\ Pcm.duration
       (Pcm.mkAudioBuffer 24000
          [[Num (inject_Z 1 / 32768); Num (inject_Z 3 / 32768)];
           [Num (inject_Z 2 / 32768); Num (inject_Z 4 / 32768)]])
     = (inject_Z (Z.of_nat (10 / 2 / 2)) / 24000)%Q.
Proof.
  assert (H : Pcm.decodeAudioData [x01; x00; x02; x00; x03; x00; x04; x00; x05; x00]
                browser_ctx 24000 2
              = Ok (Pcm.mkAudioBuffer 24000
                      [[Num (inject_Z 1 / 32768); Num (inject_Z 3 / 32768)];
                       [Num (inject_Z 2 / 32768); Num (inject_Z 4 / 32768)]]))
    by reflexivity.
  split; [exact H|].
  exact (proj2 (proj2 (proj2 (decoded_duration _ _ _ _ _ H)))).
Defined.

Lemma int16_bytes_cell (lo hi : byte) :
  Pcm.int16_bytes (wrap_int16 (byte_to_Z lo + 256 * byte_to_Z hi)) = [lo; hi].
Proof.
  pose proof (byte_to_Z_range lo) as Hlo. pose proof (byte_to_Z_range hi) as Hhi.
  unfold Pcm.int16_bytes.
  assert (H : wrap_int16 (byte_to_Z lo + 256 * byte_to_Z hi) mod 256 = byte_to_Z lo
              /\ (wrap_int16 (byte_to_Z lo + 256 * byte_to_Z hi) / 256) mod 256
                 = byte_to_Z hi).
  { unfold wrap_int16.
    destruct (Z.leb_spec 32768 ((byte_to_Z lo + 256 * byte_to_Z hi) mod 65536));
      Z.div_mod_to_equations; lia. }
  destruct H as [-> ->]. now rewrite !byte_of_Z_to_Z.
Qed.

Lemma view_of_cells (data : list byte) :
  Nat.even (length data) = true ->
  Pcm.Uint8Array_of_buffer (Pcm.int16_cells data) = data.
Proof.
  induction data as [|a|a b l IH] using list_ind2; intros Heven.
  - reflexivity.
  - discriminate.
  - cbn [Pcm.int16_cells]. unfold Pcm.Uint8Array_of_buffer in *. cbn [flat_map].
    rewrite int16_bytes_cell. cbn [app]. now rewrite (IH Heven).
Qed.

Lemma quantize_scaled (v : Z) :
  is_int16 v -> ToInt16 (js_mul (Num (inject_Z v / 32768)) 32768) = v.
Proof.
  intros Hv. cbn [js_mul ToInt16].
  assert (Ht : truncate (inject_Z v / 32768 * 32768) = v).
  { unfold truncate, Qdiv, Qmult, Qinv, inject_Z. cbn [Qnum Qden].
    rewrite !Z.mul_1_r. cbn [Pos.mul]. apply Z.quot_mul. discriminate. }
  rewrite Ht. now apply wrap_int16_small.
Qed.

(** Decoding a chunk on one channel and encoding the samples again with
    [createBlob] gives the payload of [encode] on the original bytes: no
    information is lost in that direction. *)
Theorem reencode_decoded (data : list byte) (ctx : Pcm.AudioContext) (rate : Q)
    (buf : Pcm.AudioBuffer) :
  Pcm.decodeAudioData data ctx rate 1 = Ok buf ->
  exists samples,
    Pcm.channels buf = [samples]
    /\ Pcm.data (Pcm.createBlob samples) = Pcm.encode data.
Proof.
  intros Hbuf. destruct (decodeAudioData_Ok _ _ _ _ _ Hbuf) as (Heven & Hch & Hrate & Hc).
  pose proof (decodeAudioData_even data ctx rate 1 Hch Hrate Heven Hc) as E.
  rewrite Nat.div_1_r, <- length_int16_cells in E. cbn [seq map] in E.
  rewrite channel_samples_mono in E. rewrite E in Hbuf. injection Hbuf as <-.
  cbn [Pcm.channels]. eexists. split; [reflexivity|].
  unfold Pcm.createBlob. cbn [Pcm.data]. f_equal.
  rewrite map_map. rewrite <- (view_of_cells data Heven) at 2. f_equal.
  rewrite <- (map_id (Pcm.int16_cells data)) at 2.
  apply map_ext_in. intros v Hv. apply quantize_scaled.
  pose proof (int16_cells_range data) as Hall. rewrite List.Forall_forall in Hall.
  now apply Hall.
Qed.

Lemma reencode_decoded_witness :
  Pcm.decodeAudioData [x00; x80; xff; x7f] browser_ctx 24000 1
  = Ok (Pcm.mkAudioBuffer 24000 [[Num (inject_Z (-32768) / 32768); Num (inject_Z 32767 / 32768)]])
  /\ exists samples,
       [[Num (inject_Z (-32768) / 32768); Num (inject_Z 32767 / 32768)]] = [samples]
       /\ Pcm.data (Pcm.createBlob samples) = Pcm.encode [x00; x80; xff; x7f].
Proof.
  assert (H : Pcm.decodeAudioData [x00; x80; xff; x7f] browser_ctx 24000 1
              = Ok (Pcm.mkAudioBuffer 24000
                      [[Num (inject_Z (-32768) / 32768); Num (inject_Z 32767 / 32768)]]))
    by reflexivity.
  split; [exact H|].
  exact (reencode_decoded _ _ _ _ H).
Defined.

End CodecMore.

(** ** More on the gate *)

Section GateMore.

Lemma sum_NaN (l : list jsnum) :
  fold_left (fun a b => js_add a (js_abs b)) l NaN = NaN.
Proof. induction l as [|x l IH]; [reflexivity|exact IH]. Qed.

Lemma sum_Num (t : Q) (l : list jsnum) (a s : Q) :
  fold_left (fun a b => js_add a (js_abs b)) l (Num a) = Num s ->
  Forall (fun x => x <> NaN) l
  /\ (Exists (loud t) l \/ (s <= a + inject_Z (Z.of_nat (length l)) * t)%Q).
Proof.
  revert a. induction l as [|x l IH]; intros a Hs.
  - injection Hs as <-. split; [constructor|]. right.
    cbn [length]. change (inject_Z (Z.of_nat 0)) with 0%Q. lra.
  - cbn [fold_left] in Hs. destruct x as [q|]; cbn [js_abs js_add] in Hs.
    2:{ rewrite sum_NaN in Hs. discriminate. }
    destruct (IH _ Hs) as [Hnum Hrest]. split; [constructor; [discriminate|assumption]|].
    destruct Hrest as [Hex|Hle]; [left; now right|].
    destruct (Qlt_le_dec t (Qabs q)) as [Hq|Hq].
    + left. left. now exists q.
    + right. cbn [length]. rewrite Nat2Z.inj_succ, <- Z.add_1_r, inject_Z_plus.
      change (inject_Z 1) with 1%Q. lra.
Qed.

(** The gate takes a frame for speech only if the frame is not empty, holds no
    [NaN] and has a sample whose magnitude is above the threshold: the mean
    magnitude never exceeds the largest one. *)
Theorem gate_needs_loud_sample (st : AppState) (inputData : list jsnum) :
  active st inputData = true ->
  inputData <> []
  /\ Forall (fun x => x <> NaN) inputData
  /\ Exists (loud (noiseThreshold st)) inputData.
Proof.
  unfold active, volume. intros Ha.
  destruct (fold_left _ inputData (Num 0)) as [s|] eqn:Hs; [|discriminate].
  cbn [js_div_length] in Ha.
  destruct (Nat.eqb_spec (length inputData) 0) as [|Hlen]; [discriminate|].
  cbn [js_gt] in Ha.
  destruct (sum_Num (noiseThreshold st) _ _ _ Hs) as [Hnum Hloud].
  split; [now destruct inputData|]. split; [assumption|].
  destruct Hloud as [|Hle]; [assumption|]. exfalso.
  apply negb_true_iff in Ha. apply not_true_iff_false in Ha. apply Ha.
  apply Qle_bool_iff. apply Qle_shift_div_r.
  - change 0%Q with (inject_Z 0). rewrite <- Zlt_Qlt. lia.
  - lra.
Qed.

Lemma gate_needs_loud_sample_witness :
  active (initial ∅ (15 # 1000)) loud_frame = true
  /\ Exists (loud (15 # 1000)) loud_frame.
Proof.
  assert (H : active (initial ∅ (15 # 1000)) loud_frame = true) by reflexivity.
  split; [exact H|].
  exact (proj2 (proj2 (gate_needs_loud_sample _ _ H))).
Defined.

Lemma frame_forwarded (inputData : list jsnum) (st : AppState) :
  forwarded (trace (onaudioprocess inputData st)) = forwarded (trace st)
  \/ forwarded (trace (onaudioprocess inputData st))
     = forwarded (trace st) ++ [Pcm.createBlob inputData].
Proof.
  destruct (active st inputData) eqn:Ha.
  - destruct (active_frame _ _ Ha) as [_ ->].
    destruct (sessionRef st); [now right|left; apply app_nil_r].
  - destruct (silent_frame _ _ Ha) as [Hpos Hzero]. cbn zeta in *.
    destruct (Z.lt_ge_cases 0 (vadActive st)) as [Hv|Hv].
    + destruct (Hpos Hv) as [_ ->].
      destruct (sessionRef st); [now right|left; apply app_nil_r].
    + destruct Hzero as [_ ->]; [lia|now left].
Qed.

(** What the gate forwards over a run of captured frames is, in order, the
    payload of some of these frames, each at most once: frames are dropped,
    never reordered, repeated or altered. *)
Theorem gate_forwards_in_order (l : list (list jsnum)) (st : AppState) :
  exists sent,
    sublist sent l
    /\ forwarded (trace (frames l st)) = forwarded (trace st) ++ map Pcm.createBlob sent.
Proof.
  unfold frames. revert st. induction l as [|f l IH]; intros st; cbn [fold_left].
  - exists []. split; [constructor|now rewrite app_nil_r].
  - destruct (IH (onaudioprocess f st)) as (sent & Hsub & ->).
    destruct (frame_forwarded f st) as [-> | ->].
    + exists sent. split; [now constructor|reflexivity].
    + exists (f :: sent). split; [now constructor|]. now rewrite <- app_assoc.
Qed.

Lemma handled_vadActive (st st' : AppState) :
  handled st st' -> vadActive st' = vadActive st.
Proof.
  intros (env & st2 & sent & Hcore & _ & Hout).
  assert (H2 : vadActive st2 = vadActive st) by (unfold audio_core in Hcore; congruence).
  rewrite <- H2. destruct Hout; rewrite ?stopAllAudio_eq; reflexivity.
Qed.

Lemma step_vadActive (st : AppState) (e : Event) :
  (forall inputData, e <> AudioProcess inputData) -> vadActive (step st e) = vadActive st.
Proof.
  intros He.
  destruct e as [|inputData|env message|env k outcome|src| | | | | | | | | |].
  - destruct st; reflexivity.
  - now contradiction (He inputData).
  - apply handled_vadActive, step_handled. left. eauto.
  - apply handled_vadActive, step_handled. right. eauto.
  - cbn [step]. unfold onended. cbn [sources set_sources].
    destruct (length (Set_delete src (sources st)) =? 0)%nat; destruct st; reflexivity.
  - cbn [step]. unfold boredomTick.
    destruct (Status_eqb (statusRef st) idle); destruct st; reflexivity.
  - cbn [step]. unfold render, statusEffectRun.
    destruct (statusEffect st); cbn;
      repeat match goal with
             | |- context [if ?b then _ else _] => destruct b
             end; destruct st; reflexivity.
  - cbn [step]. unfold statusEffectRun.
    destruct (statusEffect st); cbn;
      repeat match goal with
             | |- context [if ?b then _ else _] => destruct b
             end; destruct st; reflexivity.
  - destruct st; reflexivity.
  - destruct st; reflexivity.
  - destruct st; reflexivity.
  - destruct st; reflexivity.
  - destruct st; reflexivity.
  - destruct st; reflexivity.
  - destruct st; reflexivity.
Qed.

Lemma frame_vadActive (inputData : list jsnum) (st : AppState) :
  0 <= vadActive st <= 5 -> 0 <= vadActive (onaudioprocess inputData st) <= 5.
Proof.
  intros Hv. destruct (active st inputData) eqn:Ha.
  - destruct (active_frame _ _ Ha) as [-> _]. lia.
  - destruct (silent_frame _ _ Ha) as [Hpos Hzero]. cbn zeta in *.
    destruct (Z.lt_ge_cases 0 (vadActive st)) as [H|H].
    + destruct (Hpos H) as [-> _]. lia.
    + destruct Hzero as [-> _]; lia.
Qed.

Lemma run_vadActive moods threshold events :
  0 <= vadActive (run moods threshold events) <= 5.
Proof.
  induction events as [|e events IH] using rev_ind; [cbn; lia|].
  rewrite run_snoc. destruct e; try (rewrite step_vadActive by discriminate; exact IH).
  cbn [step]. now apply frame_vadActive.
Qed.

Lemma silent_rest (silents : list (list jsnum)) (st : AppState) :
  Forall (fun f => active st f = false) silents ->
  vadActive st <= 0 ->
  forwarded (trace (frames silents st)) = forwarded (trace st).
Proof.
  unfold frames. revert st. induction silents as [|f l IH]; intros st Hsil Hv; [reflexivity|].
  inversion_clear Hsil as [|? ? Hf Hrest]. cbn [fold_left].
  destruct (silent_frame f st Hf) as [_ Hzero]. cbn zeta in Hzero.
  destruct (Hzero Hv) as [Hv' Ht]. rewrite IH; [assumption| |lia].
  eapply Forall_impl; [exact Hrest|]. cbn. intros g Hg.
  rewrite (active_same_threshold st); [assumption|]. apply frame_settings.
Qed.

(** In every state the component can reach, with the session open, a run of
    frames none of which is above the threshold has its first
    [vadActiveRef.current] frames forwarded and no other, and that counter is
    never above 5: silence is forwarded for at most five frames. *)
Theorem hangover_is_bounded moods threshold events (silents : list (list jsnum)) :
  let st := run moods threshold events in
  sessionRef st = true ->
  Forall (fun f => active st f = false) silents ->
  0 <= vadActive st <= 5
  /\ forwarded (trace (frames silents st))
     = forwarded (trace st) ++ map Pcm.createBlob (take (Z.to_nat (vadActive st)) silents).
Proof.
  cbn zeta. set (st := run moods threshold events). intros Hsess Hsil.
  pose proof (run_vadActive moods threshold events) as Hv. fold st in Hv.
  split; [exact Hv|].
  rewrite <- (take_drop (Z.to_nat (vadActive st)) silents) at 1.
  unfold frames. rewrite fold_left_app. fold (frames (take (Z.to_nat (vadActive st)) silents) st).
  set (head := take (Z.to_nat (vadActive st)) silents).
  destruct (silent_run head st) as [Hv' Ht'].
  - assumption.
  - now apply Forall_take.
  - unfold head. rewrite length_take. lia.
  - fold (frames (drop (Z.to_nat (vadActive st)) silents) (frames head st)).
    destruct (decide (length silents <= Z.to_nat (vadActive st))%nat) as [Hshort|Hlong].
    + rewrite drop_ge by assumption. exact Ht'.
    + rewrite silent_rest; [exact Ht'| |].
      * apply Forall_drop. eapply Forall_impl; [exact Hsil|]. cbn. intros g Hg.
        rewrite (active_same_threshold st); [assumption|]. apply frames_settings.
      * rewrite Hv'. unfold head. rewrite length_take. lia.
Qed.

Lemma hangover_is_bounded_witness :
  sessionRef (run ∅ (15 # 1000) [Connected; AudioProcess loud_frame]) = true
  /\ Forall (fun f => active (run ∅ (15 # 1000) [Connected; AudioProcess loud_frame]) f = false)
       (replicate 7 still_frame)
  /\ forwarded (trace (frames (replicate 7 still_frame)
                         (run ∅ (15 # 1000) [Connected; AudioProcess loud_frame])))
     = forwarded (trace (run ∅ (15 # 1000) [Connected; AudioProcess loud_frame]))
         ++ map Pcm.createBlob
              (take (Z.to_nat (vadActive (run ∅ (15 # 1000) [Connected; AudioProcess loud_frame])))
                 (replicate 7 still_frame)).
Proof.
  assert (Hs : sessionRef (run ∅ (15 # 1000) [Connected; AudioProcess loud_frame]) = true)
    by reflexivity.
  assert (Hf : Forall (fun f => active (run ∅ (15 # 1000) [Connected; AudioProcess loud_frame]) f
                                = false) (replicate 7 still_frame)).
  { repeat constructor. }
  split; [exact Hs|]. split; [exact Hf|].
  exact (proj2 (hangover_is_bounded ∅ (15 # 1000) [Connected; AudioProcess loud_frame]
                  (replicate 7 still_frame) Hs Hf)).
Defined.

End GateMore.

(** ** More on the tool calls *)

Section ToolsMore.






Lemma dispatchToolCall_await env message before fc after st :
  completes env before = true ->
  fst (verdict env fc) = Await ->
  dispatchToolCall env message (before ++ fc :: after) st
  = (let st1 := fst (dispatchToolCall env message before st) in
     let st2 := fst (handleFunctionCall env fc st1) in
     (set_awaiting (awaiting st2 ++ [mkSuspended fc after message]) st2, Await))
  /\ awaiting (fst (dispatchToolCall env message before st)) = awaiting st.
Proof.
  intros Hdone Hfc. revert st.
  induction before as [|c before IH]; intros st; cbn [app dispatchToolCall fst].
  - destruct (handleFunctionCall_spec env fc st) as (Hc & _).
    destruct (handleFunctionCall env fc st) as [st2 ctl]. cbn [fst snd] in *.
    rewrite Hc, Hfc. now split.
  - cbn [completes forallb] in Hdone. apply andb_true_iff in Hdone as [Hc Hrest].
    destruct (handleFunctionCall_spec env c st) as (Hv & _ & Hwait & _).
    destruct (handleFunctionCall env c st) as [st1 ctl]. cbn [fst snd] in *.
    rewrite Hv. destruct (fst (verdict env c)); try discriminate.
    destruct (IH Hrest st1) as [-> ->]. now split.
Qed.

(** A [toggle_vision] call for the camera or the screen is answered when the
    media request settles, not before: until then the session has the
    results of the calls before it; the vision that was on is off; and when
    the request is granted or refused with a message, the call gets the text
    [startVision] returns and the rest of the batch is handled. *)
Theorem vision_reply_deferred env env' (message : LiveServerMessage)
    (before after : list FunctionCall) (fc : FunctionCall) (args : gmap string string)
    (outcome : MediaOutcome) (text : string) (st : AppState) :
  toolCall message = Some (Some (before ++ fc :: after)) ->
  sessionRef st = true ->
  completes env before = true ->
  fc_name fc = "toggle_vision"%string ->
  fc_args fc = Some args ->
  is_str (args !! "type"%string) "none" = false ->
  snd (startVision_settled (args !! "type"%string) outcome st) = Some text ->
  let st1 := onmessage env message st in
  let st2 := visionSettled env' (length (awaiting st)) outcome st1 in
  toolResponses (trace st1) = toolResponses (trace st) ++ replies env before
  /\ visionType st1 = None
  /\ awaiting st1 = awaiting st ++ [mkSuspended fc after message]
  /\ toolResponses (trace st2)
     = toolResponses (trace st1)
         ++ mkResponse (fc_id fc) "toggle_vision" text :: replies env' after.
Proof.
  intros Hcalls Hsess Hdone Hname Hargs Htype Htext st1 st2.
  assert (Hfc : verdict env fc = (Await, None)).
  { unfold verdict. rewrite Hargs, Hname, Htype. reflexivity. }
  assert (Hst1 : st1 = fst (dispatchToolCall env message (before ++ fc :: after)
                              (transcribe message st))).
  { unfold st1. rewrite onmessage_eq. unfold afterTools. rewrite Hcalls.
    destruct (dispatchToolCall_await env message before fc after (transcribe message st) Hdone)
      as [-> _]; [now rewrite Hfc|reflexivity]. }
  destruct (dispatchToolCall_await env message before fc after (transcribe message st) Hdone)
    as [Heq Hwait]; [now rewrite Hfc|].
  rewrite Heq in Hst1. cbn [fst] in Hst1. clear Heq.
  destruct (transcribe_spec message st) as (Hcore0 & Hwait0 & Htrace0).
  set (stb := fst (dispatchToolCall env message before (transcribe message st))) in *.
  destruct (dispatchToolCall_spec env message before (transcribe message st))
    as (Hcoreb & Htraceb & _). fold stb in Hcoreb, Htraceb.
  assert (Hsb : sessionRef stb = true).
  { unfold audio_core in Hcoreb, Hcore0. congruence. }
  assert (Hs0 : sessionRef (transcribe message st) = true).
  { unfold audio_core in Hcore0. congruence. }
  rewrite Hs0 in Htraceb.
  assert (Hh : fst (handleFunctionCall env fc stb) = stopVision stb).
  { unfold handleFunctionCall. rewrite Hname, Hargs. cbn. now rewrite Htype. }
  rewrite Hh in Hst1.
  assert (Ht1 : trace st1 = trace st ++ map SendToolResponse (replies env before)).
  { rewrite Hst1. cbn. now rewrite Htraceb, Htrace0. }
  assert (Hw1 : awaiting st1 = awaiting st ++ [mkSuspended fc after message]).
  { rewrite Hst1. cbn. now rewrite Hwait, Hwait0. }
  split; [now rewrite Ht1, toolResponses_app, toolResponses_responses|].
  split; [now rewrite Hst1|]. split; [assumption|].
  unfold st2, visionSettled. rewrite Hw1.
  rewrite lookup_app_r, Nat.sub_diag by lia. cbn [lookup list_lookup].
  cbn [s_call s_rest s_message]. rewrite Hargs. cbn [mbind option_bind].
  set (st0 := set_awaiting _ st1).
  assert (Hsettle : exists st', startVision_settled (args !! "type"%string) outcome st0
                                = (st', Some text)
                                /\ trace st' = trace st1 /\ sessionRef st' = true).
  { assert (Hs1 : sessionRef st1 = true) by (rewrite Hst1; exact Hsb).
    destruct outcome; cbn in Htext |- *; try discriminate;
      injection Htext as <-; eexists; split; try reflexivity; split; auto. }
  destruct Hsettle as (st' & -> & Htrace' & Hsess').
  rewrite (toolResponses_outcome _ _ _ (afterCalls_outcome env' message _)).
  destruct (dispatchToolCall_spec env' message after (respond fc text st'))
    as (_ & -> & _).
  assert (Hsr : sessionRef (respond fc text st') = true).
  { pose proof (respond_core fc text st') as H. unfold audio_core in H. congruence. }
  rewrite Hsr, respond_trace, Hsess', Htrace'.
  rewrite !toolResponses_app, !toolResponses_responses, Hname.
  now rewrite <- app_assoc.
Qed.

Lemma vision_reply_deferred_witness :
  let st := onopen (initial ∅ (15 # 1000)) in
  let st1 := onmessage quiet_env vision_message st in
  toolResponses (trace st1) = [mkResponse "call-1" "set_expression" "ok"]
  /\ toolResponses (trace (visionSettled quiet_env 0 Granted st1))
     = [mkResponse "call-1" "set_expression" "ok";
        mkResponse "call-2" "toggle_vision" "Vision Activated: camera";
        mkResponse "call-3" "dance" "ok"].
Proof.
  cbn zeta.
  destruct (vision_reply_deferred quiet_env quiet_env vision_message
              [mkCall "call-1" "set_expression"
                 (Some {[ "expression"%string := "happy"%string ]})]
              [mkCall "call-3" "dance" (Some ∅)]
              (mkCall "call-2" "toggle_vision" (Some {[ "type"%string := "camera"%string ]}))
              {[ "type"%string := "camera"%string ]} Granted "Vision Activated: camera"
              (onopen (initial ∅ (15 # 1000)))
              ltac:(reflexivity) ltac:(reflexivity) ltac:(reflexivity) ltac:(reflexivity)
              ltac:(reflexivity) ltac:(reflexivity) ltac:(reflexivity))
    as (H1 & _ & _ & H2).
  split; [exact H1|].
  change (length (awaiting (onopen (initial ∅ (15 # 1000))))) with 0%nat in H2.
  rewrite H2, H1. reflexivity.
Defined.

End ToolsMore.

(** ** More on the server messages *)

Section MessagesMore.

Lemma playAudio_chunk env message st :
  playAudio env message st
  = match chunk env message with
    | Throw _ => st
    | Ok c =>
        let st := match c with
                  | Some buf => scheduleChunk buf (currentTime env) st
                  | None => st
                  end in
        if interrupted message then set_expression "surprised" (stopAllAudio st) else st
    end.
Proof.
  unfold playAudio, chunk. destruct (modelTurn message) as [| |b64]; try reflexivity.
  destruct (truthy b64); [|reflexivity].
  destruct (Pcm.decode (js_to_string b64)) as [bytes|e]; cbn [js_bind]; [|reflexivity].
  destruct (Pcm.decodeAudioData bytes (outCtx env) 24000 1) as [buf|e]; reflexivity.
Qed.

Lemma onmessage_continue env message st :
  snd (afterTools env message st) = Continue ->
  onmessage env message st = playAudio env message (fst (afterTools env message st)).
Proof.
  rewrite onmessage_eq. destruct (afterTools env message st) as [st2 ctl].
  cbn [fst snd]. now intros ->.
Qed.

Lemma view_of_afterTools env message st :
  playback_view (fst (afterTools env message st)) = playback_view st
  /\ nextStartTime (fst (afterTools env message st)) = nextStartTime st
  /\ startTimes (trace (fst (afterTools env message st))) = startTimes (trace st)
  /\ upcomingStatus (fst (afterTools env message st)) = upcomingStatus st.
Proof.
  destruct (afterTools_spec env message st) as (Hcore & sent & Htrace & _).
  split; [|split; [|split]].
  - unfold playback_view. rewrite Htrace, startedSources_app, stoppedSources_app,
      startedSources_responses, stoppedSources_responses, !app_nil_r.
    unfold audio_core in Hcore.
    assert (Hs : sources (fst (afterTools env message st)) = sources st) by congruence.
    assert (Hn : nextSource (fst (afterTools env message st)) = nextSource st) by congruence.
    now rewrite Hs, Hn.
  - unfold audio_core in Hcore. congruence.
  - now rewrite Htrace, startTimes_app, startTimes_responses, app_nil_r.
  - now apply upcoming_of_core.
Qed.

Lemma stopped_after_interrupt (st : AppState) :
  stoppedSources (trace (set_expression "surprised" (stopAllAudio st)))
  = stoppedSources (trace st) ++ sources st.
Proof.
  pose proof (stopAllAudio_view st) as H. unfold playback_view in H.
  transitivity (stoppedSources (trace (stopAllAudio st))); [|congruence].
  destruct (stopAllAudio st); reflexivity.
Qed.

(** A message that says [interrupted], once its calls are through and its
    chunk, if it has one, is decoded: every source that was pending is
    stopped, the set is empty, [nextStartTime] is 0, [setStatus('idle')] and
    [setExpression('surprised')] have been called.  A chunk that comes in the
    same message is scheduled first and stopped with the others. *)
Theorem interrupted_message env (message : LiveServerMessage)
    (c : option Pcm.AudioBuffer) (st : AppState) :
  interrupted message = true ->
  chunk env message = Ok c ->
  snd (afterTools env message st) = Continue ->
  let st' := onmessage env message st in
  sources st' = []
  /\ nextStartTime st' = 0%Q
  /\ expression st' = "surprised"%string
  /\ upcomingStatus st' = idle
  /\ (forall s, s ∈ sources st -> s ∈ stoppedSources (trace st'))
  /\ (forall buf, c = Some buf ->
        startTimes (trace st')
        = startTimes (trace st) ++ [Qmax (nextStartTime st) (currentTime env)]
        /\ nextSource st ∈ stoppedSources (trace st')).
Proof.
  intros Hint Hchunk Hdone st'. subst st'.
  rewrite (onmessage_continue _ _ _ Hdone), playAudio_chunk, Hchunk, Hint.
  cbn beta iota zeta.
  destruct (view_of_afterTools env message st) as (Hview & Hnext & Hstarts & _).
  set (st2 := fst (afterTools env message st)) in *.
  assert (Hsrc : sources st2 = sources st) by (unfold playback_view in Hview; congruence).
  assert (Hid : nextSource st2 = nextSource st) by (unfold playback_view in Hview; congruence).
  set (st3 := match c with Some buf => scheduleChunk buf (currentTime env) st2 | None => st2 end).
  split; [rewrite stopAllAudio_eq; reflexivity|].
  split; [rewrite stopAllAudio_eq; reflexivity|].
  split; [rewrite stopAllAudio_eq; reflexivity|].
  split; [rewrite stopAllAudio_eq; reflexivity|].
  split.
  - intros s Hs. rewrite stopped_after_interrupt. apply elem_of_app. right.
    unfold st3. destruct c as [buf|]; [|now rewrite Hsrc].
    pose proof (scheduleChunk_view buf (currentTime env) st2) as H.
    unfold playback_view in H.
    replace (sources (scheduleChunk buf (currentTime env) st2))
      with (Set_add (nextSource st2) (sources st2)) by congruence.
    apply elem_of_Set_add. left. now rewrite Hsrc.
  - intros buf Hc. unfold st3. rewrite Hc. split.
    + rewrite stopAllAudio_eq. cbn.
      rewrite !startTimes_app, startTimes_stops, Hstarts, Hnext. cbn.
      now rewrite !app_nil_r.
    + rewrite stopped_after_interrupt. apply elem_of_app. right.
      pose proof (scheduleChunk_view buf (currentTime env) st2) as H.
      unfold playback_view in H.
      replace (sources (scheduleChunk buf (currentTime env) st2))
        with (Set_add (nextSource st2) (sources st2)) by congruence.
      apply elem_of_Set_add. right. now rewrite Hid.
Qed.

Lemma interrupted_message_witness :
  let st := run ∅ (15 # 1000) speaking_events in
  let st' := onmessage quiet_env interrupting_message st in
  sources st = [0%nat]
  /\ sources st' = []
  /\ stoppedSources (trace st') = [0%nat; 1%nat]
  /\ expression st' = "surprised"%string.
Proof.
  cbn zeta.
  destruct (interrupted_message quiet_env interrupting_message
              (Some (Pcm.mkAudioBuffer 24000 [[Num (0 # 32768)]]))
              (run ∅ (15 # 1000) speaking_events)
              ltac:(reflexivity) ltac:(vm_compute; reflexivity) ltac:(reflexivity))
    as (Hsources & _ & Hexpr & _).
  split; [vm_compute; reflexivity|]. split; [exact Hsources|].
  split; [vm_compute; reflexivity|exact Hexpr].
Defined.

(** When the turn of a message has no [parts], or its data does not decode,
    the exception leaves [onmessage] before the test of [interrupted]: the
    message stops nothing and schedules nothing, even if it says
    [interrupted], and the face is not surprised. *)
Theorem undecodable_audio env (message : LiveServerMessage) (e : JsError) (st : AppState) :
  chunk env message = Throw e ->
  let st' := onmessage env message st in
  st' = fst (afterTools env message st)
  /\ playback_view st' = playback_view st
  /\ nextStartTime st' = nextStartTime st
  /\ startTimes (trace st') = startTimes (trace st)
  /\ upcomingStatus st' = upcomingStatus st.
Proof.
  intros Hchunk st'.
  assert (H : st' = fst (afterTools env message st)).
  { unfold st'. rewrite onmessage_eq.
    destruct (afterTools env message st) as [st2 []]; cbn [afterCalls fst]; try reflexivity.
    now rewrite playAudio_chunk, Hchunk. }
  split; [assumption|]. rewrite H. apply view_of_afterTools.
Qed.

Lemma undecodable_audio_witness :
  let st := run ∅ (15 # 1000) speaking_events in
  interrupted broken_message = true
  /\ sources (onmessage quiet_env broken_message st) = [0%nat]
  /\ stoppedSources (trace (onmessage quiet_env broken_message st)) = [].
Proof.
  cbn zeta.
  destruct (undecodable_audio quiet_env broken_message TypeError
              (run ∅ (15 # 1000) speaking_events) ltac:(reflexivity))
    as (_ & Hview & _).
  unfold playback_view in Hview.
  split; [reflexivity|]. split.
  - transitivity (sources (run ∅ (15 # 1000) speaking_events)); [congruence|].
    vm_compute; reflexivity.
  - transitivity (stoppedSources (trace (run ∅ (15 # 1000) speaking_events))); [congruence|].
    vm_compute; reflexivity.
Defined.

End MessagesMore.

(** ** More on the face *)

Section FaceMore.

Ltac split_switch :=
  repeat match goal with
         | |- context [if is_str ?a ?s then _ else _] => destruct (is_str a s)
         end.

Lemma eye_switch_geometry (a : JsString) (isLeft : bool) (scaleY : Q) :
  let e := eye_switch a isLeft (mkEye 72 72 "22px" 0 scaleY 0) in
  (72 <= eye_width e <= 88)
  /\ (28 <= eye_height e <= 82)
  /\ (-25 <= eye_rotate e <= 25)
  /\ (-14 <= eye_translateY e <= 14)
  /\ eye_width e = eye_width (eye_switch a (negb isLeft) (mkEye 72 72 "22px" 0 scaleY 0))
  /\ (eye_scaleY e = scaleY \/ eye_scaleY e = 22 # 100 \/ eye_scaleY e = 5 # 100
      \/ eye_scaleY e = 28 # 100).
Proof.
  unfold eye_switch. split_switch; destruct isLeft; cbn; repeat split; try lia; auto.
Qed.

(** Whatever the expression, the state and the flags, the eye that [EmoEye]
    draws is between 72 and 98 pixels wide and between 28 and 86 high, is
    turned by at most 25 degrees and shifted by at most 14 pixels, and is
    never flattened to nothing; and the two eyes have the same width. *)
Theorem eye_geometry (state : Status) (expression : JsString) (isLeft isStartled blink : bool) :
  let e := EmoEye state expression isLeft isStartled blink in
  (72 <= eye_width e <= 98)
  /\ (28 <= eye_height e <= 86)
  /\ (-25 <= eye_rotate e <= 25)
  /\ (-14 <= eye_translateY e <= 14)
  /\ (0 < eye_scaleY e <= 1)%Q
  /\ eye_width e = eye_width (EmoEye state expression (negb isLeft) isStartled blink).
Proof.
  cbn zeta. unfold EmoEye, eye_default.
  set (a := eye_activeExpression state expression isStartled).
  set (scaleY := (if blink && negb isStartled then 5 # 100 else 1)%Q).
  destruct (eye_switch_geometry a isLeft scaleY) as (Hw & Hh & Hr & Ht & Hsame & Hs).
  cbn zeta in *.
  assert (Hscale : (0 < scaleY <= 1)%Q).
  { unfold scaleY. destruct (blink && negb isStartled); split; reflexivity || discriminate. }
  assert (Hs' : (0 < eye_scaleY (eye_switch a isLeft (mkEye 72 72 "22px" 0 scaleY 0)) <= 1)%Q).
  { destruct Hs as [-> | [-> | [-> | ->]]]; [assumption|..]; split; reflexivity || discriminate. }
  destruct (Status_eqb state listening); cbn [eye_width eye_height eye_rotate eye_translateY
    eye_scaleY]; repeat split; try lia; try apply Hs'.
Qed.

End FaceMore.

(** ** The mood lab *)

Section LabMore.

Lemma lower_or_digit_fixed (c : ascii) :
  Lab.is_lower_or_digit c = true -> Lab.toLowerCase_unit c = c.
Proof.
  destruct c as [[] [] [] [] [] [] [] []]; intros H; try reflexivity; discriminate H.
Qed.

Lemma clean_chars (value : string) :
  Forall (fun c => Lab.is_lower_or_digit c = true) (list_ascii_of_string (Lab.clean value)).
Proof.
  unfold Lab.clean. rewrite list_ascii_of_string_of_list_ascii.
  apply List.Forall_forall. intros c Hc. now apply List.filter_In in Hc.
Qed.

Lemma clean_fixed (s : string) :
  Forall (fun c => Lab.is_lower_or_digit c = true) (list_ascii_of_string s) ->
  Lab.clean s = s.
Proof.
  intros H. unfold Lab.clean, Lab.toLowerCase.
  rewrite <- (string_of_list_ascii_of_string s) at 2. f_equal.
  induction H as [|c l Hc _ IH]; [reflexivity|].
  cbn [map List.filter]. rewrite (lower_or_digit_fixed c Hc), Hc. now f_equal.
Qed.

Lemma lab_invariant (events : list Lab.LabEvent) :
  let st := fold_left Lab.lab_step events Lab.opened in
  (exists value, Lab.lab_name st = Lab.clean value)
  /\ Lab.lab_eye st ∈ base_moods
  /\ Lab.lab_mouth st ∈ base_moods.
Proof.
  cbn zeta. induction events as [|e events IH] using rev_ind.
  - split; [now exists ""%string|]. split; left.
  - rewrite fold_left_app. cbn [fold_left].
    destruct IH as (Hname & Heye & Hmouth).
    destruct e as [value|k|k]; cbn [Lab.lab_step].
    + split; [now exists value|]. now split.
    + destruct (Lab.bases !! k) as [b|] eqn:Hb; [|now repeat split].
      split; [assumption|]. split; [|assumption].
      now apply list_elem_of_lookup_2 in Hb.
    + destruct (Lab.bases !! k) as [b|] eqn:Hb; [|now repeat split].
      split; [assumption|]. split; [assumption|].
      now apply list_elem_of_lookup_2 in Hb.
Qed.

(** Whatever is typed and chosen in the lab, a mood that STORE MOOD hands to
    [saveCustomMood] has a name that is not empty and consists of the
    characters [a]-[z] and [0]-[9] (typing it again gives the same name), and
    its two bases are base moods; once saved, its name resolves to these two
    bases, the bored eyes of an idle [neutral] apart. *)
Theorem lab_mood_wellformed (events : list Lab.LabEvent) (m : CustomExpression) :
  Lab.store (fold_left Lab.lab_step events Lab.opened) = Some m ->
  name m <> ""%string
  /\ Forall (fun c => Lab.is_lower_or_digit c = true) (list_ascii_of_string (name m))
  /\ Lab.clean (name m) = name m
  /\ eyeBase m ∈ base_moods
  /\ mouthBase m ∈ base_moods
  /\ forall (st : AppState) (status : Status) (boredom : Z),
       ~ (name m = "neutral"%string /\ status = idle /\ 40 < boredom) ->
       EmoFace status (name m) (customExpressions (saveCustomMood m st)) boredom
       = (Some (eyeBase m), Some (mouthBase m)).
Proof.
  intros Hstore. destruct (lab_invariant events) as ((value & Hname) & Heye & Hmouth).
  cbn zeta in *. unfold Lab.store in Hstore.
  destruct (String.eqb_spec (Lab.lab_name (fold_left Lab.lab_step events Lab.opened)) "")
    as [|Hne]; [discriminate|].
  injection Hstore as <-. cbn [name eyeBase mouthBase].
  assert (Hchars : Forall (fun c => Lab.is_lower_or_digit c = true)
                     (list_ascii_of_string
                        (Lab.lab_name (fold_left Lab.lab_step events Lab.opened)))).
  { rewrite Hname. apply clean_chars. }
  split; [assumption|]. split; [assumption|]. split; [now apply clean_fixed|].
  split; [assumption|]. split; [assumption|].
  intros st status boredom Hnot. unfold EmoFace, saveCustomMood. cbn [customExpressions
    set_customExpressions name]. rewrite lookup_insert_eq. cbn [eyeBase mouthBase].
  destruct (String.eqb_spec (Lab.lab_name (fold_left Lab.lab_step events Lab.opened))
              "neutral") as [Hn|_]; [|reflexivity].
  destruct status; cbn [Status_eqb andb]; try reflexivity.
  destruct (Z.ltb_spec 80 boredom); [exfalso; apply Hnot; repeat split; [assumption|lia]|].
  destruct (Z.ltb_spec 40 boredom); [exfalso; apply Hnot; repeat split; [assumption|lia]|].
  reflexivity.
Qed.

Lemma lab_mood_wellformed_witness :
  Lab.store (fold_left Lab.lab_step lab_events Lab.opened)
  = Some (mkCustom "grumpycat2" "angry" "sad")
  /\ EmoFace speaking "grumpycat2"
       (customExpressions (saveCustomMood (mkCustom "grumpycat2" "angry" "sad")
                             (initial ∅ (15 # 1000)))) 0
     = (Some "angry"%string, Some "sad"%string).
Proof.
  assert (Hstore : Lab.store (fold_left Lab.lab_step lab_events Lab.opened)
                   = Some (mkCustom "grumpycat2" "angry" "sad")) by reflexivity.
  split; [exact Hstore|].
  destruct (lab_mood_wellformed lab_events _ Hstore) as (_ & _ & _ & _ & _ & Hface).
  apply (Hface (initial ∅ (15 # 1000)) speaking 0).
  intros (_ & H & _). discriminate H.
Defined.

End LabMore.

(** ** The queued player of the third variant *)

Section QueueMore.

Lemma arrived_snoc (events : list Queue.PlayerEvent) (e : Queue.PlayerEvent) :
  Queue.arrived (events ++ [e])
  = Queue.arrived events ++ match e with Queue.Decoded b => [b] | _ => [] end.
Proof.
  unfold Queue.arrived. rewrite flat_map_app. cbn. now rewrite app_nil_r.
Qed.

Lemma undisturbed_snoc (events : list Queue.PlayerEvent) (e : Queue.PlayerEvent) :
  Queue.undisturbed (events ++ [e])
  = Queue.undisturbed events && match e with Queue.Loud _ => false | _ => true end.
Proof.
  unfold Queue.undisturbed. rewrite forallb_app. cbn. now rewrite andb_true_r.
Qed.

(** As long as no frame is loud, the player of the third variant is a
    first-in first-out queue with one source at a time: what has been started
    followed by what waits is what arrived, in the order of arrival; at most
    one source plays, and one plays exactly when [isPlayingRef] says so; and
    when none plays nothing waits: every chunk that arrived has been
    started, and the status asked for is [idle]. *)
Theorem queue_fifo (events : list Queue.PlayerEvent) :
  Queue.undisturbed events = true ->
  let p := fold_left Queue.player_step events Queue.mounted in
  Queue.started p ++ Queue.audioQueue p = Queue.arrived events
  /\ (length (Queue.playing p) <= 1)%nat
  /\ (Queue.isPlaying p = true <-> Queue.playing p <> [])
  /\ Queue.asked p = (if Queue.isPlaying p then speaking else idle)
  /\ (Queue.isPlaying p = false ->
        Queue.audioQueue p = [] /\ Queue.started p = Queue.arrived events).
Proof.
  cbn zeta. induction events as [|e events IH] using rev_ind; intros Hquiet.
  - cbn. intuition (auto; try discriminate; try easy).
  - rewrite undisturbed_snoc in Hquiet. apply andb_true_iff in Hquiet as [Hq He].
    specialize (IH Hq). rewrite fold_left_app, arrived_snoc. cbn [fold_left].
    destruct (fold_left Queue.player_step events Queue.mounted)
      as [queue playingNow status live begun].
    cbn [Queue.started Queue.audioQueue Queue.playing Queue.isPlaying Queue.asked] in IH.
    destruct IH as (Hall & Hone & Hplay & Hasked & Hrest).
    destruct e as [buffer|k|rendered]; [| |discriminate]; cbn [Queue.player_step].
    + unfold Queue.onaudio. cbn [Queue.isPlaying Queue.audioQueue Queue.asked Queue.playing
        Queue.started].
      destruct playingNow.
      * cbn. rewrite <- Hall, <- app_assoc. intuition (auto; try discriminate; try easy).
      * destruct (Hrest eq_refl) as [-> Hbegun]. cbn [app Queue.playNext Queue.audioQueue].
        assert (Hlive : live = []).
        { destruct live as [|x l]; [reflexivity|]. exfalso.
          assert (H : false = true) by (apply Hplay; discriminate). discriminate H. }
        subst live. cbn. rewrite app_nil_r in *. subst begun.
        intuition (auto; try discriminate; try easy).
    + unfold Queue.sourceEnded. cbn [Queue.playing].
      destruct (live !! k) as [b|] eqn:Hk.
      2:{ rewrite app_nil_r. cbn. tauto. }
      assert (Hlive : live = [b] /\ k = 0%nat).
      { destruct live as [|x [|y l]]; cbn in Hone; [discriminate| |lia].
        destruct k; cbn in Hk; [|discriminate]. split; congruence. }
      destruct Hlive as [-> ->]. cbn [delete list_delete Queue.audioQueue Queue.isPlaying
        Queue.asked Queue.started Queue.playing].
      rewrite app_nil_r.
      destruct queue as [|next rest]; cbn.
      * rewrite app_nil_r in Hall. rewrite ?app_nil_r. intuition (auto; try discriminate; try easy).
      * rewrite <- Hall, <- app_assoc. intuition (auto; try discriminate; try easy).
Qed.

Lemma queue_fifo_witness :
  let events := [Queue.Decoded one_frame; Queue.Decoded (Pcm.mkAudioBuffer 2 [[Num 0]]);
                 Queue.Ended 0; Queue.Ended 0] in
  Queue.undisturbed events = true
  /\ Queue.started (fold_left Queue.player_step events Queue.mounted)
     = [one_frame; Pcm.mkAudioBuffer 2 [[Num 0]]]
  /\ Queue.asked (fold_left Queue.player_step events Queue.mounted) = idle.
Proof.
  cbn zeta.
  destruct (queue_fifo [Queue.Decoded one_frame; Queue.Decoded (Pcm.mkAudioBuffer 2 [[Num 0]]);
                        Queue.Ended 0; Queue.Ended 0] eq_refl)
    as (_ & _ & _ & Hasked & Hrest).
  split; [reflexivity|]. split; [|exact Hasked].
  exact (proj2 (Hrest eq_refl)).
Defined.

(** A loud frame empties the queue and clears [isPlayingRef], but stops no
    source: the chunk that plays goes on playing, and a chunk that arrives
    before it has ended is started at once, on top of it. *)
Theorem loud_frame_keeps_source (rendered : Status) (buffer : Pcm.AudioBuffer)
    (p : Queue.Player) :
  let p1 := Queue.onloud rendered p in
  let p2 := Queue.onaudio buffer p1 in
  Queue.playing p1 = Queue.playing p
  /\ Queue.audioQueue p1 = []
  /\ Queue.started p1 = Queue.started p
  /\ Queue.playing p2 = Queue.playing p ++ [buffer]
  /\ Queue.started p2 = Queue.started p ++ [buffer]
  /\ (Queue.playing p <> [] -> (2 <= length (Queue.playing p2))%nat).
Proof.
  cbn zeta. unfold Queue.onloud, Queue.onaudio. cbn.
  repeat split; auto. intros H. rewrite length_app. cbn.
  destruct (Queue.playing p); [now contradiction H|cbn; lia].
Qed.

End QueueMore.

(** ** More on the conversation state *)

Section MachineMore.

Lemma started_numbered_step (st st' : AppState) :
  view_change st st' ->
  startedSources (trace st) = seq 0 (nextSource st) ->
  startedSources (trace st') = seq 0 (nextSource st').
Proof.
  intros Hchange Hseq.
  assert (Hsched : forall st2 buf now,
            playback_view st2 = playback_view st ->
            startedSources (trace (scheduleChunk buf now st2))
            = seq 0 (nextSource (scheduleChunk buf now st2))).
  { intros st2 buf now H2. pose proof (scheduleChunk_view buf now st2) as H.
    unfold playback_view in H, H2.
    replace (startedSources (trace (scheduleChunk buf now st2)))
      with (startedSources (trace st2) ++ [nextSource st2]) by congruence.
    replace (nextSource (scheduleChunk buf now st2)) with (S (nextSource st2)) by congruence.
    rewrite seq_S. cbn. replace (startedSources (trace st2)) with (startedSources (trace st))
      by congruence.
    replace (nextSource st2) with (nextSource st) by congruence. now rewrite Hseq. }
  destruct Hchange as [st' H|st2 buf now st' H2 H|st2 st' H2 H|st2 buf now st' H2 H].
  - unfold playback_view in H.
    replace (startedSources (trace st')) with (startedSources (trace st)) by congruence.
    replace (nextSource st') with (nextSource st) by congruence. assumption.
  - specialize (Hsched st2 buf now H2). unfold playback_view in H.
    replace (startedSources (trace st'))
      with (startedSources (trace (scheduleChunk buf now st2))) by congruence.
    replace (nextSource st') with (nextSource (scheduleChunk buf now st2)) by congruence.
    assumption.
  - rewrite stopAllAudio_view in H. unfold playback_view in H, H2.
    replace (startedSources (trace st')) with (startedSources (trace st2)) by congruence.
    replace (nextSource st') with (nextSource st2) by congruence.
    replace (startedSources (trace st2)) with (startedSources (trace st)) by congruence.
    replace (nextSource st2) with (nextSource st) by congruence. assumption.
  - specialize (Hsched st2 buf now H2). rewrite stopAllAudio_view in H.
    unfold playback_view in H.
    replace (startedSources (trace st'))
      with (startedSources (trace (scheduleChunk buf now st2))) by congruence.
    replace (nextSource st') with (nextSource (scheduleChunk buf now st2)) by congruence.
    assumption.
Qed.

Lemma classic_source (e : Event) :
  (exists src, e = SourceEnded src) \/ (forall src, e <> SourceEnded src).
Proof. destruct e; (left; eauto; fail) || (right; discriminate). Qed.

Lemma started_numbered moods threshold events :
  startedSources (trace (run moods threshold events))
  = seq 0 (nextSource (run moods threshold events)).
Proof.
  induction events as [|e events IH] using rev_ind; [reflexivity|].
  rewrite run_snoc.
  destruct (classic_source e) as [[src ->]|He].
  - cbn [step]. pose proof (onended_view src (run moods threshold events)) as H.
    unfold playback_view in H.
    replace (startedSources (trace (onended src (run moods threshold events))))
      with (startedSources (trace (run moods threshold events))) by congruence.
    replace (nextSource (onended src (run moods threshold events)))
      with (nextSource (run moods threshold events)) by congruence.
    assumption.
  - now apply (started_numbered_step _ _ (step_view _ e He)).
Qed.

(** Over every run in which [ended] is delivered only for sources that were
    started: every chunk gets a source of its own; [stop()] is called on
    started sources only, and at most once on each; the pending set holds no
    source twice, and it holds exactly the started sources that were neither
    stopped nor ended. *)
Theorem playback_bookkeeping moods threshold (events : list Event) :
  ended_after_start (initial moods threshold) events = true ->
  let st := run moods threshold events in
  NoDup (startedSources (trace st))
  /\ length (startedSources (trace st)) = nextSource st
  /\ NoDup (stoppedSources (trace st))
  /\ (forall s, s ∈ stoppedSources (trace st) -> s ∈ startedSources (trace st))
  /\ NoDup (sources st)
  /\ (forall s, s ∈ sources st <->
        s ∈ startedSources (trace st)
        /\ (s ∉ stoppedSources (trace st)) /\ (s ∉ endedSources events)).
Proof.
  intros Hended st.
  destruct (run_playback moods threshold events Hended)
    as (Hnd & Hstopped & _ & Hsub & _ & Hpending).
  fold st in Hnd, Hstopped, Hsub, Hpending.
  pose proof (started_numbered moods threshold events) as Hseq. fold st in Hseq.
  split; [rewrite Hseq; apply NoDup_ListNoDup, List.seq_NoDup|].
  split; [now rewrite Hseq, length_seq|].
  split; [exact Hstopped|]. split; [exact Hsub|]. split; [exact Hnd|exact Hpending].
Qed.

Lemma playback_bookkeeping_witness :
  startedSources (trace (run ∅ (15 # 1000) two_chunks)) = [0%nat; 1%nat]
  /\ NoDup (startedSources (trace (run ∅ (15 # 1000) two_chunks)))
  /\ NoDup (sources (run ∅ (15 # 1000) two_chunks)).
Proof.
  destruct (playback_bookkeeping ∅ (15 # 1000) two_chunks ltac:(vm_compute; reflexivity))
    as (Hstarted & _ & _ & _ & Hsources & _).
  split; [vm_compute; reflexivity|]. split; [exact Hstarted|exact Hsources].
Defined.



(** [onclose] turns the component off and the vision with it, but neither
    stops the audio that is scheduled nor closes the gate: the pending
    sources stay pending, and since [sessionRef.current] is never reset a
    frame the gate takes for speech is still handed to
    [sendRealtimeInput]. *)
Theorem close_leaves_audio (st : AppState) (inputData : list jsnum) :
  let st1 := onclose st in
  isActive st1 = false
  /\ upcomingStatus st1 = idle
  /\ visionType st1 = None
  /\ sources st1 = sources st
  /\ nextStartTime st1 = nextStartTime st
  /\ trace st1 = trace st
  /\ (sessionRef st = true ->
      active st inputData = true ->
      forwarded (trace (onaudioprocess inputData st1))
      = forwarded (trace st) ++ [Pcm.createBlob inputData]).
Proof.
  cbn zeta.
  assert (Hframe : sessionRef (onclose st) = sessionRef st
                   /\ noiseThreshold (onclose st) = noiseThreshold st
                   /\ trace (onclose st) = trace st) by (destruct st; now repeat split).
  destruct Hframe as (Hs & Hn & Ht).
  split; [destruct st; reflexivity|]. split; [destruct st; reflexivity|].
  split; [destruct st; reflexivity|]. split; [destruct st; reflexivity|].
  split; [destruct st; reflexivity|]. split; [assumption|].
  intros Hsess Hactive.
  assert (Ha : active (onclose st) inputData = true).
  { now rewrite (active_same_threshold st). }
  destruct (active_frame _ _ Ha) as [_ ->]. now rewrite Hs, Hsess, Ht.
Qed.

Lemma close_leaves_audio_witness :
  forwarded (trace (onaudioprocess loud_frame (onclose (onopen (initial ∅ (15 # 1000))))))
  = [Pcm.createBlob loud_frame].
Proof.
  exact (proj2 (proj2 (proj2 (proj2 (proj2 (proj2
           (close_leaves_audio (onopen (initial ∅ (15 # 1000))) loud_frame))))))
           ltac:(reflexivity) ltac:(vm_compute; reflexivity)).
Defined.

Lemma respond_stickers fc result st : stickers (respond fc result st) = stickers st.
Proof.
  unfold respond, sendToolResponse. destruct (sessionRef st); destruct st; reflexivity.
Qed.

(** [set_sticker] puts one sticker on the face, at ['top-right'] when no
    position is given, with the clock reading for identifier; the timer of
    the sticker takes it off again, together with every other sticker made
    in the same millisecond, and leaves the others. *)
Theorem sticker_lifecycle env (fc : FunctionCall) (args : gmap string string)
    (st : AppState) :
  fc_name fc = "set_sticker"%string ->
  fc_args fc = Some args ->
  let st1 := fst (handleFunctionCall env fc st) in
  let st2 := step st1 (StickerExpired (dateNow env)) in
  stickers st1
  = stickers st
      ++ [mkSticker (args !! "icon"%string)
            (if truthy (args !! "position"%string)
             then js_to_string (args !! "position"%string) else "top-right"%string)
            (dateNow env)]
  /\ stickers st2
     = List.filter (fun s => negb (sticker_id s =? dateNow env)) (stickers st)
  /\ (Forall (fun s => sticker_id s <> dateNow env) (stickers st) ->
      stickers st2 = stickers st).
Proof.
  intros Hname Hargs. cbn zeta.
  assert (H1 : stickers (fst (handleFunctionCall env fc st))
               = stickers st
                   ++ [mkSticker (args !! "icon"%string)
                         (if truthy (args !! "position"%string)
                          then js_to_string (args !! "position"%string)
                          else "top-right"%string)
                         (dateNow env)]).
  { unfold handleFunctionCall. rewrite Hname, Hargs. cbn. rewrite respond_stickers.
    destruct st; reflexivity. }
  assert (H2 : stickers (step (fst (handleFunctionCall env fc st))
                           (StickerExpired (dateNow env)))
               = List.filter (fun s => negb (sticker_id s =? dateNow env)) (stickers st)).
  { cbn [step]. transitivity
      (List.filter (fun s => negb (sticker_id s =? dateNow env))
         (stickers (fst (handleFunctionCall env fc st)))).
    - destruct (fst (handleFunctionCall env fc st)); reflexivity.
    - rewrite H1, List.filter_app. cbn. rewrite Z.eqb_refl. cbn. apply app_nil_r. }
  split; [assumption|]. split; [assumption|].
  intros Hfresh. rewrite H2. clear H1 H2.
  induction (stickers st) as [|s l IH]; [reflexivity|].
  inversion_clear Hfresh as [|? ? Hs Hl]. cbn [List.filter].
  apply Z.eqb_neq in Hs. rewrite Hs. cbn [negb]. f_equal. now apply IH.
Qed.

Lemma sticker_lifecycle_witness :
  let st1 := fst (handleFunctionCall quiet_env sticker_call (onopen (initial ∅ (15 # 1000)))) in
  stickers st1 = [mkSticker (Some "star"%string) "top-right" 0]
  /\ stickers (step st1 (StickerExpired 0)) = [].
Proof.
  cbn zeta.
  destruct (sticker_lifecycle quiet_env sticker_call {[ "icon"%string := "star"%string ]}
              (onopen (initial ∅ (15 # 1000))) eq_refl eq_refl)
    as (Hput & Hoff & _).
  split; [rewrite Hput; vm_compute; reflexivity|].
  etransitivity; [exact Hoff|reflexivity].
Defined.

End MachineMore.

(** ** The memory bank *)

Section BankMore.

Lemma bank_same (st st' : AppState) : memoryBank st' = memoryBank st -> bank_grows st st'.
Proof. intros H. exists []. split; [exact H|constructor]. Qed.

Lemma bank_trans (st1 st2 st3 : AppState) :
  bank_grows st1 st2 -> bank_grows st2 st3 -> bank_grows st1 st3.
Proof.
  intros (n1 & H1 & F1) (n2 & H2 & F2). exists (n2 ++ n1).
  split; [now rewrite H2, H1, app_assoc|now apply Forall_app].
Qed.

Lemma respond_bank fc result st : memoryBank (respond fc result st) = memoryBank st.
Proof.
  unfold respond, sendToolResponse. destruct (sessionRef st); destruct st; reflexivity.
Qed.

Lemma bank_handleFunctionCall env fc st :
  bank_grows st (fst (handleFunctionCall env fc st)).
Proof.
  unfold handleFunctionCall.
  destruct (String.eqb (fc_name fc) "set_expression").
  { destruct (fc_args fc); cbn [fst]; apply bank_same; rewrite ?respond_bank;
      destruct st; reflexivity. }
  destruct (String.eqb (fc_name fc) "set_sticker").
  { destruct (fc_args fc); cbn [fst]; apply bank_same; rewrite ?respond_bank;
      destruct st; reflexivity. }
  destruct (String.eqb (fc_name fc) "display_thought").
  { destruct (fc_args fc) as [args|]; cbn [fst]; [|now apply bank_same].
    cbn zeta. cbn [thought_type].
    destruct (is_str (args !! "type"%string) "image"
              || is_str (args !! "type"%string) "generated") eqn:E.
    - exists [mkThought (args !! "type"%string) (args !! "content"%string) (dateNow env)].
      split; [rewrite respond_bank; destruct st; reflexivity|].
      constructor; [exact E|constructor].
    - apply bank_same. rewrite respond_bank. destruct st; reflexivity. }
  destruct (String.eqb (fc_name fc) "execute_javascript").
  { destruct (fc_args fc) as [args|]; cbn [fst].
    - destruct (runFunction env (args !! "code"%string)); cbn [fst]; apply bank_same;
        rewrite ?respond_bank; reflexivity.
    - apply bank_same. now rewrite respond_bank. }
  destruct (String.eqb (fc_name fc) "update_face_css").
  { destruct (fc_args fc); cbn [fst]; apply bank_same; rewrite ?respond_bank;
      destruct st; reflexivity. }
  destruct (String.eqb (fc_name fc) "toggle_vision").
  { destruct (fc_args fc) as [args|]; cbn [fst]; [|now apply bank_same].
    destruct (is_str (args !! "type"%string) "none"); cbn [fst]; apply bank_same;
      rewrite ?respond_bank; destruct st; reflexivity. }
  cbn [fst]. apply bank_same. now rewrite respond_bank.
Qed.

Lemma bank_dispatchToolCall env message calls st :
  bank_grows st (fst (dispatchToolCall env message calls st)).
Proof.
  revert st. induction calls as [|fc calls IH]; intros st; cbn [dispatchToolCall].
  - now apply bank_same.
  - pose proof (bank_handleFunctionCall env fc st) as H.
    destruct (handleFunctionCall env fc st) as [st1 []]; cbn [fst] in *.
    + eapply bank_trans; [exact H|apply IH].
    + assumption.
    + eapply bank_trans; [exact H|]. apply bank_same. destruct st1; reflexivity.
Qed.

Lemma bank_outcome env st2 st' :
  message_outcome env st2 st' -> memoryBank st' = memoryBank st2.
Proof. intros []; rewrite ?stopAllAudio_eq; reflexivity. Qed.

Lemma bank_afterCalls env message (r : AppState * Control) (st : AppState) :
  bank_grows st (fst r) -> bank_grows st (afterCalls env message r).
Proof.
  intros H. eapply bank_trans; [exact H|].
  apply bank_same, (bank_outcome env), afterCalls_outcome.
Qed.

Lemma bank_step (st : AppState) (e : Event) : bank_grows st (step st e).
Proof.
  destruct e as [|inputData|env message|env k outcome|src| | | | | | | | | |]; cbn [step].
  - apply bank_same. destruct st; reflexivity.
  - apply bank_same. unfold onaudioprocess, sendRealtimeInput.
    repeat match goal with
           | |- context [if ?b then _ else _] => destruct b
           end;
      rewrite ?stopAllAudio_eq; reflexivity.
  - rewrite onmessage_eq. apply bank_afterCalls. unfold afterTools.
    assert (Ht : bank_grows st (transcribe message st)).
    { apply bank_same. unfold transcribe.
      destruct (outputTranscription message), (inputTranscription message);
        destruct st; reflexivity. }
    destruct (toolCall message) as [[calls|]|]; cbn [fst]; [|assumption..].
    eapply bank_trans; [exact Ht|apply bank_dispatchToolCall].
  - unfold visionSettled. destruct (awaiting st !! k) as [s|]; [|now apply bank_same].
    set (st0 := set_awaiting (delete k (awaiting st)) st).
    assert (H0 : bank_grows st st0) by (apply bank_same; destruct st; reflexivity).
    destruct outcome as [|errorMsg|]; cbn [startVision_settled].
    + apply bank_afterCalls. eapply bank_trans; [exact H0|].
      eapply bank_trans; [|apply bank_dispatchToolCall].
      apply bank_same. rewrite respond_bank. destruct st0; reflexivity.
    + apply bank_afterCalls. eapply bank_trans; [exact H0|].
      eapply bank_trans; [|apply bank_dispatchToolCall].
      apply bank_same. now rewrite respond_bank.
    + assumption.
  - apply bank_same. unfold onended. cbn [sources set_sources].
    destruct (length (Set_delete src (sources st)) =? 0)%nat; destruct st; reflexivity.
  - apply bank_same. unfold boredomTick.
    destruct (Status_eqb (statusRef st) idle); destruct st; reflexivity.
  - apply bank_same. unfold render. rewrite statusEffectRun_eq.
    destruct (statusEffect st); [destruct (Status_eqb (status st) idle)|];
      match goal with
      | |- context [if ?b then _ else _] => destruct b
      end; destruct st; reflexivity.
  - apply bank_same. rewrite statusEffectRun_eq.
    destruct (statusEffect st); [destruct (Status_eqb (status st) idle)|];
      destruct st; reflexivity.
  - apply bank_same. destruct st; reflexivity.
  - apply bank_same. destruct st; reflexivity.
  - apply bank_same. destruct st; reflexivity.
  - apply bank_same. destruct st; reflexivity.
  - apply bank_same. destruct st; reflexivity.
  - apply bank_same. destruct st; reflexivity.
  - apply bank_same. destruct st; reflexivity.
Qed.

(** The memory bank only grows: whatever happens, a step leaves the thoughts
    it holds where they are and puts the new ones in front, and in every
    state the component can reach it holds image and generated thoughts
    only. *)
Theorem memory_bank_grows moods threshold (events : list Event) (e : Event) :
  let st := run moods threshold events in
  Forall (fun t => remembered t = true) (memoryBank st)
  /\ bank_grows st (step st e).
Proof.
  cbn zeta. split; [|apply bank_step].
  induction events as [|e' events IH] using rev_ind; [constructor|].
  rewrite run_snoc. destruct (bank_step (run moods threshold events) e') as (new & -> & Hnew).
  now apply Forall_app.
Qed.

(** Of an image and a text shown in one batch, the bank keeps the image. *)
Example memory_bank_keeps_images :
  map thought_value
    (memoryBank (onmessage quiet_env thought_message (onopen (initial ∅ (15 # 1000)))))
  = [Some "cat.png"%string].
Proof. vm_compute. reflexivity. Qed.

End BankMore.
